(** * Access-assignment query: a shallow embedding of
      [query-sso-admin-access.ts] and the properties of its specification.

    The program enumerates (account, permission set) pairs, lists the
    principals assigned to each pair through a paginated, rate-limited remote
    service, resolves users and groups through three memoising caches, and
    writes the flattened assignment matrix as CSV.

    Modelling conventions.
    - JavaScript strings are [string]: sequences of code units.  Every
      character the program inspects (comma, double quote, line feed) is a
      single ASCII unit, so the unit width does not matter.
    - A value that may be [undefined] is an [option]; JavaScript truthiness
      of an optional string is [truthy] (defined and non-empty).
    - The module-level mutable bindings ([userCache], [groupCache],
      [groupMembersCache], [globalLogger]) and the effects of the run (remote
      calls, timers, console output, [Math.random]) are fields of one
      [State] record threaded through a state-and-exception monad [M].
    - The remote service is an arbitrary transition system (the [World] of
      an [Environment]): each request steps it and is either resolved with an
      output or rejected with an error.
    - [do ... while] loops driven by continuation tokens need not terminate,
      so they take fuel; running out of fuel is the distinct completion
      [OutOfFuel], which no [catch] intercepts.
    - Numbers that are floating point in the source (the back-off delay and
      its jitter) are exact rationals [Q] here.
    - The work units run concurrently in the source, and an [async] function
      runs without interruption from one [await] to the next.  A monadic
      definition describes a call that runs to completion with no other call
      in between.  The resolvers are written as the composition of their
      uninterrupted stretches (cache check, awaited lookup, continuation), so
      that calls whose stretches alternate can be written down as well. *)

From Stdlib Require Import String Ascii List ZArith QArith Qround Lia Lqa.
From stdpp Require Import gmap strings list pretty.

Open Scope string_scope.
Open Scope list_scope.

(** ** Configuration (lines 37-44) *)

Definition CONCURRENCY_LIMIT : nat := 10.
Definition MAX_RETRIES : nat := 5.
Definition INITIAL_RETRY_DELAY : Z := 1000.
Definition OUTPUT_FILE : string := "sso-assignments.csv".

(** ** Data model *)

(** The two values of [assignmentType]. *)
Inductive AssignmentType := USER | GROUP.

(** [interface AdminAssignment] (lines 48-55); [groupName?] is optional. *)
Record AdminAssignment := mkAdminAssignment {
  accountNumber : string;
  accountName : string;
  username : string;
  permissionSetName : string;
  assignmentType : AssignmentType;
  groupName : option string
}.

(** Errors thrown by the SDK clients: the program reads [error.name] and
    [error.$metadata?.httpStatusCode]. *)
Record Metadata := mkMetadata { httpStatusCode : option Z }.

Record JsError := mkJsError {
  name : string;
  message : string;
  metadata : option Metadata
}.

(** [new Error(msg)] *)
Definition newError (msg : string) : JsError :=
  {| name := "Error"; message := msg; metadata := None |}.

(** A settled promise of a remote call. *)
Inductive Reply (A : Type) :=
| Resolved (output : A)
| Rejected (error : JsError).
Arguments Resolved {A} output.
Arguments Rejected {A} error.

(** *** Requests and outputs of the four remote commands the core uses *)

Record ListAccountAssignmentsInput := mkListAccountAssignmentsInput {
  laa_InstanceArn : string;
  laa_AccountId : string;
  laa_PermissionSetArn : string;
  laa_NextToken : option string
}.

Record AccountAssignment := mkAccountAssignment {
  PrincipalId : option string;
  PrincipalType : option string
}.

Record ListAccountAssignmentsOutput := mkListAccountAssignmentsOutput {
  AccountAssignments : option (list AccountAssignment);
  laa_out_NextToken : option string
}.

Record DescribeUserInput := mkDescribeUserInput {
  du_IdentityStoreId : string;
  du_UserId : string
}.

Record DescribeUserOutput := mkDescribeUserOutput {
  UserName : option string
}.

Record DescribeGroupInput := mkDescribeGroupInput {
  dg_IdentityStoreId : string;
  dg_GroupId : string
}.

Record DescribeGroupOutput := mkDescribeGroupOutput {
  DisplayName : option string
}.

Record ListGroupMembershipsInput := mkListGroupMembershipsInput {
  lgm_IdentityStoreId : string;
  lgm_GroupId : string;
  lgm_NextToken : option string
}.

(** [membership.MemberId?.UserId] *)
Record MemberId := mkMemberId { UserId : option string }.
Record GroupMembership := mkGroupMembership { gm_MemberId : option MemberId }.

Record ListGroupMembershipsOutput := mkListGroupMembershipsOutput {
  GroupMemberships : option (list GroupMembership);
  lgm_out_NextToken : option string
}.

(** The environment the program runs in: the remote directory service (a
    state and one transition per command) and the stream of values that
    successive calls of [Math.random()] return. *)
Record Environment := mkEnvironment {
  World : Type;
  listAccountAssignments :
    World -> ListAccountAssignmentsInput -> Reply ListAccountAssignmentsOutput * World;
  describeUser : World -> DescribeUserInput -> Reply DescribeUserOutput * World;
  describeGroup : World -> DescribeGroupInput -> Reply DescribeGroupOutput * World;
  listGroupMemberships :
    World -> ListGroupMembershipsInput -> Reply ListGroupMembershipsOutput * World;
  mathRandom : nat -> Q
}.

(** One entry of the record of remote calls: the request and how it settled. *)
Inductive Call :=
| CallListAccountAssignments (i : ListAccountAssignmentsInput) (r : Reply ListAccountAssignmentsOutput)
| CallDescribeUser (i : DescribeUserInput) (r : Reply DescribeUserOutput)
| CallDescribeGroup (i : DescribeGroupInput) (r : Reply DescribeGroupOutput)
| CallListGroupMemberships (i : ListGroupMembershipsInput) (r : Reply ListGroupMembershipsOutput).

Inductive LogType := info | success | warning.

(** JavaScript truthiness of [string | undefined]. *)
Definition truthy (v : option string) : bool :=
  match v with
  | Some s => negb (String.eqb s EmptyString)
  | None => false
  end.

(** [a || b] for an optional string [a] and a string [b]. *)
Definition orElse (a : option string) (b : string) : string :=
  match a with
  | Some s => if String.eqb s EmptyString then b else s
  | None => b
  end.

(** How a computation completes. *)
Inductive Completion (A : Type) :=
| Normal (value : A)
| Throws (error : JsError)
| OutOfFuel.
Arguments Normal {A} value.
Arguments Throws {A} error.
Arguments OutOfFuel {A}.

Section Program.

Context {env : Environment}.

(** ** Program state *)

Record State := mkState {
  world : World env;
  calls : list Call;                         (* remote calls issued, oldest first *)
  randomDraws : nat;                         (* number of [Math.random()] calls so far *)
  userCache : gmap string string;
  groupCache : gmap string string;
  groupMembersCache : gmap string (list string);
  globalLogger : bool;                       (* [false] is [null] *)
  loggerCalls : list (string * LogType);     (* messages handed to [globalLogger] *)
  timeouts : list Q;                         (* delays passed to [setTimeout], in ms *)
  consoleErrors : list (string * JsError)    (* [console.error] output *)
}.

(** ** The monad: state, exceptions and fuel *)

Definition M (A : Type) : Type := State -> Completion A * State.

Definition ret {A} (a : A) : M A := fun s => (Normal a, s).

Definition bind {A B} (m : M A) (k : A -> M B) : M B :=
  fun s =>
    match m s with
    | (Normal a, s') => k a s'
    | (Throws e, s') => (Throws e, s')
    | (OutOfFuel, s') => (OutOfFuel, s')
    end.

Definition throw {A} (e : JsError) : M A := fun s => (Throws e, s).

Definition outOfFuel {A} : M A := fun s => (OutOfFuel, s).

(** [try { v = await m } catch (error) { ... }], reified: the result says
    whether [m] returned or threw.  Fuel exhaustion is not an exception. *)
Definition attempt {A} (m : M A) : M (JsError + A) :=
  fun s =>
    match m s with
    | (Normal a, s') => (Normal (inr a), s')
    | (Throws e, s') => (Normal (inl e), s')
    | (OutOfFuel, s') => (OutOfFuel, s')
    end.

Definition when (b : bool) (m : M unit) : M unit := if b then m else ret tt.

End Program.

Arguments State : clear implicits.
Arguments M : clear implicits.

Declare Scope prog_scope.
Delimit Scope prog_scope with prog.
Notation "x <- c ;; k" := (bind c (fun x => k))
  (at level 100, c at next level, right associativity) : prog_scope.
Notation "c ;;; k" := (bind c (fun _ => k))
  (at level 100, right associativity) : prog_scope.
Open Scope prog_scope.

Section Effects.

Context {env : Environment}.

(** [for (const x of xs) { acc = body(acc, x) }] *)
Fixpoint forOf {A B} (body : B -> A -> M env B) (xs : list A) (acc : B) : M env B :=
  match xs with
  | [] => ret acc
  | x :: xs' => acc' <- body acc x ;; forOf body xs' acc'
  end.

(** *** Primitive effects *)

Definition settle {A} (r : Reply A) : Completion A :=
  match r with
  | Resolved o => Normal o
  | Rejected e => Throws e
  end.

(** A remote call steps the world and is recorded in [calls]. *)
Definition remoteCall (w : World env) (c : Call) (s : State env) : State env :=
  {| world := w; calls := calls s ++ [c]; randomDraws := randomDraws s;
     userCache := userCache s; groupCache := groupCache s;
     groupMembersCache := groupMembersCache s; globalLogger := globalLogger s;
     loggerCalls := loggerCalls s; timeouts := timeouts s;
     consoleErrors := consoleErrors s |}.

(** [ssoAdminClient.send(new ListAccountAssignmentsCommand(i))] *)
Definition sendListAccountAssignments (i : ListAccountAssignmentsInput)
  : M env ListAccountAssignmentsOutput :=
  fun s =>
    let '(r, w) := listAccountAssignments env (world s) i in
    (settle r, remoteCall w (CallListAccountAssignments i r) s).

(** [identityStoreClient.send(new DescribeUserCommand(i))] *)
Definition sendDescribeUser (i : DescribeUserInput) : M env DescribeUserOutput :=
  fun s =>
    let '(r, w) := describeUser env (world s) i in
    (settle r, remoteCall w (CallDescribeUser i r) s).

(** [identityStoreClient.send(new DescribeGroupCommand(i))] *)
Definition sendDescribeGroup (i : DescribeGroupInput) : M env DescribeGroupOutput :=
  fun s =>
    let '(r, w) := describeGroup env (world s) i in
    (settle r, remoteCall w (CallDescribeGroup i r) s).

(** [identityStoreClient.send(new ListGroupMembershipsCommand(i))] *)
Definition sendListGroupMemberships (i : ListGroupMembershipsInput)
  : M env ListGroupMembershipsOutput :=
  fun s =>
    let '(r, w) := listGroupMemberships env (world s) i in
    (settle r, remoteCall w (CallListGroupMemberships i r) s).

(** [Math.random()] *)
Definition Math_random : M env Q :=
  fun s =>
    (Normal (mathRandom env (randomDraws s)),
     {| world := world s; calls := calls s; randomDraws := S (randomDraws s);
        userCache := userCache s; groupCache := groupCache s;
        groupMembersCache := groupMembersCache s; globalLogger := globalLogger s;
        loggerCalls := loggerCalls s; timeouts := timeouts s;
        consoleErrors := consoleErrors s |}).

(** [if (globalLogger) { globalLogger(message, type) }] *)
Definition callGlobalLogger (msg : string) (type : LogType) : M env unit :=
  fun s =>
    if globalLogger s then
      (Normal tt,
       {| world := world s; calls := calls s; randomDraws := randomDraws s;
          userCache := userCache s; groupCache := groupCache s;
          groupMembersCache := groupMembersCache s; globalLogger := globalLogger s;
          loggerCalls := loggerCalls s ++ [(msg, type)]; timeouts := timeouts s;
          consoleErrors := consoleErrors s |})
    else (Normal tt, s).

(** [await new Promise((resolve) => setTimeout(resolve, delay))] *)
Definition setTimeout (delay : Q) : M env unit :=
  fun s =>
    (Normal tt,
     {| world := world s; calls := calls s; randomDraws := randomDraws s;
        userCache := userCache s; groupCache := groupCache s;
        groupMembersCache := groupMembersCache s; globalLogger := globalLogger s;
        loggerCalls := loggerCalls s; timeouts := timeouts s ++ [delay];
        consoleErrors := consoleErrors s |}).

(** [console.error(msg, error)] *)
Definition console_error (msg : string) (error : JsError) : M env unit :=
  fun s =>
    (Normal tt,
     {| world := world s; calls := calls s; randomDraws := randomDraws s;
        userCache := userCache s; groupCache := groupCache s;
        groupMembersCache := groupMembersCache s; globalLogger := globalLogger s;
        loggerCalls := loggerCalls s; timeouts := timeouts s;
        consoleErrors := consoleErrors s ++ [(msg, error)] |}).

(** [userCache.has(k) ? userCache.get(k) : undefined] *)
Definition userCache_get (k : string) : M env (option string) :=
  fun s => (Normal (userCache s !! k), s).

(** [userCache.set(k, v)] *)
Definition userCache_set (k v : string) : M env unit :=
  fun s =>
    (Normal tt,
     {| world := world s; calls := calls s; randomDraws := randomDraws s;
        userCache := <[k := v]> (userCache s); groupCache := groupCache s;
        groupMembersCache := groupMembersCache s; globalLogger := globalLogger s;
        loggerCalls := loggerCalls s; timeouts := timeouts s;
        consoleErrors := consoleErrors s |}).

Definition groupCache_get (k : string) : M env (option string) :=
  fun s => (Normal (groupCache s !! k), s).

Definition groupCache_set (k v : string) : M env unit :=
  fun s =>
    (Normal tt,
     {| world := world s; calls := calls s; randomDraws := randomDraws s;
        userCache := userCache s; groupCache := <[k := v]> (groupCache s);
        groupMembersCache := groupMembersCache s; globalLogger := globalLogger s;
        loggerCalls := loggerCalls s; timeouts := timeouts s;
        consoleErrors := consoleErrors s |}).

Definition groupMembersCache_get (k : string) : M env (option (list string)) :=
  fun s => (Normal (groupMembersCache s !! k), s).

Definition groupMembersCache_set (k : string) (v : list string) : M env unit :=
  fun s =>
    (Normal tt,
     {| world := world s; calls := calls s; randomDraws := randomDraws s;
        userCache := userCache s; groupCache := groupCache s;
        groupMembersCache := <[k := v]> (groupMembersCache s);
        globalLogger := globalLogger s;
        loggerCalls := loggerCalls s; timeouts := timeouts s;
        consoleErrors := consoleErrors s |}).

(** ** The retry governor: [retryWithBackoff] (lines 66-104) *)

Definition isRateLimitError (error : JsError) : bool :=
  String.eqb (name error) "TooManyRequestsException"
  || String.eqb (name error) "ThrottlingException"
  || match metadata error with
     | Some md =>
         match httpStatusCode md with
         | Some code => Z.eqb code 429
         | None => false
         end
     | None => false
     end.

(** [INITIAL_RETRY_DELAY * Math.pow(2, attempt)] *)
Definition exponentialDelay (attempt : nat) : Z :=
  INITIAL_RETRY_DELAY * 2 ^ Z.of_nat attempt.

(** [Math.round(x)]: the nearest integer, halves going up. *)
Definition Math_round (x : Q) : Z := Qfloor (x + (1 # 2))%Q.

(** The warning of lines 91-93. *)
Definition retryMessage (operationName : string) (delay : Q) (attempt retries : nat)
  : string :=
  "Rate limit: " +:+ operationName +:+ ". Retry in "
  +:+ pretty (Math_round (delay / 1000)%Q) +:+ "s ("
  +:+ pretty (attempt + 1)%nat +:+ "/" +:+ pretty retries +:+ ")".

(** Lines 87-89: [delay = exponentialDelay + jitter] with
    [jitter = Math.random() * 1000]; [rnd] is the value [Math.random()]
    returned. *)
Definition backoffDelay (attempt_ : nat) (rnd : Q) : Q :=
  let jitter := (rnd * 1000)%Q in
  (inject_Z (exponentialDelay attempt_) + jitter)%Q.

(** Lines 85-99: compute the delay, warn through the logger, sleep. *)
Definition backoff (operationName : string) (attempt_ retries : nat) : M env unit :=
  rnd <- Math_random ;;
  let delay := backoffDelay attempt_ rnd in
  callGlobalLogger (retryMessage operationName delay attempt_ retries) warning ;;;
  setTimeout delay.

(** The [for] loop of line 71.  [attempt_] is the loop variable [attempt];
    [remaining] is the number of iterations left, [retries + 1 - attempt]:
    when it reaches zero the loop condition [attempt <= retries] is false and
    line 103 runs. *)
Fixpoint retryLoop {A} (remaining : nat) (attempt_ : nat) (operation : M env A)
    (operationName : string) (retries : nat) : M env A :=
  match remaining with
  | O => throw (newError ("Failed after " +:+ pretty retries +:+ " retries"))
  | S remaining' =>
      r <- attempt operation ;;
      match r with
      | inr v => ret v
      | inl error =>
          if negb (isRateLimitError error) || Nat.eqb attempt_ retries then
            throw error
          else
            backoff operationName attempt_ retries ;;;
            retryLoop remaining' (S attempt_) operation operationName retries
      end
  end.

Definition retryWithBackoff {A} (operation : M env A) (operationName : string)
    (retries : nat) : M env A :=
  retryLoop (S retries) 0 operation operationName retries.

End Effects.

(** ** The resolution caches and their resolvers *)

Section Resolvers.

Context {env : Environment}.

Definition ResourceNotFoundException : string := "ResourceNotFoundException".

(** *** [getUserName] (lines 186-224)

    The function suspends once, on the call it awaits.  It is written here as
    the three stretches that run without suspension: the cache check
    ([userCache_get]), the awaited call ([describeUserWithRetry]) and what
    runs when that call has settled ([getUserName_settled]). *)

(** Lines 197-206. *)
Definition describeUserWithRetry (identityStoreId userId : string)
  : M env DescribeUserOutput :=
  retryWithBackoff
    (sendDescribeUser {| du_IdentityStoreId := identityStoreId; du_UserId := userId |})
    ("DescribeUser(" +:+ String.substring 0 8 userId +:+ "...)")
    MAX_RETRIES.

(** Lines 208-210 when the call returned, lines 211-223 when it threw. *)
Definition getUserName_settled (userId : string) (r : JsError + DescribeUserOutput)
  : M env string :=
  match r with
  | inr response =>
      let userName := orElse (UserName response) userId in
      userCache_set userId userName ;;;
      ret userName
  | inl error =>
      let result :=
        if String.eqb (name error) ResourceNotFoundException
        then "[Deleted User: " +:+ userId +:+ "]"
        else userId in
      when (negb (String.eqb (name error) ResourceNotFoundException))
           (console_error ("Error fetching user " +:+ userId +:+ ":") error) ;;;
      userCache_set userId result ;;;
      ret result
  end.

Definition getUserName (identityStoreId userId : string) : M env string :=
  cached <- userCache_get userId ;;
  match cached with
  | Some v => ret v
  | None =>
      r <- attempt (describeUserWithRetry identityStoreId userId) ;;
      getUserName_settled userId r
  end.

(** *** [getGroupName] (lines 226-264) *)

Definition describeGroupWithRetry (identityStoreId groupId : string)
  : M env DescribeGroupOutput :=
  retryWithBackoff
    (sendDescribeGroup {| dg_IdentityStoreId := identityStoreId; dg_GroupId := groupId |})
    ("DescribeGroup(" +:+ String.substring 0 8 groupId +:+ "...)")
    MAX_RETRIES.

Definition getGroupName_settled (groupId : string) (r : JsError + DescribeGroupOutput)
  : M env string :=
  match r with
  | inr response =>
      let groupName := orElse (DisplayName response) groupId in
      groupCache_set groupId groupName ;;;
      ret groupName
  | inl error =>
      let result :=
        if String.eqb (name error) ResourceNotFoundException
        then "[Deleted Group: " +:+ groupId +:+ "]"
        else groupId in
      when (negb (String.eqb (name error) ResourceNotFoundException))
           (console_error ("Error fetching group " +:+ groupId +:+ ":") error) ;;;
      groupCache_set groupId result ;;;
      ret result
  end.

Definition getGroupName (identityStoreId groupId : string) : M env string :=
  cached <- groupCache_get groupId ;;
  match cached with
  | Some v => ret v
  | None =>
      r <- attempt (describeGroupWithRetry identityStoreId groupId) ;;
      getGroupName_settled groupId r
  end.

(** *** [getGroupMembers] (lines 266-308) *)

(** Lines 289-295: the user ids of one page. *)
Definition memberUserIds (response : ListGroupMembershipsOutput) : list string :=
  match GroupMemberships response with
  | Some memberships =>
      flat_map
        (fun membership =>
           match gm_MemberId membership with
           | Some mid =>
               match UserId mid with
               | Some u => if String.eqb u EmptyString then [] else [u]
               | None => []
               end
           | None => []
           end)
        memberships
  | None => []
  end.

(** The [do ... while (nextToken)] loop of lines 280-298 inside its [try].
    [members] is a local array that outlives the [try] block, so the loop
    hands it back together with the error that ended it, if any. *)
Fixpoint listGroupMembershipsLoop (fuel : nat) (identityStoreId groupId : string)
    (members : list string) (nextToken : option string)
  : M env (list string * option JsError) :=
  match fuel with
  | O => outOfFuel
  | S fuel' =>
      r <- attempt (sendListGroupMemberships
                      {| lgm_IdentityStoreId := identityStoreId;
                         lgm_GroupId := groupId;
                         lgm_NextToken := nextToken |}) ;;
      match r with
      | inl error => ret (members, Some error)
      | inr response =>
          let members' := members ++ memberUserIds response in
          let nextToken' := lgm_out_NextToken response in
          if truthy nextToken'
          then listGroupMembershipsLoop fuel' identityStoreId groupId members' nextToken'
          else ret (members', None)
      end
  end.

(** Lines 299-307: the [catch] block, the cache write and the return. *)
Definition getGroupMembers_settled (groupId : string)
    (r : list string * option JsError) : M env (list string) :=
  let '(members, thrown) := r in
  match thrown with
  | Some error =>
      when (negb (String.eqb (name error) ResourceNotFoundException))
           (console_error ("Error fetching group members for " +:+ groupId +:+ ":") error)
  | None => ret tt
  end ;;;
  groupMembersCache_set groupId members ;;;
  ret members.

Definition getGroupMembers (fuel : nat) (identityStoreId groupId : string)
  : M env (list string) :=
  cached <- groupMembersCache_get groupId ;;
  match cached with
  | Some v => ret v
  | None =>
      r <- listGroupMembershipsLoop fuel identityStoreId groupId [] None ;;
      getGroupMembers_settled groupId r
  end.

(** ** [getAssignments] (lines 310-391) *)

(** Lines 367-382: one row per member of the group. *)
Definition pushMemberRow (identityStoreId accountId permissionSetName groupName : string)
    (assignments : list AdminAssignment) (memberId : string)
  : M env (list AdminAssignment) :=
  username <- getUserName identityStoreId memberId ;;
  ret (assignments ++
       [ {| accountNumber := accountId; accountName := EmptyString;
            username := username; permissionSetName := permissionSetName;
            assignmentType := GROUP; groupName := Some groupName |} ]).

(** Lines 338-383: the body of the loop over one page of references. *)
Definition processAssignment (fuel : nat)
    (identityStoreId accountId permissionSetName : string)
    (assignments : list AdminAssignment) (assignment : AccountAssignment)
  : M env (list AdminAssignment) :=
  match PrincipalId assignment, PrincipalType assignment with
  | Some principalId, Some principalType =>
      if String.eqb principalId EmptyString || String.eqb principalType EmptyString
      then ret assignments
      else if String.eqb principalType "USER" then
        username <- getUserName identityStoreId principalId ;;
        ret (assignments ++
             [ {| accountNumber := accountId; accountName := EmptyString;
                  username := username; permissionSetName := permissionSetName;
                  assignmentType := USER; groupName := None |} ])
      else if String.eqb principalType "GROUP" then
        groupName <- getGroupName identityStoreId principalId ;;
        members <- getGroupMembers fuel identityStoreId principalId ;;
        forOf (pushMemberRow identityStoreId accountId permissionSetName groupName)
              members assignments
      else ret assignments
  | _, _ => ret assignments
  end.

(** The [do ... while (nextToken)] loop of lines 322-388. *)
Fixpoint getAssignmentsLoop (fuel : nat)
    (instanceArn identityStoreId accountId permissionSetArn permissionSetName : string)
    (assignments : list AdminAssignment) (nextToken : option string)
  : M env (list AdminAssignment) :=
  match fuel with
  | O => outOfFuel
  | S fuel' =>
      response <-
        retryWithBackoff
          (sendListAccountAssignments
             {| laa_InstanceArn := instanceArn; laa_AccountId := accountId;
                laa_PermissionSetArn := permissionSetArn; laa_NextToken := nextToken |})
          ("ListAccountAssignments(" +:+ accountId +:+ ")")
          MAX_RETRIES ;;
      assignments' <-
        match AccountAssignments response with
        | Some page =>
            forOf (processAssignment fuel identityStoreId accountId permissionSetName)
                  page assignments
        | None => ret assignments
        end ;;
      let nextToken' := laa_out_NextToken response in
      if truthy nextToken'
      then getAssignmentsLoop fuel' instanceArn identityStoreId accountId
             permissionSetArn permissionSetName assignments' nextToken'
      else ret assignments'
  end.

Definition getAssignments (fuel : nat)
    (instanceArn identityStoreId accountId permissionSetArn permissionSetName : string)
  : M env (list AdminAssignment) :=
  getAssignmentsLoop fuel instanceArn identityStoreId accountId
    permissionSetArn permissionSetName [] None.

End Resolvers.

(** ** Calls in flight

    The work units run concurrently, so a resolver can be called while
    another call of it is suspended on its lookup.  A call in flight is
    either not started, or suspended with the outcome its lookup will have,
    or returned.  One step of a call is one stretch that runs without
    interruption: from the call to the first [await] (the cache check and, on
    a miss, the request), then from the settled lookup to the [return].  The
    lookup itself may suspend again (retries, further pages); it reads and
    writes no cache, and the service fixes its replies as the requests
    arrive, so it is run as part of the first step. *)

Inductive Stage (R V : Type) :=
| NotStarted
| Pending (r : R)
| Returned (v : V).
Arguments NotStarted {R V}.
Arguments Pending {R V} r.
Arguments Returned {R V} v.

Inductive Resolution :=
| UserNameCall (userId : string) (st : Stage (JsError + DescribeUserOutput) string)
| GroupNameCall (groupId : string) (st : Stage (JsError + DescribeGroupOutput) string)
| GroupMembersCall (groupId : string)
    (st : Stage (list string * option JsError) (list string)).

Section InFlight.

Context {env : Environment}.

Definition stepResolution (fuel : nat) (identityStoreId : string) (c : Resolution)
  : M env Resolution :=
  match c with
  | UserNameCall userId NotStarted =>
      cached <- userCache_get userId ;;
      match cached with
      | Some v => ret (UserNameCall userId (Returned v))
      | None =>
          r <- attempt (describeUserWithRetry identityStoreId userId) ;;
          ret (UserNameCall userId (Pending r))
      end
  | UserNameCall userId (Pending r) =>
      v <- getUserName_settled userId r ;;
      ret (UserNameCall userId (Returned v))
  | GroupNameCall groupId NotStarted =>
      cached <- groupCache_get groupId ;;
      match cached with
      | Some v => ret (GroupNameCall groupId (Returned v))
      | None =>
          r <- attempt (describeGroupWithRetry identityStoreId groupId) ;;
          ret (GroupNameCall groupId (Pending r))
      end
  | GroupNameCall groupId (Pending r) =>
      v <- getGroupName_settled groupId r ;;
      ret (GroupNameCall groupId (Returned v))
  | GroupMembersCall groupId NotStarted =>
      cached <- groupMembersCache_get groupId ;;
      match cached with
      | Some v => ret (GroupMembersCall groupId (Returned v))
      | None =>
          r <- listGroupMembershipsLoop fuel identityStoreId groupId [] None ;;
          ret (GroupMembersCall groupId (Pending r))
      end
  | GroupMembersCall groupId (Pending r) =>
      v <- getGroupMembers_settled groupId r ;;
      ret (GroupMembersCall groupId (Returned v))
  | UserNameCall _ (Returned _)
  | GroupNameCall _ (Returned _)
  | GroupMembersCall _ (Returned _) => ret c
  end.

(** The calls of [pool] advanced in the order [schedule] gives: each entry
    is the index of the call that runs its next stretch. *)
Fixpoint runSchedule (fuel : nat) (identityStoreId : string) (schedule : list nat)
    (pool : list Resolution) : M env (list Resolution) :=
  match schedule with
  | [] => ret pool
  | i :: schedule' =>
      match pool !! i with
      | Some c =>
          c' <- stepResolution fuel identityStoreId c ;;
          runSchedule fuel identityStoreId schedule' (<[i := c']> pool)
      | None => runSchedule fuel identityStoreId schedule' pool
      end
  end.

End InFlight.

(** ** [main]: tasks, aggregation and the CSV report *)

(** A JavaScript [Map] with string keys: its entries in insertion order.
    [set] on a key that is present replaces the value where it stands. *)
Definition JsMap (V : Type) : Type := list (string * V).

Definition jsmap_has {V} (k : string) (m : JsMap V) : bool :=
  existsb (fun kv => String.eqb (fst kv) k) m.

Fixpoint jsmap_alter {V} (f : V -> V) (k : string) (m : JsMap V) : JsMap V :=
  match m with
  | [] => []
  | (k', v) :: m' =>
      if String.eqb k' k then (k', f v) :: m' else (k', v) :: jsmap_alter f k m'
  end.

Definition jsmap_set {V} (k : string) (v : V) (m : JsMap V) : JsMap V :=
  if jsmap_has k m then jsmap_alter (fun _ => v) k m else m ++ [(k, v)].

(** [[...m.values()]] *)
Definition jsmap_values {V} (m : JsMap V) : list V := map snd m.

(** The elements of [allTasks] (lines 521-526). *)
Record Task := mkTask {
  task_accountId : string;
  task_accountName : string;
  task_permissionSetArn : string;
  task_permissionSetName : string
}.

(** Lines 528-537. *)
Definition allTasks (accounts allPermissionSets : JsMap string) : list Task :=
  flat_map
    (fun account =>
       map (fun permissionSet =>
              {| task_accountId := fst account; task_accountName := snd account;
                 task_permissionSetArn := fst permissionSet;
                 task_permissionSetName := snd permissionSet |})
           allPermissionSets)
    accounts.

(** [assignment.accountName = task.accountName] (line 567) *)
Definition setAccountName (accountName' : string) (a : AdminAssignment) : AdminAssignment :=
  {| accountNumber := accountNumber a; accountName := accountName';
     username := username a; permissionSetName := permissionSetName a;
     assignmentType := assignmentType a; groupName := groupName a |}.

(** The job of one task (lines 544-599), without the progress display. *)
Definition runTask {env : Environment} (fuel : nat) (instanceArn identityStoreId : string)
    (task : Task) : M env (Task * list AdminAssignment) :=
  assignments <-
    getAssignments fuel instanceArn identityStoreId (task_accountId task)
      (task_permissionSetArn task) (task_permissionSetName task) ;;
  ret (task, map (setAccountName (task_accountName task)) assignments).

(** One iteration of the loop of lines 606-611. *)
Definition groupResult (accountMap : JsMap (list AdminAssignment))
    (result : Task * list AdminAssignment) : JsMap (list AdminAssignment) :=
  let '(task, assignments) := result in
  let accountMap' :=
    if negb (jsmap_has (task_accountId task) accountMap)
    then jsmap_set (task_accountId task) [] accountMap
    else accountMap in
  jsmap_alter (fun rows => rows ++ assignments) (task_accountId task) accountMap'.

(** Lines 605-616: group the results by account, then flatten. *)
Definition aggregate (allTaskResults : list (Task * list AdminAssignment))
  : list AdminAssignment :=
  let accountMap := fold_left groupResult allTaskResults [] in
  concat (jsmap_values accountMap).

(** *** CSV (lines 626-648) *)

Definition COMMA : ascii := ","%char.
Definition DQUOTE : ascii := "034"%char.
Definition LF : ascii := "010"%char.

(** [value.includes(c)] for a one-character [c] *)
Fixpoint includes (c : ascii) (value : string) : bool :=
  match value with
  | EmptyString => false
  | String c' rest => Ascii.eqb c' c || includes c rest
  end.

(** [value.replace] with the global pattern matching a double quote and a
    replacement of two double quotes. *)
Fixpoint doubleQuotes (value : string) : string :=
  match value with
  | EmptyString => EmptyString
  | String c rest =>
      if Ascii.eqb c DQUOTE
      then String DQUOTE (String DQUOTE (doubleQuotes rest))
      else String c (doubleQuotes rest)
  end.

Definition escapeCsv (value : string) : string :=
  if includes COMMA value || includes DQUOTE value || includes LF value
  then String DQUOTE (doubleQuotes value) +:+ String DQUOTE EmptyString
  else value.

Definition csvHeader : string :=
  "Account Number,Account Name,Username,Permission Set,Group".

(** [assignment.groupName || empty] *)
Definition groupField (a : AdminAssignment) : string :=
  orElse (groupName a) EmptyString.

(** The five values of a row, before escaping. *)
Definition rowValues (a : AdminAssignment) : list string :=
  [accountNumber a; accountName a; username a; permissionSetName a; groupField a].

(** Lines 637-645. *)
Definition csvLine (a : AdminAssignment) : string :=
  String.concat (String COMMA EmptyString) (map escapeCsv (rowValues a)).

Definition csvLines (allAssignments : list AdminAssignment) : list string :=
  csvHeader :: map csvLine allAssignments.

(** Line 648. *)
Definition csvContent (allAssignments : list AdminAssignment) : string :=
  String.concat (String LF EmptyString) (csvLines allAssignments).

(** *** A reference CSV reader

    The reader the round-trip property is stated against: fields separated
    by commas; a field that starts with a double quote runs to its closing
    quote, with doubled quotes standing for one and every other character,
    line breaks included, standing for itself; records separated by line
    breaks.  Readers differ in what they take for a line break outside
    quotes.  All take a line feed and the pair carriage return, line feed;
    [CrLfOrLf] stands for those that take nothing else, so that a carriage
    return not followed by a line feed is data, and [AnyLineBreak] for those
    that take a carriage return alone as well. *)

Definition CR : ascii := "013"%char.

Inductive Dialect := CrLfOrLf | AnyLineBreak.

(** [AfterCR]: a carriage return was read outside quotes, and the field and
    the record it may end are still open. *)
Inductive ReaderState := FieldStart | InUnquoted | InQuoted | AfterQuote | AfterCR.

Definition snoc (s : string) (c : ascii) : string := s +:+ String c EmptyString.

(** The state of a reader: where it is, the field and the record it is
    reading, the records it has read. *)
Definition Reader : Type := ReaderState * string * list string * list (list string).

(** A character outside quotes, after the field [field]. *)
Definition unquotedChar (field : string) (row : list string) (rows : list (list string))
    (c : ascii) : Reader :=
  if Ascii.eqb c COMMA then (FieldStart, EmptyString, row ++ [field], rows)
  else if Ascii.eqb c LF then (FieldStart, EmptyString, [], rows ++ [row ++ [field]])
  else if Ascii.eqb c CR then (AfterCR, field, row, rows)
  else (InUnquoted, snoc field c, row, rows).

(** A character at the start of a field. *)
Definition fieldStartChar (row : list string) (rows : list (list string)) (c : ascii)
  : Reader :=
  if Ascii.eqb c DQUOTE then (InQuoted, EmptyString, row, rows)
  else unquotedChar EmptyString row rows c.

Definition readChar (dialect : Dialect) (st : ReaderState) (field : string)
    (row : list string) (rows : list (list string)) (c : ascii) : Reader :=
  match st with
  | InQuoted =>
      if Ascii.eqb c DQUOTE then (AfterQuote, field, row, rows)
      else (InQuoted, snoc field c, row, rows)
  | AfterQuote =>
      if Ascii.eqb c DQUOTE then (InQuoted, snoc field c, row, rows)
      else unquotedChar field row rows c
  | FieldStart => fieldStartChar row rows c
  | InUnquoted => unquotedChar field row rows c
  | AfterCR =>
      if Ascii.eqb c LF then (FieldStart, EmptyString, [], rows ++ [row ++ [field]])
      else match dialect with
           | AnyLineBreak => fieldStartChar [] (rows ++ [row ++ [field]]) c
           | CrLfOrLf => unquotedChar (snoc field CR) row rows c
           end
  end.

Definition endOfInput (dialect : Dialect) (st : ReaderState) (field : string)
    (row : list string) (rows : list (list string)) : list (list string) :=
  match st, row with
  | FieldStart, [] => rows
  | AfterCR, _ =>
      match dialect with
      | AnyLineBreak => rows ++ [row ++ [field]]
      | CrLfOrLf => rows ++ [row ++ [snoc field CR]]
      end
  | _, _ => rows ++ [row ++ [field]]
  end.

Fixpoint readCsv (dialect : Dialect) (st : ReaderState) (field : string)
    (row : list string) (rows : list (list string)) (input : string)
  : list (list string) :=
  match input with
  | EmptyString => endOfInput dialect st field row rows
  | String c rest =>
      let '(st', field', row', rows') := readChar dialect st field row rows c in
      readCsv dialect st' field' row' rows' rest
  end.

Definition parseCsv (dialect : Dialect) (input : string) : list (list string) :=
  readCsv dialect FieldStart EmptyString [] [] input.

(** ** Scripted environments

    Concrete environments for examples: the world is the number of remote
    calls answered so far, and each reply is a function of that number and
    of the request. *)

Definition scripted
    (laa : nat -> ListAccountAssignmentsInput -> Reply ListAccountAssignmentsOutput)
    (du : nat -> DescribeUserInput -> Reply DescribeUserOutput)
    (dg : nat -> DescribeGroupInput -> Reply DescribeGroupOutput)
    (lgm : nat -> ListGroupMembershipsInput -> Reply ListGroupMembershipsOutput)
    (rnd : nat -> Q) : Environment :=
  {| World := nat;
     listAccountAssignments := fun n i => (laa n i, S n);
     describeUser := fun n i => (du n i, S n);
     describeGroup := fun n i => (dg n i, S n);
     listGroupMemberships := fun n i => (lgm n i, S n);
     mathRandom := rnd |}.

(** The state at the start of the fan-out: empty caches, logger installed. *)
Definition initialState (env : Environment) (w : World env) : State env :=
  {| world := w; calls := []; randomDraws := 0;
     userCache := ∅; groupCache := ∅; groupMembersCache := ∅;
     globalLogger := true; loggerCalls := []; timeouts := [];
     consoleErrors := [] |}.

Definition throttlingError : JsError :=
  {| name := "ThrottlingException"; message := "Rate exceeded";
     metadata := Some {| httpStatusCode := Some 429%Z |} |}.

Definition notFoundError : JsError :=
  {| name := "ResourceNotFoundException"; message := "Resource not found";
     metadata := Some {| httpStatusCode := Some 404%Z |} |}.

Definition accessDeniedError : JsError :=
  {| name := "AccessDeniedException"; message := "Access denied";
     metadata := Some {| httpStatusCode := Some 403%Z |} |}.

Definition internalError : JsError :=
  {| name := "InternalServerException"; message := "Internal failure";
     metadata := Some {| httpStatusCode := Some 500%Z |} |}.

Definition noPage : ListAccountAssignmentsOutput :=
  {| AccountAssignments := None; laa_out_NextToken := None |}.

Definition noMembers : ListGroupMembershipsOutput :=
  {| GroupMemberships := None; lgm_out_NextToken := None |}.

(** A [Math.random] that always returns one half. *)
Definition randomHalf : nat -> Q := fun _ => 1 # 2.

(** [value.includes(part)] for strings: used to inspect messages. *)
Fixpoint includesString (part value : string) : bool :=
  String.prefix part value
  || match value with
     | EmptyString => false
     | String _ rest => includesString part rest
     end.

(** ** Vocabulary of the properties *)

(** The delays slept from attempt [attempt_] on: the k-th is the base delay
    of attempt [attempt_ + k] plus a jitter in [0, 1000). *)
Definition backoffDelays (attempt_ : nat) (delays : list Q) : Prop :=
  forall k d, delays !! k = Some d ->
    exists jitter, (0 <= jitter)%Q /\ (jitter < 1000)%Q /\
      (d == inject_Z (INITIAL_RETRY_DELAY * 2 ^ Z.of_nat (attempt_ + k)) + jitter)%Q.

(** The warnings logged from attempt [attempt_] on: the k-th carries the
    operation name and the counter of attempt [attempt_ + k]. *)
Definition retryWarnings (operationName : string) (retries attempt_ : nat)
    (msgs : list (string * LogType)) : Prop :=
  forall k m, msgs !! k = Some m ->
    exists delay, m = (retryMessage operationName delay (attempt_ + k) retries, warning).

(** The message of [e] contains the operation name and the retry count. *)
Definition mentions (e : JsError) (operationName : string) (retries : nat) : bool :=
  includesString operationName (message e) && includesString (pretty retries) (message e).

(** The references on one page of assignments. *)
Definition pageRefs (response : ListAccountAssignmentsOutput) : list AccountAssignment :=
  match AccountAssignments response with
  | Some page => page
  | None => []
  end.

(** The references listed by the successful [ListAccountAssignments] calls of
    a record of remote calls, in the order they were listed. *)
Definition assignmentRefs (trace : list Call) : list AccountAssignment :=
  flat_map
    (fun c =>
       match c with
       | CallListAccountAssignments _ (Resolved response) => pageRefs response
       | _ => []
       end)
    trace.

Section Frames.
Context {env : Environment}.

(** The three caches are the same in [s'] as in [s]. *)
Definition sameCaches (s s' : State env) : Prop :=
  userCache s' = userCache s /\ groupCache s' = groupCache s /\
  groupMembersCache s' = groupMembersCache s.

(** Every entry of the three caches of [s] is in [s'], under the same key
    with the same value. *)
Definition cachesGrow (s s' : State env) : Prop :=
  userCache s ⊆ userCache s' /\ groupCache s ⊆ groupCache s' /\
  groupMembersCache s ⊆ groupMembersCache s'.

(** [s'] is reached from [s] by remote calls that list no assignments. *)
Definition noListing (s s' : State env) : Prop :=
  exists delta, calls s' = calls s ++ delta /\ assignmentRefs delta = [].

End Frames.

Section Settled.
Context {env : Environment}.

(** What a lookup through the retry governor leaves alone. *)
Definition lookupFrame (s s' : State env) : Prop :=
  sameCaches s s' /\ noListing s s' /\ consoleErrors s' = consoleErrors s.

End Settled.

(** The name [getUserName] settles on for a lookup that ended as [r]. *)
Definition settledUserName (userId : string) (r : JsError + DescribeUserOutput) : string :=
  match r with
  | inr response => orElse (UserName response) userId
  | inl error =>
      if String.eqb (name error) ResourceNotFoundException
      then "[Deleted User: " +:+ userId +:+ "]"
      else userId
  end.

(** The name [getGroupName] settles on for a lookup that ended as [r]. *)
Definition settledGroupName (groupId : string) (r : JsError + DescribeGroupOutput) : string :=
  match r with
  | inr response => orElse (DisplayName response) groupId
  | inl error =>
      if String.eqb (name error) ResourceNotFoundException
      then "[Deleted Group: " +:+ groupId +:+ "]"
      else groupId
  end.

Section Keys.
Context {env : Environment}.

(** Every key of the three caches of [s] is still a key in [s']. *)
Definition keepsKeys (s s' : State env) : Prop :=
  forall k,
    (is_Some (userCache s !! k) -> is_Some (userCache s' !! k)) /\
    (is_Some (groupCache s !! k) -> is_Some (groupCache s' !! k)) /\
    (is_Some (groupMembersCache s !! k) -> is_Some (groupMembersCache s' !! k)).

End Keys.

(** A reference the loop skips: no principal id or no principal type. *)
Definition isMalformed (a : AccountAssignment) : bool :=
  negb (truthy (PrincipalId a)) || negb (truthy (PrincipalType a)).

Definition hasType (t : string) (a : AccountAssignment) : bool :=
  negb (isMalformed a)
  && match PrincipalType a with
     | Some t' => String.eqb t' t
     | None => false
     end.

(** A direct USER assignment / a GROUP assignment. *)
Definition isUserRef (a : AccountAssignment) : bool := hasType "USER" a.
Definition isGroupRef (a : AccountAssignment) : bool := hasType "GROUP" a.

Definition principalIdOf (a : AccountAssignment) : string :=
  match PrincipalId a with
  | Some principalId => principalId
  | None => EmptyString
  end.

Section Expected.
Context {env : Environment}.

(** The members a group resolved to, as the group-members cache holds them. *)
Definition resolvedMembers (s : State env) (a : AccountAssignment) : list string :=
  default [] (groupMembersCache s !! principalIdOf a).

Definition resolvedUserName (s : State env) (userId : string) : string :=
  default EmptyString (userCache s !! userId).

Definition resolvedGroupName (s : State env) (groupId : string) : string :=
  default EmptyString (groupCache s !! groupId).

(** The rows one reference stands for, read off the caches of [s]. *)
Definition expectedRows (s : State env) (accountId permissionSetName : string)
    (a : AccountAssignment) : list AdminAssignment :=
  if isUserRef a then
    [ {| accountNumber := accountId; accountName := EmptyString;
         username := resolvedUserName s (principalIdOf a);
         permissionSetName := permissionSetName;
         assignmentType := USER; groupName := None |} ]
  else if isGroupRef a then
    map (fun memberId =>
           {| accountNumber := accountId; accountName := EmptyString;
              username := resolvedUserName s memberId;
              permissionSetName := permissionSetName;
              assignmentType := GROUP;
              groupName := Some (resolvedGroupName s (principalIdOf a)) |})
        (resolvedMembers s a)
  else [].

(** Everything [expectedRows] reads for [a] is in the caches of [s]. *)
Definition resolvedIn (s : State env) (a : AccountAssignment) : Prop :=
  (isUserRef a = true -> is_Some (userCache s !! principalIdOf a)) /\
  (isGroupRef a = true ->
     is_Some (groupCache s !! principalIdOf a) /\
     is_Some (groupMembersCache s !! principalIdOf a) /\
     Forall (fun m => is_Some (userCache s !! m)) (resolvedMembers s a)).

End Expected.

(** [m'] completes as [m] does whenever [m] does not run out of fuel. *)
Definition completesAs {env : Environment} {A : Type} (m m' : M env A) : Prop :=
  forall s r s', m s = (r, s') -> r <> OutOfFuel -> m' s = (r, s').

(** The value is written without quotes although it holds a carriage
    return. *)
Definition hasBareCR (value : string) : bool :=
  includes CR value
  && negb (includes COMMA value || includes DQUOTE value || includes LF value).

Definition csvHeaderFields : list string :=
  ["Account Number"; "Account Name"; "Username"; "Permission Set"; "Group"].

(** The text from the end of a field on: nothing, or a line feed and more. *)
Definition endsRecord (rest : string) : Prop :=
  rest = EmptyString \/ exists rest', rest = String LF rest'.

(** What the reader does once the last field [values] of a record is
    complete and [rest] follows. *)
Definition afterRecord (dialect : Dialect) (values : list string)
    (rows : list (list string)) (rest : string) : list (list string) :=
  match rest with
  | EmptyString => rows ++ [values]
  | String _ rest' => readCsv dialect FieldStart EmptyString [] (rows ++ [values]) rest'
  end.

(** The text after the header: each line preceded by a line feed. *)
Fixpoint csvBody (allAssignments : list AdminAssignment) : string :=
  match allAssignments with
  | [] => EmptyString
  | a :: rest => String LF (csvLine a +:+ csvBody rest)
  end.

(** ** Example environments and data *)

(** The first two lookups of a user are throttled, the third succeeds. *)
Definition envThrottleTwice : Environment :=
  scripted (fun _ _ => Resolved noPage)
    (fun n _ => if (n <? 2)%nat then Rejected throttlingError
                else Resolved {| UserName := Some "alice" |})
    (fun _ _ => Rejected notFoundError) (fun _ _ => Resolved noMembers) randomHalf.

(** Every remote call is throttled. *)
Definition envThrottled : Environment :=
  scripted (fun _ _ => Rejected throttlingError) (fun _ _ => Rejected throttlingError)
    (fun _ _ => Rejected throttlingError) (fun _ _ => Rejected throttlingError) randomHalf.

(** Every user and every group is reported as not found. *)
Definition envDeleted : Environment :=
  scripted (fun _ _ => Resolved noPage) (fun _ _ => Rejected notFoundError)
    (fun _ _ => Rejected notFoundError) (fun _ _ => Rejected notFoundError) randomHalf.

(** Every lookup is refused. *)
Definition envAccessDenied : Environment :=
  scripted (fun _ _ => Resolved noPage) (fun _ _ => Rejected accessDeniedError)
    (fun _ _ => Rejected accessDeniedError) (fun _ _ => Rejected accessDeniedError)
    randomHalf.

(** A page of memberships with the users u-1 and u-2. *)
Definition twoMembers : ListGroupMembershipsOutput :=
  {| GroupMemberships :=
       Some [ {| gm_MemberId := Some {| UserId := Some "u-1" |} |};
              {| gm_MemberId := Some {| UserId := Some "u-2" |} |} ];
     lgm_out_NextToken := None |}.

(** A user whose name is its id prefixed with [user-]. *)
Definition userNamed (id : string) : DescribeUserOutput :=
  {| UserName := Some ("user-" +:+ id) |}.

(** Group listing succeeds at once. *)
Definition envMembers : Environment :=
  scripted (fun _ _ => Resolved noPage) (fun _ i => Resolved (userNamed (du_UserId i)))
    (fun _ _ => Resolved {| DisplayName := Some "Devs" |})
    (fun _ _ => Resolved twoMembers) randomHalf.

(** The first remote call is throttled, every later one succeeds. *)
Definition envThrottledOnce : Environment :=
  scripted (fun _ _ => Resolved noPage)
    (fun n i => if Nat.eqb n 0 then Rejected throttlingError
                else Resolved (userNamed (du_UserId i)))
    (fun _ _ => Resolved {| DisplayName := Some "Devs" |})
    (fun n _ => if Nat.eqb n 0 then Rejected throttlingError else Resolved twoMembers)
    randomHalf.

(** The first lookup of a user succeeds, the next one fails. *)
Definition envAliceThenFailure : Environment :=
  scripted (fun _ _ => Resolved noPage)
    (fun n _ => if Nat.eqb n 0 then Resolved {| UserName := Some "alice" |}
                else Rejected internalError)
    (fun _ _ => Resolved {| DisplayName := Some "Devs" |})
    (fun _ _ => Resolved noMembers) randomHalf.

(** A direct USER assignment and a GROUP assignment. *)
Definition userRef (id : string) : AccountAssignment :=
  {| PrincipalId := Some id; PrincipalType := Some "USER" |}.
Definition groupRef (id : string) : AccountAssignment :=
  {| PrincipalId := Some id; PrincipalType := Some "GROUP" |}.

(** Two pages of assignments: a user, a reference without principal id and
    a group on the first page, another user on the second; the group has
    two members. *)
Definition envTwoPages : Environment :=
  scripted
    (fun _ i =>
       match laa_NextToken i with
       | None =>
           Resolved {| AccountAssignments :=
                         Some [userRef "u-1";
                               {| PrincipalId := None; PrincipalType := Some "USER" |};
                               groupRef "g-1"];
                       laa_out_NextToken := Some "page-2" |}
       | Some _ =>
           Resolved {| AccountAssignments := Some [userRef "u-3"];
                       laa_out_NextToken := None |}
       end)
    (fun _ i => Resolved (userNamed (du_UserId i)))
    (fun _ _ => Resolved {| DisplayName := Some "Devs" |})
    (fun _ _ => Resolved twoMembers) randomHalf.

(** Two rows whose values need escaping: a comma, double quotes, a line feed. *)
Definition sampleRows : list AdminAssignment :=
  [ {| accountNumber := "111111111111"; accountName := "Prod, EU";
       username := "alice"; permissionSetName := "AdminAccess";
       assignmentType := USER; groupName := None |};
    {| accountNumber := "111111111111"; accountName := "Prod, EU";
       username := String DQUOTE "bob" +:+ String DQUOTE " jr";
       permissionSetName := "AdminAccess";
       assignmentType := GROUP; groupName := Some ("Devs" +:+ String LF "Ops") |} ].

(** Two rows of a group whose name ends in a carriage return. *)
Definition rowsWithCR : list AdminAssignment :=
  [ {| accountNumber := "111111111111"; accountName := "Prod";
       username := "alice"; permissionSetName := "AdminAccess";
       assignmentType := GROUP; groupName := Some ("Ops" +:+ String CR EmptyString) |};
    {| accountNumber := "111111111111"; accountName := "Prod";
       username := "bob"; permissionSetName := "AdminAccess";
       assignmentType := GROUP; groupName := Some ("Ops" +:+ String CR EmptyString) |} ].

(** A row whose group name holds a carriage return and a line feed. *)
Definition rowWithCrLf : AdminAssignment :=
  {| accountNumber := "111111111111"; accountName := "Prod, EU";
     username := "carol"; permissionSetName := "AdminAccess";
     assignmentType := GROUP;
     groupName := Some ("Devs" +:+ String CR (String LF "Ops")) |}.

(** Two accounts, two permission sets, and the results of their four tasks. *)
Definition sampleAccounts : JsMap string :=
  [("111111111111", "Prod"); ("222222222222", "Dev")].
Definition samplePermissionSets : JsMap string :=
  [("arn:ps-1", "AdminAccess"); ("arn:ps-2", "ReadOnly")].

Definition sampleRow (account user : string) : AdminAssignment :=
  {| accountNumber := account; accountName := EmptyString; username := user;
     permissionSetName := "AdminAccess"; assignmentType := USER; groupName := None |}.

Definition sampleResults : list (Task * list AdminAssignment) :=
  [ ({| task_accountId := "111111111111"; task_accountName := "Prod";
        task_permissionSetArn := "arn:ps-1"; task_permissionSetName := "AdminAccess" |},
     [sampleRow "111111111111" "alice"]);
    ({| task_accountId := "111111111111"; task_accountName := "Prod";
        task_permissionSetArn := "arn:ps-2"; task_permissionSetName := "ReadOnly" |},
     []);
    ({| task_accountId := "222222222222"; task_accountName := "Dev";
        task_permissionSetArn := "arn:ps-1"; task_permissionSetName := "AdminAccess" |},
     [sampleRow "222222222222" "bob"; sampleRow "222222222222" "carol"]);
    ({| task_accountId := "222222222222"; task_accountName := "Dev";
        task_permissionSetArn := "arn:ps-2"; task_permissionSetName := "ReadOnly" |},
     [sampleRow "222222222222" "dave"]) ].


(** One account, one permission set, one direct USER assignment. *)
Definition envOneUser : Environment :=
  scripted
    (fun _ _ => Resolved {| AccountAssignments := Some [userRef "u-1"];
                            laa_out_NextToken := None |})
    (fun _ _ => Resolved {| UserName := Some "alice" |})
    (fun _ _ => Rejected notFoundError)
    (fun _ _ => Rejected notFoundError) randomHalf.

(** One account, one permission set, one GROUP assignment with two members. *)
Definition envOneGroup : Environment :=
  scripted
    (fun _ _ => Resolved {| AccountAssignments := Some [groupRef "g-1"];
                            laa_out_NextToken := None |})
    (fun _ i => Resolved {| UserName :=
                              Some (if String.eqb (du_UserId i) "u-1" then "bob"
                                    else "carol") |})
    (fun _ _ => Resolved {| DisplayName := Some "Devs" |})
    (fun _ _ => Resolved twoMembers) randomHalf.

Definition prodAdmin : Task :=
  {| task_accountId := "111111111111"; task_accountName := "Prod";
     task_permissionSetArn := "arn:ps-1"; task_permissionSetName := "AdminAccess" |}.

(** The rows a task returned, none if it did not return. *)
Definition rowsOf {env : Environment}
    (run : Completion (Task * list AdminAssignment) * State env)
  : list AdminAssignment :=
  match fst run with
  | Normal (_, rows) => rows
  | _ => []
  end.

(** ** Start-up: accounts, instance and permission sets (lines 106-184)

    The three functions [main] awaits before the fan-out talk to AWS
    Organizations and to the SSO admin service.  They use no cache, no
    logger and no retry wrapper, so they are written over a state of their
    own: the world of those services and the record of the requests sent. *)

Record Account := mkAccount { acc_Id : option string; acc_Name : option string }.

Record ListAccountsOutput := mkListAccountsOutput {
  Accounts : option (list Account);
  la_out_NextToken : option string
}.

Record InstanceMetadata := mkInstanceMetadata {
  InstanceArn : option string;
  IdentityStoreId : option string
}.

Record ListInstancesOutput := mkListInstancesOutput {
  Instances : option (list InstanceMetadata)
}.

Record ListPermissionSetsInput := mkListPermissionSetsInput {
  lps_InstanceArn : string;
  lps_NextToken : option string
}.

Record ListPermissionSetsOutput := mkListPermissionSetsOutput {
  PermissionSets : option (list string);
  lps_out_NextToken : option string
}.

Record DescribePermissionSetInput := mkDescribePermissionSetInput {
  dps_InstanceArn : string;
  dps_PermissionSetArn : string
}.

Record PermissionSet := mkPermissionSet { ps_Name : option string }.

Record DescribePermissionSetOutput := mkDescribePermissionSetOutput {
  dps_out_PermissionSet : option PermissionSet
}.

(** The services of the start-up, as a transition system. *)
Record StartupEnvironment := mkStartupEnvironment {
  StartupWorld : Type;
  listAccounts : StartupWorld -> option string -> Reply ListAccountsOutput * StartupWorld;
  listInstances : StartupWorld -> Reply ListInstancesOutput * StartupWorld;
  listPermissionSets :
    StartupWorld -> ListPermissionSetsInput -> Reply ListPermissionSetsOutput * StartupWorld;
  describePermissionSet :
    StartupWorld -> DescribePermissionSetInput
    -> Reply DescribePermissionSetOutput * StartupWorld
}.

Inductive StartupCall :=
| CallListAccounts (nextToken : option string) (r : Reply ListAccountsOutput)
| CallListInstances (r : Reply ListInstancesOutput)
| CallListPermissionSets (i : ListPermissionSetsInput) (r : Reply ListPermissionSetsOutput)
| CallDescribePermissionSet (i : DescribePermissionSetInput)
    (r : Reply DescribePermissionSetOutput).

Section Startup.

Context {senv : StartupEnvironment}.

Record StartupState := mkStartupState {
  startupWorld : StartupWorld senv;
  startupCalls : list StartupCall            (* requests sent, oldest first *)
}.

(** State, exceptions and fuel, as for [M]. *)
Definition Boot (A : Type) : Type := StartupState -> Completion A * StartupState.

Definition bootRet {A} (a : A) : Boot A := fun s => (Normal a, s).

Definition bootBind {A B} (m : Boot A) (k : A -> Boot B) : Boot B :=
  fun s =>
    match m s with
    | (Normal a, s') => k a s'
    | (Throws e, s') => (Throws e, s')
    | (OutOfFuel, s') => (OutOfFuel, s')
    end.

Definition bootThrow {A} (e : JsError) : Boot A := fun s => (Throws e, s).

End Startup.

Arguments StartupState : clear implicits.
Arguments Boot : clear implicits.

Notation "x <~ c ;; k" := (bootBind c (fun x => k))
  (at level 100, c at next level, right associativity) : prog_scope.

Section StartupFunctions.

Context {senv : StartupEnvironment}.

Fixpoint bootForOf {A B} (body : B -> A -> Boot senv B) (xs : list A) (acc : B)
  : Boot senv B :=
  match xs with
  | [] => bootRet acc
  | x :: xs' => acc' <~ body acc x ;; bootForOf body xs' acc'
  end.

Definition startupCall (w : StartupWorld senv) (c : StartupCall) (s : StartupState senv)
  : StartupState senv :=
  {| startupWorld := w; startupCalls := startupCalls s ++ [c] |}.

(** [orgClient.send(new ListAccountsCommand({ NextToken }))] *)
Definition sendListAccounts (nextToken : option string) : Boot senv ListAccountsOutput :=
  fun s =>
    let '(r, w) := listAccounts senv (startupWorld s) nextToken in
    (settle r, startupCall w (CallListAccounts nextToken r) s).

(** [ssoAdminClient.send(new ListInstancesCommand({}))] *)
Definition sendListInstances : Boot senv ListInstancesOutput :=
  fun s =>
    let '(r, w) := listInstances senv (startupWorld s) in
    (settle r, startupCall w (CallListInstances r) s).

(** [ssoAdminClient.send(new ListPermissionSetsCommand(i))] *)
Definition sendListPermissionSets (i : ListPermissionSetsInput)
  : Boot senv ListPermissionSetsOutput :=
  fun s =>
    let '(r, w) := listPermissionSets senv (startupWorld s) i in
    (settle r, startupCall w (CallListPermissionSets i r) s).

(** [ssoAdminClient.send(new DescribePermissionSetCommand(i))] *)
Definition sendDescribePermissionSet (i : DescribePermissionSetInput)
  : Boot senv DescribePermissionSetOutput :=
  fun s =>
    let '(r, w) := describePermissionSet senv (startupWorld s) i in
    (settle r, startupCall w (CallDescribePermissionSet i r) s).

(** *** [getOrgAccounts] (lines 106-129) *)

(** Lines 118-122: an account enters the map when its id and its name are
    both truthy. *)
Definition addAccount (accounts : JsMap string) (account : Account) : JsMap string :=
  match acc_Id account, acc_Name account with
  | Some id, Some accountName' =>
      if truthy (Some id) && truthy (Some accountName')
      then jsmap_set id accountName' accounts
      else accounts
  | _, _ => accounts
  end.

(** The [do ... while (nextToken)] loop of lines 112-126. *)
Fixpoint getOrgAccountsLoop (fuel : nat) (accounts : JsMap string)
    (nextToken : option string) : Boot senv (JsMap string) :=
  match fuel with
  | O => fun s => (OutOfFuel, s)
  | S fuel' =>
      response <~ sendListAccounts nextToken ;;
      let accounts' :=
        match Accounts response with
        | Some page => fold_left addAccount page accounts
        | None => accounts
        end in
      let nextToken' := la_out_NextToken response in
      if truthy nextToken'
      then getOrgAccountsLoop fuel' accounts' nextToken'
      else bootRet accounts'
  end.

Definition getOrgAccounts (fuel : nat) : Boot senv (JsMap string) :=
  getOrgAccountsLoop fuel [] None.

(** *** [getIdentityStoreId] (lines 131-149) *)

Definition getIdentityStoreId : Boot senv (string * string) :=
  response <~ sendListInstances ;;
  match Instances response with
  | None | Some [] => bootThrow (newError "No SSO instances found")
  | Some (instance :: _) =>
      match InstanceArn instance, IdentityStoreId instance with
      | Some instanceArn, Some identityStoreId =>
          if negb (truthy (Some instanceArn)) || negb (truthy (Some identityStoreId))
          then bootThrow (newError "Instance ARN or Identity Store ID not found")
          else bootRet (instanceArn, identityStoreId)
      | _, _ => bootThrow (newError "Instance ARN or Identity Store ID not found")
      end
  end.

(** *** [getAllPermissionSets] (lines 151-184) *)

(** [details.PermissionSet?.Name || empty] *)
Definition permissionSetNameOf (details : DescribePermissionSetOutput) : string :=
  orElse match dps_out_PermissionSet details with
         | Some permissionSet => ps_Name permissionSet
         | None => None
         end
         EmptyString.

(** Lines 166-175: the body of the loop over one page of ARNs. *)
Definition describeInto (instanceArn : string) (permissionSets : JsMap string)
    (permissionSetArn : string) : Boot senv (JsMap string) :=
  details <~ sendDescribePermissionSet
               {| dps_InstanceArn := instanceArn;
                  dps_PermissionSetArn := permissionSetArn |} ;;
  bootRet (jsmap_set permissionSetArn (permissionSetNameOf details) permissionSets).

(** The [do ... while (nextToken)] loop of lines 157-181. *)
Fixpoint getAllPermissionSetsLoop (fuel : nat) (instanceArn : string)
    (permissionSets : JsMap string) (nextToken : option string)
  : Boot senv (JsMap string) :=
  match fuel with
  | O => fun s => (OutOfFuel, s)
  | S fuel' =>
      response <~ sendListPermissionSets
                    {| lps_InstanceArn := instanceArn; lps_NextToken := nextToken |} ;;
      permissionSets' <~
        match PermissionSets response with
        | Some page => bootForOf (describeInto instanceArn) page permissionSets
        | None => bootRet permissionSets
        end ;;
      let nextToken' := lps_out_NextToken response in
      if truthy nextToken'
      then getAllPermissionSetsLoop fuel' instanceArn permissionSets' nextToken'
      else bootRet permissionSets'
  end.

Definition getAllPermissionSets (fuel : nat) (instanceArn : string)
  : Boot senv (JsMap string) :=
  getAllPermissionSetsLoop fuel instanceArn [] None.

(** *** The start of [main] (lines 405-421), without its console output *)

Definition startup (fuel : nat)
  : Boot senv (JsMap string * (string * string) * JsMap string) :=
  accounts <~ getOrgAccounts fuel ;;
  ids <~ getIdentityStoreId ;;
  allPermissionSets <~ getAllPermissionSets fuel (fst ids) ;;
  bootRet (accounts, ids, allPermissionSets).

End StartupFunctions.

(** The accounts on the pages a record of requests received. *)
Definition listedAccounts (trace : list StartupCall) : list Account :=
  flat_map
    (fun c =>
       match c with
       | CallListAccounts _ (Resolved response) => default [] (Accounts response)
       | _ => []
       end)
    trace.

(** The ARNs on the pages of permission sets a record of requests received. *)
Definition listedPermissionSets (trace : list StartupCall) : list string :=
  flat_map
    (fun c =>
       match c with
       | CallListPermissionSets _ (Resolved response) => default [] (PermissionSets response)
       | _ => []
       end)
    trace.

(** The ARNs a record of requests asked the details of. *)
Definition describedPermissionSets (trace : list StartupCall) : list string :=
  flat_map
    (fun c =>
       match c with
       | CallDescribePermissionSet i _ => [dps_PermissionSetArn i]
       | _ => []
       end)
    trace.

(** The error a request was rejected with. *)
Definition rejection (c : StartupCall) : option JsError :=
  match c with
  | CallListAccounts _ (Rejected e) => Some e
  | CallListInstances (Rejected e) => Some e
  | CallListPermissionSets _ (Rejected e) => Some e
  | CallDescribePermissionSet _ (Rejected e) => Some e
  | _ => None
  end.

(** A scripted start-up: the world is the number of requests answered. *)
Definition scriptedStartup
    (la : nat -> option string -> Reply ListAccountsOutput)
    (li : nat -> Reply ListInstancesOutput)
    (lps : nat -> ListPermissionSetsInput -> Reply ListPermissionSetsOutput)
    (dps : nat -> DescribePermissionSetInput -> Reply DescribePermissionSetOutput)
  : StartupEnvironment :=
  {| StartupWorld := nat;
     listAccounts := fun n t => (la n t, S n);
     listInstances := fun n => (li n, S n);
     listPermissionSets := fun n i => (lps n i, S n);
     describePermissionSet := fun n i => (dps n i, S n) |}.

(** Two pages of accounts (the second lists an account again, renamed, and
    one without a name), one instance, one page of two permission sets. *)
Definition senvSmall : StartupEnvironment :=
  scriptedStartup
    (fun _ t =>
       match t with
       | None =>
           Resolved {| Accounts := Some [ {| acc_Id := Some "111111111111";
                                             acc_Name := Some "Prod" |};
                                          {| acc_Id := Some "222222222222";
                                             acc_Name := Some "Dev" |} ];
                       la_out_NextToken := Some "page-2" |}
       | Some _ =>
           Resolved {| Accounts := Some [ {| acc_Id := Some "111111111111";
                                             acc_Name := Some "Production" |};
                                          {| acc_Id := Some "333333333333";
                                             acc_Name := None |} ];
                       la_out_NextToken := None |}
       end)
    (fun _ => Resolved {| Instances := Some [ {| InstanceArn := Some "arn:instance";
                                                 IdentityStoreId := Some "d-1" |} ] |})
    (fun _ _ => Resolved {| PermissionSets := Some ["arn:ps-1"; "arn:ps-2"];
                            lps_out_NextToken := None |})
    (fun _ i => Resolved {| dps_out_PermissionSet :=
                              if String.eqb (dps_PermissionSetArn i) "arn:ps-1"
                              then Some {| ps_Name := Some "AdminAccess" |}
                              else None |}).

(** Accounts are listed, then every request is throttled. *)
Definition senvThrottled : StartupEnvironment :=
  scriptedStartup
    (fun _ _ => Resolved {| Accounts := None; la_out_NextToken := None |})
    (fun _ => Rejected throttlingError)
    (fun _ _ => Rejected throttlingError)
    (fun _ _ => Rejected throttlingError).

Definition startupState (senv : StartupEnvironment) (w : StartupWorld senv)
  : StartupState senv :=
  {| startupWorld := w; startupCalls := [] |}.

(** ** The progress display of [main] (lines 434-462, 492-497, 543-595)

    The colours of [chalk] and the clock are outside the program: the
    colouring is a function of the message type, and each call of [addLog]
    is given the time string [new Date().toLocaleTimeString()] returned. *)

(** [process.stdout.rows || 24] *)
Definition terminalHeightOf (rows : option nat) : nat :=
  match rows with
  | Some (S r) => S r
  | _ => 24
  end.

Definition FIXED_LINES : Z := 8.

(** [Math.max(6, terminalHeight - FIXED_LINES)] *)
Definition MAX_LOG_LINES (rows : option nat) : nat :=
  Z.to_nat (Z.max 6 (Z.of_nat (terminalHeightOf rows) - FIXED_LINES)).

(** The icons of lines 447-456: a bullet, a check mark and a warning sign,
    in UTF-8. *)
Definition icon (type : LogType) : string :=
  match type with
  | info => String "226" (String "128" (String "162" EmptyString))
  | success => String "226" (String "156" (String "147" EmptyString))
  | warning => String "226" (String "154" (String "160" EmptyString))
  end.

Section Display.

Variable chalk : LogType -> string -> string.

(** Line 458: the line pushed for a message. *)
Definition logLine (timestamp message : string) (type : LogType) : string :=
  chalk type ("[" +:+ timestamp +:+ "] " +:+ icon type +:+ " " +:+ message).

(** [addLog] (lines 445-462): push the line, drop the oldest one when the
    buffer is over its limit. *)
Definition addLog (maxLogLines : nat) (timestamp message : string) (type : LogType)
    (logMessages : list string) : list string :=
  let pushed := logMessages ++ [logLine timestamp message type] in
  if (maxLogLines <? length pushed)%nat then tl pushed else pushed.

(** Lines 492-497 of [renderUI]: the log lines indented, padded with empty
    lines up to the limit. *)
Definition logArea (maxLogLines : nat) (logMessages : list string) : list string :=
  let logLines := map (fun msg => "  " +:+ msg) logMessages in
  logLines ++ repeat EmptyString (maxLogLines - length logLines).

(** Lines 545-553: a name cut to [limit] characters, the last three of them
    dots. *)
Definition shorten (limit : nat) (value : string) : string :=
  if (limit <? String.length value)%nat
  then String.substring 0 (limit - 3) value +:+ "..."
  else value.

Definition shortAccountName (task : Task) : string := shorten 50 (task_accountName task).
Definition shortPermSetName (task : Task) : string := shorten 30 (task_permissionSetName task).

(** The counters and the log the jobs share. *)
Record Progress := mkProgress {
  completedOperations : nat;
  processedAccounts : nat;
  loggedAccounts : list string;              (* a [Set], in insertion order *)
  logMessages : list string
}.

(** Lines 571-577. *)
Definition assignmentsMessage (task : Task) (found : nat) : string :=
  shortAccountName task +:+ " / " +:+ shortPermSetName task +:+ ": "
  +:+ pretty found +:+ " assignment" +:+ (if (1 <? found)%nat then "s" else EmptyString).

(** What a job does between the return of [getAssignments] and [renderUI]
    (lines 569-595).  [size] is [allPermissionSets.size], which is positive
    whenever there is a task to run; [found] is [assignments.length];
    [time1] and [time2] are the time strings of the two [addLog] calls. *)
Definition finishTask (maxLogLines size : nat) (time1 time2 : string)
    (task : Task) (found : nat) (p : Progress) : Progress :=
  let completed := S (completedOperations p) in
  let log1 :=
    if (0 <? found)%nat
    then addLog maxLogLines time1 (assignmentsMessage task found) info (logMessages p)
    else logMessages p in
  let accountsProcessed := (completed / size)%nat in
  if (processedAccounts p <? accountsProcessed)%nat then
    if negb (existsb (String.eqb (task_accountId task)) (loggedAccounts p)) then
      {| completedOperations := completed; processedAccounts := accountsProcessed;
         loggedAccounts := loggedAccounts p ++ [task_accountId task];
         logMessages := addLog maxLogLines time2
                          ("Completed: " +:+ shortAccountName task) success log1 |}
    else
      {| completedOperations := completed; processedAccounts := accountsProcessed;
         loggedAccounts := loggedAccounts p; logMessages := log1 |}
  else
    {| completedOperations := completed; processedAccounts := processedAccounts p;
       loggedAccounts := loggedAccounts p; logMessages := log1 |}.

(** A job that finished: when, for which task, with how many rows. *)
Record Finished := mkFinished {
  fin_time1 : string;
  fin_time2 : string;
  fin_task : Task;
  fin_found : nat
}.

Definition addLogs (maxLogLines : nat) (entries : list (string * string * LogType))
    (logMessages : list string) : list string :=
  fold_left
    (fun logMessages entry =>
       addLog maxLogLines (fst (fst entry)) (snd (fst entry)) (snd entry) logMessages)
    entries logMessages.

End Display.

(** What happens to the shared display state while the jobs run: a job
    finishes, or the retry wrapper warns through [globalLogger], which is
    [addLog]. *)
Inductive DisplayEvent :=
| JobFinished (f : Finished)
| RetryWarning (timestamp message : string).

Definition displayStep (chalk : LogType -> string -> string) (maxLogLines size : nat)
    (p : Progress) (ev : DisplayEvent) : Progress :=
  match ev with
  | JobFinished f =>
      finishTask chalk maxLogLines size (fin_time1 f) (fin_time2 f)
        (fin_task f) (fin_found f) p
  | RetryWarning timestamp message =>
      {| completedOperations := completedOperations p;
         processedAccounts := processedAccounts p;
         loggedAccounts := loggedAccounts p;
         logMessages := addLog chalk maxLogLines timestamp message warning (logMessages p) |}
  end.

(** The jobs among the events. *)
Definition finishedJobs (events : list DisplayEvent) : list Finished :=
  flat_map (fun ev => match ev with JobFinished f => [f] | RetryWarning _ _ => [] end) events.

(** Lines 431-433, 514 and 519: the counters at zero, no account logged, the
    log holding the line of the first [addLog]. *)
Definition initialProgress (chalk : LogType -> string -> string) (maxLogLines : nat)
    (timestamp : string) : Progress :=
  {| completedOperations := 0; processedAccounts := 0; loggedAccounts := [];
     logMessages := addLog chalk maxLogLines timestamp "Starting to process accounts..."
                      info [] |}.

(** What the jobs keep true of the shared counters after [completed] of
    them, the jobs [seen], have finished. *)
Definition progressAt (maxLogLines size completed : nat) (seen : list Finished)
    (p : Progress) : Prop :=
  completedOperations p = completed /\
  processedAccounts p = (completed / size)%nat /\
  NoDup (loggedAccounts p) /\
  length (loggedAccounts p) <= processedAccounts p /\
  (forall id, In id (loggedAccounts p) ->
     exists f, In f seen /\ task_accountId (fin_task f) = id) /\
  length (logMessages p) <= maxLogLines.

(** Two accounts and two permission sets: the first job of each account has
    finished. *)
Definition devAdmin : Task :=
  {| task_accountId := "222222222222"; task_accountName := "Dev";
     task_permissionSetArn := "arn:ps-1"; task_permissionSetName := "AdminAccess" |}.

Definition twoJobsFinished : list DisplayEvent :=
  [ JobFinished {| fin_time1 := "10:00:01"; fin_time2 := "10:00:01";
                   fin_task := prodAdmin; fin_found := 1 |};
    RetryWarning "10:00:02" "Rate limit: DescribeUser(u-1...). Retry in 2s (1/5)";
    JobFinished {| fin_time1 := "10:00:03"; fin_time2 := "10:00:03";
                   fin_task := devAdmin; fin_found := 0 |} ].

(** ** Vocabulary of the further properties *)

(** The sum of a list of delays. *)
Definition totalDelay (delays : list Q) : Q := fold_right Qplus 0%Q delays.

(** The user ids on the pages of memberships a record of remote calls
    received, in the order they were listed. *)
Definition listedMembers (trace : list Call) : list string :=
  flat_map
    (fun c =>
       match c with
       | CallListGroupMemberships _ (Resolved response) => memberUserIds response
       | _ => []
       end)
    trace.

Section WellFormed.
Context {env : Environment}.

(** No cached name is the empty string, and no cached member list holds it. *)
Definition cachesNamed (s : State env) : Prop :=
  (forall k v, userCache s !! k = Some v -> v <> EmptyString) /\
  (forall k v, groupCache s !! k = Some v -> v <> EmptyString) /\
  (forall k members, groupMembersCache s !! k = Some members ->
     Forall (fun m => m <> EmptyString) members).

End WellFormed.

(** [accounts] holds the accounts of [listed] that have an id and a name:
    each once, under its id. *)
Definition accountsOf (listed : list Account) (accounts : JsMap string) : Prop :=
  NoDup (map fst accounts) /\
  (forall id accountName', In (id, accountName') accounts ->
     id <> EmptyString /\ accountName' <> EmptyString /\
     exists account, In account listed /\
       acc_Id account = Some id /\ acc_Name account = Some accountName') /\
  (forall account id accountName', In account listed ->
     acc_Id account = Some id -> acc_Name account = Some accountName' ->
     id <> EmptyString -> accountName' <> EmptyString ->
     In id (map fst accounts)).

(** The request for the details of [permissionSetArn] in [trace] that was
    answered with the name [permissionSetName']. *)
Definition describedAs (instanceArn : string) (trace : list StartupCall)
    (permissionSetArn permissionSetName' : string) : Prop :=
  exists details,
    In (CallDescribePermissionSet
          {| dps_InstanceArn := instanceArn; dps_PermissionSetArn := permissionSetArn |}
          (Resolved details)) trace /\
    permissionSetName' = permissionSetNameOf details.

(** ** Vocabulary of the claims on a work unit and on the report *)

(** *** A membership listing that is cut short *)

(** From the world [w] and the token [token] on, the service answers the
    membership requests for the group with the pages [pages], each of them
    announcing a further page, and rejects the request that follows them
    with [e]. *)
Fixpoint rejectedAfter {env : Environment} (identityStoreId groupId : string)
    (w : World env) (token : option string) (pages : list ListGroupMembershipsOutput)
    (e : JsError) : Prop :=
  match pages with
  | [] =>
      fst (listGroupMemberships env w
             {| lgm_IdentityStoreId := identityStoreId; lgm_GroupId := groupId;
                lgm_NextToken := token |}) = Rejected e
  | page :: rest =>
      exists w1,
        listGroupMemberships env w
          {| lgm_IdentityStoreId := identityStoreId; lgm_GroupId := groupId;
             lgm_NextToken := token |} = (Resolved page, w1) /\
        truthy (lgm_out_NextToken page) = true /\
        rejectedAfter identityStoreId groupId w1 (lgm_out_NextToken page) rest e
  end.

(** A first page of two members that announces a second page. *)
Definition twoMembersAndMore : ListGroupMembershipsOutput :=
  {| GroupMemberships := GroupMemberships twoMembers;
     lgm_out_NextToken := Some "page-2" |}.

(** A group deleted while its members are listed: the first page of
    memberships is served, the request for the second one is rejected as not
    found, and so is the lookup of the group's name. *)
Definition envDeletedWhileListed : Environment :=
  scripted (fun _ _ => Resolved noPage) (fun _ i => Resolved (userNamed (du_UserId i)))
    (fun _ _ => Rejected notFoundError)
    (fun _ i => match lgm_NextToken i with
                | None => Resolved twoMembersAndMore
                | Some _ => Rejected notFoundError
                end)
    randomHalf.

(** *** The fan-out (lines 543-602) *)

(** What a job returns (lines 565-568 and 598): its task, and the rows of
    [getAssignments] with the account name of the task written into each. *)
Definition jobValue (task : Task) (assignments : list AdminAssignment)
  : Task * list AdminAssignment :=
  (task, map (setAccountName (task_accountName task)) assignments).

(** [Promise.all]: the promises settle one after another, in any order; each
    fulfilment puts its value at the index of its promise.  The whole is
    fulfilled with the array of the values once no slot is empty, and is
    rejected by the first rejection.  [slots] holds what is fulfilled so far,
    [settled] the settlements still to come, each with the index of its
    promise; [None] is a promise still pending. *)
Fixpoint promiseAllFrom {A} (slots : list (option A)) (settled : list (nat * Reply A))
  : option (Reply (list A)) :=
  match mapM id slots with
  | Some values => Some (Resolved values)
  | None =>
      match settled with
      | [] => None
      | (i, Resolved value) :: settled' => promiseAllFrom (<[i := Some value]> slots) settled'
      | (_, Rejected e) :: _ => Some (Rejected e)
      end
  end.

Definition promiseAll {A} (n : nat) (settled : list (nat * Reply A))
  : option (Reply (list A)) :=
  promiseAllFrom (replicate n None) settled.

(** The settlements of jobs that all return, in the order [completion] of
    their indices in the task array. *)
Definition fulfilments {A} (values : list A) (completion : list nat)
  : list (nat * Reply A) :=
  omap (fun i => (fun value => (i, Resolved value)) <$> values !! i) completion.

(** The keys of a list in the order of their first occurrence. *)
Fixpoint firstSeen (keys : list string) : list string :=
  match keys with
  | [] => []
  | k :: rest => k :: List.filter (fun k' => negb (String.eqb k' k)) (firstSeen rest)
  end.

(** The rows of the results of one account, in the order of the results. *)
Definition rowsOfAccount (accountId : string)
    (allTaskResults : list (Task * list AdminAssignment)) : list AdminAssignment :=
  concat (map snd (List.filter (fun r => String.eqb (task_accountId (fst r)) accountId)
                               allTaskResults)).

(** The row of a direct USER assignment (lines 345-352). *)
Definition userRow (accountId permissionSetName username : string) : AdminAssignment :=
  {| accountNumber := accountId; accountName := EmptyString; username := username;
     permissionSetName := permissionSetName; assignmentType := USER; groupName := None |}.

(** The result of a unit whose one assignment is a direct USER assignment,
    given the call of [getUserName] it made: the row carries the name the
    call returned. *)
Definition resultOfCall (task : Task) (call : Resolution) : Task * list AdminAssignment :=
  jobValue task
    match call with
    | UserNameCall _ (Returned v) =>
        [userRow (task_accountId task) (task_permissionSetName task) v]
    | _ => []
    end.

(** The report of two units, one per account, that each resolve the user
    u-1 while the other does, their stretches run in the order [schedule]. *)
Definition reportOfSchedule (schedule : list nat) : list AdminAssignment :=
  match fst (runSchedule (env := envAliceThenFailure) 1 "d-1" schedule
               [UserNameCall "u-1" NotStarted; UserNameCall "u-1" NotStarted]
               (initialState envAliceThenFailure 0%nat)) with
  | Normal calls => aggregate (zip_with resultOfCall [prodAdmin; devAdmin] calls)
  | _ => []
  end.

(** *** The listing of a work unit *)

(** The ListAccountAssignments requests of a record of remote calls, each
    with its reply. *)
Definition listingCalls (trace : list Call)
  : list (ListAccountAssignmentsInput * Reply ListAccountAssignmentsOutput) :=
  flat_map
    (fun c =>
       match c with
       | CallListAccountAssignments i r => [(i, r)]
       | _ => []
       end)
    trace.

(** The references on the pages of a listing, in the order they were
    listed. *)
Definition listedRefs
    (listing : list (ListAccountAssignmentsInput * Reply ListAccountAssignmentsOutput))
  : list AccountAssignment :=
  flat_map
    (fun page =>
       match snd page with
       | Resolved response => pageRefs response
       | Rejected _ => []
       end)
    listing.

(** A request for the memberships of the group [groupId]. *)
Definition isMembershipCallOf (groupId : string) (c : Call) : bool :=
  match c with
  | CallListGroupMemberships i _ => String.eqb (lgm_GroupId i) groupId
  | _ => false
  end.

(** The membership requests for one group in a record of remote calls. *)
Definition groupCalls (groupId : string) (trace : list Call) : list Call :=
  List.filter (isMembershipCallOf groupId) trace.

(** A lookup of a user or of a group. *)
Definition isDescribeCall (c : Call) : bool :=
  match c with
  | CallDescribeUser _ _ | CallDescribeGroup _ _ => true
  | _ => false
  end.

(** [listing] is the listing of one unit from the token [token] on, to its
    last page: every request names the instance, the account and the
    permission set of the unit; the first request carries [token]; a
    rejected request is sent again; the request after a page carries the
    token that page announced; the last reply is a page that announces no
    further page. *)
Fixpoint followsListing (instanceArn accountId permissionSetArn : string)
    (token : option string)
    (listing : list (ListAccountAssignmentsInput * Reply ListAccountAssignmentsOutput))
  : Prop :=
  match listing with
  | [] => False
  | (i, r) :: rest =>
      i = {| laa_InstanceArn := instanceArn; laa_AccountId := accountId;
             laa_PermissionSetArn := permissionSetArn; laa_NextToken := token |} /\
      match r with
      | Rejected _ => followsListing instanceArn accountId permissionSetArn token rest
      | Resolved response =>
          if truthy (laa_out_NextToken response)
          then followsListing instanceArn accountId permissionSetArn
                 (laa_out_NextToken response) rest
          else rest = []
      end
  end.

Section Seen.
Context {env : Environment}.

(** The members the group [groupId] resolves to in a run that starts in [s]
    and makes the calls [trace]: the list the cache held when the run
    started, or else the user ids the service listed for the group during
    the run. *)
Definition membersSeen (s : State env) (trace : list Call) (groupId : string)
  : list string :=
  match groupMembersCache s !! groupId with
  | Some members => members
  | None => listedMembers (groupCalls groupId trace)
  end.

(** From [s] to [s'] only users and groups were looked up. *)
Definition describesOnly (s s' : State env) : Prop :=
  exists delta, calls s' = calls s ++ delta /\
                Forall (fun c => isDescribeCall c = true) delta.

(** How the group-members cache of [s'] comes from that of [s] through the
    calls [trace]: a group that was cached is not listed and keeps its
    entry; a group that was not is either still absent and was not listed,
    or holds the user ids listed for it. *)
Definition listsGroups (s s' : State env) (trace : list Call) : Prop :=
  forall groupId,
    match groupMembersCache s !! groupId with
    | Some members =>
        groupCalls groupId trace = [] /\ groupMembersCache s' !! groupId = Some members
    | None =>
        (groupCalls groupId trace = [] /\ groupMembersCache s' !! groupId = None) \/
        groupMembersCache s' !! groupId = Some (listedMembers (groupCalls groupId trace))
    end.

(** The listing of the unit ends: whenever the service answers a request of
    the unit with a page that announces a further page, the token announced
    has a lower rank than the token of the request. *)
Definition listingEnds (rank : option string -> nat)
    (instanceArn accountId permissionSetArn : string) : Prop :=
  forall (w : World env) token response w',
    listAccountAssignments env w
      {| laa_InstanceArn := instanceArn; laa_AccountId := accountId;
         laa_PermissionSetArn := permissionSetArn; laa_NextToken := token |}
    = (Resolved response, w') ->
    truthy (laa_out_NextToken response) = true ->
    rank (laa_out_NextToken response) < rank token.

(** Every listing of memberships ends, in the same sense. *)
Definition membershipsEnd (rank : option string -> nat) : Prop :=
  forall (w : World env) i response w',
    listGroupMemberships env w i = (Resolved response, w') ->
    truthy (lgm_out_NextToken response) = true ->
    rank (lgm_out_NextToken response) < rank (lgm_NextToken i).

(** The service rejects no request of the unit's listing. *)
Definition listingServed (instanceArn accountId permissionSetArn : string) : Prop :=
  forall (w : World env) token,
    exists response w',
      listAccountAssignments env w
        {| laa_InstanceArn := instanceArn; laa_AccountId := accountId;
           laa_PermissionSetArn := permissionSetArn; laa_NextToken := token |}
      = (Resolved response, w').

End Seen.

(** * Properties *)

(** ** The retry governor *)

Section RetryStep.
Context {env : Environment}.

Lemma isRateLimitError_spec (e : JsError) :
  isRateLimitError e = true <->
  name e = "TooManyRequestsException" \/ name e = "ThrottlingException" \/
  exists md, metadata e = Some md /\ httpStatusCode md = Some 429%Z.
Proof.
  unfold isRateLimitError. rewrite !orb_true_iff, !String.eqb_eq.
  split.
  - intros [[H | H] | H]; auto. right. right.
    destruct (metadata e) as [md|]; [|discriminate].
    exists md. split; [reflexivity|].
    destruct (httpStatusCode md) as [c|]; [|discriminate].
    apply Z.eqb_eq in H. now subst.
  - intros [H | [H | (md & H1 & H2)]]; auto.
    right. rewrite H1, H2. reflexivity.
Qed.

(** What a back-off step does to the state. *)
Lemma backoff_spec operationName attempt_ retries (s : State env) :
  exists s2,
    backoff operationName attempt_ retries s = (Normal tt, s2) /\
    world s2 = world s /\ calls s2 = calls s /\
    randomDraws s2 = S (randomDraws s) /\
    userCache s2 = userCache s /\ groupCache s2 = groupCache s /\
    groupMembersCache s2 = groupMembersCache s /\
    globalLogger s2 = globalLogger s /\
    loggerCalls s2 = loggerCalls s ++
      (if globalLogger s
       then [(retryMessage operationName
                (backoffDelay attempt_ (mathRandom env (randomDraws s)))
                attempt_ retries, warning)]
       else []) /\
    timeouts s2 = timeouts s ++ [backoffDelay attempt_ (mathRandom env (randomDraws s))] /\
    consoleErrors s2 = consoleErrors s.
Proof.
  unfold backoff, bind, Math_random, callGlobalLogger, setTimeout. cbn.
  destruct (globalLogger s) eqn:Hg; eexists; (split; [reflexivity|]); cbn;
    rewrite ?app_nil_r; repeat split; auto.
Qed.

Lemma retryLoop_step {A} remaining attempt_ (operation : M env A) operationName retries s :
  retryLoop (S remaining) attempt_ operation operationName retries s =
  match operation s with
  | (Normal v, s1) => (Normal v, s1)
  | (Throws e, s1) =>
      if negb (isRateLimitError e) || Nat.eqb attempt_ retries
      then (Throws e, s1)
      else retryLoop remaining (S attempt_) operation operationName retries
             (snd (backoff operationName attempt_ retries s1))
  | (OutOfFuel, s1) => (OutOfFuel, s1)
  end.
Proof.
  cbn [retryLoop]. unfold bind at 1. unfold attempt.
  destruct (operation s) as [[v | e |] s1]; try reflexivity.
  destruct (negb (isRateLimitError e) || Nat.eqb attempt_ retries); [reflexivity|].
  unfold bind at 1.
  destruct (backoff_spec operationName attempt_ retries s1) as (s2 & -> & _).
  reflexivity.
Qed.

End RetryStep.

Section Retry.
Context {env : Environment} {A : Type}.
Variable operation : M env A.
Variable operationName : string.
Variable retries : nat.

Lemma retryLoop_nonretryable remaining attempt_ s e s1 :
  operation s = (Throws e, s1) -> isRateLimitError e = false ->
  retryLoop (S remaining) attempt_ operation operationName retries s = (Throws e, s1).
Proof. intros Hop He. rewrite retryLoop_step, Hop, He. reflexivity. Qed.

Hypothesis random_range : forall n, (0 <= mathRandom env n)%Q /\ (mathRandom env n < 1)%Q.
Hypothesis operation_calls : forall s, length (calls (snd (operation s))) = S (length (calls s)).
Hypothesis operation_timeouts : forall s, timeouts (snd (operation s)) = timeouts s.

Lemma backoffDelay_range attempt_ n :
  exists jitter, (0 <= jitter)%Q /\ (jitter < 1000)%Q /\
    (backoffDelay attempt_ (mathRandom env n)
     == inject_Z (INITIAL_RETRY_DELAY * 2 ^ Z.of_nat attempt_) + jitter)%Q.
Proof.
  exists (mathRandom env n * 1000)%Q.
  destruct (random_range n) as [H0 H1]. repeat split.
  - apply Qmult_le_0_compat; [assumption | discriminate].
  - apply Qlt_le_trans with (1 * 1000)%Q.
    + apply Qmult_lt_r; [reflexivity | assumption].
    + discriminate.
Qed.

Lemma retryLoop_trace remaining : forall attempt_ s r s',
  (remaining + attempt_ = S retries)%nat -> remaining <> O ->
  retryLoop remaining attempt_ operation operationName retries s = (r, s') ->
  exists n delays,
    (1 <= n <= remaining)%nat /\
    length (calls s') = (length (calls s) + n)%nat /\
    timeouts s' = timeouts s ++ delays /\
    length delays = (n - 1)%nat /\
    backoffDelays attempt_ delays.
Proof.
  induction remaining as [|remaining IH]; intros attempt_ s r s' Hsum Hnz Hrun;
    [congruence|].
  rewrite retryLoop_step in Hrun.
  pose proof (operation_calls s) as Hc. pose proof (operation_timeouts s) as Ht.
  assert (Hone : forall s1 : State env, length (calls s1) = S (length (calls s)) ->
            timeouts s1 = timeouts s ->
            exists n delays, (1 <= n <= S remaining)%nat /\
              length (calls s1) = (length (calls s) + n)%nat /\
              timeouts s1 = timeouts s ++ delays /\
              length delays = (n - 1)%nat /\ backoffDelays attempt_ delays).
  { intros s1 H1 H2. exists 1%nat, []. rewrite H1, H2, app_nil_r.
    repeat split; try lia. intros k d Hk. destruct k; discriminate. }
  destruct (operation s) as [[v | e |] s1]; cbn [snd] in Hc, Ht.
  - injection Hrun as <- <-. auto.
  - destruct (negb (isRateLimitError e) || Nat.eqb attempt_ retries) eqn:Hstop.
    + injection Hrun as <- <-. auto.
    + apply orb_false_iff in Hstop as [_ Hne]. apply Nat.eqb_neq in Hne.
      destruct (backoff_spec operationName attempt_ retries s1)
        as (s2 & Hb & _ & Hc2 & _ & _ & _ & _ & _ & _ & Ht2 & _).
      rewrite Hb in Hrun. cbn [snd] in Hrun.
      destruct (IH (S attempt_) s2 r s' ltac:(lia) ltac:(lia) Hrun)
        as (n & delays & Hn & Hcalls & Htime & Hlen & Hd).
      exists (S n), (backoffDelay attempt_ (mathRandom env (randomDraws s1)) :: delays).
      rewrite Hcalls, Htime, Hc2, Ht2, Hc, Ht, <- app_assoc. cbn.
      repeat split; try lia.
      intros k d Hk. destruct k as [|k]; cbn in Hk.
      * injection Hk as <-. rewrite Nat.add_0_r. apply backoffDelay_range.
      * destruct (Hd k d Hk) as (j & Hj0 & Hj1 & Hj). exists j. repeat split; auto.
        replace (attempt_ + S k)%nat with (S attempt_ + k)%nat by lia. exact Hj.
  - injection Hrun as <- <-. auto.
Qed.

End Retry.

Section Exhaustion.
Context {env : Environment} {A : Type}.
Variable operation : M env A.
Variable operationName : string.
Variable retries : nat.

Hypothesis throttled : forall s, exists e s1,
  operation s = (Throws e, s1) /\ isRateLimitError e = true.
Hypothesis operation_logger : forall s,
  globalLogger (snd (operation s)) = globalLogger s /\
  loggerCalls (snd (operation s)) = loggerCalls s.

Lemma retryLoop_exhausted remaining : forall attempt_ s,
  (remaining + attempt_ = S retries)%nat -> remaining <> O ->
  globalLogger s = true ->
  exists e s_last s' msgs,
    retryLoop remaining attempt_ operation operationName retries s = (Throws e, s') /\
    operation s_last = (Throws e, s') /\
    isRateLimitError e = true /\
    loggerCalls s' = loggerCalls s ++ msgs /\
    length msgs = (remaining - 1)%nat /\
    retryWarnings operationName retries attempt_ msgs.
Proof.
  induction remaining as [|remaining IH]; intros attempt_ s Hsum Hnz Hlog; [congruence|].
  rewrite retryLoop_step.
  destruct (throttled s) as (e & s1 & Hop & He).
  destruct (operation_logger s) as [Hg Hl]. rewrite Hop in Hg, Hl |- *. cbn [snd] in Hg, Hl.
  rewrite He. cbn [negb orb].
  destruct (Nat.eqb attempt_ retries) eqn:Hlast.
  - apply Nat.eqb_eq in Hlast. assert (remaining = 0)%nat as -> by lia.
    exists e, s, s1, []. rewrite app_nil_r. repeat split; auto.
    intros k m Hk. destruct k; discriminate.
  - apply Nat.eqb_neq in Hlast.
    destruct (backoff_spec operationName attempt_ retries s1)
      as (s2 & Hb & _ & _ & _ & _ & _ & _ & Hg2 & Hl2 & _).
    rewrite Hb. cbn [snd].
    destruct (IH (S attempt_) s2 ltac:(lia) ltac:(lia) ltac:(congruence))
      as (e' & s_last & s' & msgs & Hrun & Hlastop & He' & Hmsgs & Hlen & Hw).
    rewrite Hg, Hlog in Hl2.
    eexists e', s_last, s', (_ :: msgs). rewrite Hrun, Hmsgs, Hl2, Hl, <- app_assoc. cbn.
    repeat split; auto; try lia.
    intros k m Hk. destruct k as [|k]; cbn in Hk.
    + injection Hk as <-. rewrite Nat.add_0_r. eauto.
    + destruct (Hw k m Hk) as (d & ->). exists d.
      replace (attempt_ + S k)%nat with (S attempt_ + k)%nat by lia. reflexivity.
Qed.

End Exhaustion.

Lemma send_calls_DescribeUser {env} (i : DescribeUserInput) (s : State env) :
  length (calls (snd (sendDescribeUser i s))) = S (length (calls s)).
Proof.
  unfold sendDescribeUser. destruct (describeUser env (world s) i). cbn.
  rewrite length_app. cbn. lia.
Qed.



(** ** What the operations leave alone *)

Lemma assignmentRefs_app t1 t2 :
  assignmentRefs (t1 ++ t2) = assignmentRefs t1 ++ assignmentRefs t2.
Proof. unfold assignmentRefs. apply flat_map_app. Qed.

Section FrameLemmas.
Context {env : Environment}.
Implicit Types s : State env.

Lemma sameCaches_refl s : sameCaches s s.
Proof. repeat split. Qed.

Lemma sameCaches_trans s1 s2 s3 : sameCaches s1 s2 -> sameCaches s2 s3 -> sameCaches s1 s3.
Proof. intros (a & b & c) (d & e & f). repeat split; congruence. Qed.

Lemma cachesGrow_refl s : cachesGrow s s.
Proof. repeat split; reflexivity. Qed.

Lemma cachesGrow_trans s1 s2 s3 : cachesGrow s1 s2 -> cachesGrow s2 s3 -> cachesGrow s1 s3.
Proof. intros (a & b & c) (d & e & f). repeat split; etrans; eauto. Qed.

Lemma sameCaches_grow s s' : sameCaches s s' -> cachesGrow s s'.
Proof. intros (a & b & c). unfold cachesGrow. rewrite a, b, c. repeat split; reflexivity. Qed.

Lemma noListing_refl s : noListing s s.
Proof. exists []. now rewrite app_nil_r. Qed.

Lemma noListing_trans s1 s2 s3 : noListing s1 s2 -> noListing s2 s3 -> noListing s1 s3.
Proof.
  intros (d1 & H1 & R1) (d2 & H2 & R2). exists (d1 ++ d2).
  rewrite H2, H1, <- app_assoc, assignmentRefs_app, R1, R2. auto.
Qed.

(** A relation on states that the operation and the back-off step respect
    is respected by the whole retry loop. *)
Lemma retryLoop_rel {A} (R : State env -> State env -> Prop)
    (operation : M env A) operationName retries :
  (forall s, R s s) -> (forall s1 s2 s3, R s1 s2 -> R s2 s3 -> R s1 s3) ->
  (forall s, R s (snd (operation s))) ->
  (forall a s, R s (snd (backoff operationName a retries s))) ->
  forall remaining attempt_ s,
    R s (snd (retryLoop remaining attempt_ operation operationName retries s)).
Proof.
  intros Hrefl Htrans Hop Hb. induction remaining as [|remaining IH]; intros attempt_ s.
  - cbn. apply Hrefl.
  - rewrite retryLoop_step. specialize (Hop s).
    destruct (operation s) as [[v | e |] s1]; cbn [snd] in *; auto.
    destruct (negb (isRateLimitError e) || Nat.eqb attempt_ retries); cbn [snd]; auto.
    eapply Htrans; [exact Hop|]. eapply Htrans; [apply Hb|]. apply IH.
Qed.

Lemma retryLoop_no_OutOfFuel {A} (operation : M env A) operationName retries :
  (forall s, fst (operation s) <> OutOfFuel) ->
  forall remaining attempt_ s,
    fst (retryLoop remaining attempt_ operation operationName retries s) <> OutOfFuel.
Proof.
  intros Hop. induction remaining as [|remaining IH]; intros attempt_ s.
  - cbn. discriminate.
  - rewrite retryLoop_step. specialize (Hop s).
    destruct (operation s) as [[v | e |] s1]; cbn [fst] in *; [discriminate | | auto].
    destruct (negb (isRateLimitError e) || Nat.eqb attempt_ retries); cbn [fst];
      [discriminate | apply IH].
Qed.

Lemma backoff_sameCaches nm a r s : sameCaches s (snd (backoff nm a r s)).
Proof.
  destruct (backoff_spec nm a r s) as (s2 & -> & _ & _ & _ & H1 & H2 & H3 & _).
  repeat split; assumption.
Qed.

Lemma backoff_noListing nm a r s : noListing s (snd (backoff nm a r s)).
Proof.
  destruct (backoff_spec nm a r s) as (s2 & -> & _ & H & _). cbn.
  exists []. now rewrite H, app_nil_r.
Qed.

Lemma backoff_consoleErrors nm a r s :
  consoleErrors (snd (backoff nm a r s)) = consoleErrors s.
Proof.
  destruct (backoff_spec nm a r s) as (s2 & -> & _ & _ & _ & _ & _ & _ & _ & _ & _ & H).
  exact H.
Qed.

End FrameLemmas.

(** ** The name resolvers *)

Section ResolverLemmas.
Context {env : Environment}.
Implicit Types s : State env.

(** *** Remote calls *)

Lemma sendDescribeUser_spec i s :
  fst (sendDescribeUser i s) <> OutOfFuel /\
  sameCaches s (snd (sendDescribeUser i s)) /\
  noListing s (snd (sendDescribeUser i s)) /\
  consoleErrors (snd (sendDescribeUser i s)) = consoleErrors s.
Proof.
  unfold sendDescribeUser. destruct (describeUser env (world s) i) as [r w]. cbn.
  split; [destruct r; discriminate|]. split; [repeat split|]. split; [|reflexivity].
  eexists. split; [reflexivity|]. cbn. reflexivity.
Qed.

Lemma sendDescribeGroup_spec i s :
  fst (sendDescribeGroup i s) <> OutOfFuel /\
  sameCaches s (snd (sendDescribeGroup i s)) /\
  noListing s (snd (sendDescribeGroup i s)) /\
  consoleErrors (snd (sendDescribeGroup i s)) = consoleErrors s.
Proof.
  unfold sendDescribeGroup. destruct (describeGroup env (world s) i) as [r w]. cbn.
  split; [destruct r; discriminate|]. split; [repeat split|]. split; [|reflexivity].
  eexists. split; [reflexivity|]. cbn. reflexivity.
Qed.

Lemma sendListGroupMemberships_spec i s :
  fst (sendListGroupMemberships i s) <> OutOfFuel /\
  sameCaches s (snd (sendListGroupMemberships i s)) /\
  noListing s (snd (sendListGroupMemberships i s)) /\
  consoleErrors (snd (sendListGroupMemberships i s)) = consoleErrors s.
Proof.
  unfold sendListGroupMemberships. destruct (listGroupMemberships env (world s) i) as [r w].
  cbn. split; [destruct r; discriminate|]. split; [repeat split|].
  split; [|reflexivity]. eexists. split; [reflexivity|]. cbn. reflexivity.
Qed.

Lemma lookupFrame_refl s : lookupFrame s s.
Proof. split; [apply sameCaches_refl|]. split; [apply noListing_refl|reflexivity]. Qed.

Lemma lookupFrame_trans s1 s2 s3 : lookupFrame s1 s2 -> lookupFrame s2 s3 -> lookupFrame s1 s3.
Proof.
  intros (a & b & c) (d & e & f). split; [eapply sameCaches_trans; eauto|].
  split; [eapply noListing_trans; eauto | congruence].
Qed.

Lemma backoff_lookupFrame nm a r s : lookupFrame s (snd (backoff nm a r s)).
Proof.
  split; [apply backoff_sameCaches|]. split; [apply backoff_noListing|].
  apply backoff_consoleErrors.
Qed.

Lemma describeUserWithRetry_spec identityStoreId userId s :
  fst (describeUserWithRetry identityStoreId userId s) <> OutOfFuel /\
  lookupFrame s (snd (describeUserWithRetry identityStoreId userId s)).
Proof.
  unfold describeUserWithRetry, retryWithBackoff. split.
  - apply retryLoop_no_OutOfFuel. intros s0. apply sendDescribeUser_spec.
  - apply retryLoop_rel.
    + apply lookupFrame_refl.
    + apply lookupFrame_trans.
    + intros s0. destruct (sendDescribeUser_spec
        {| du_IdentityStoreId := identityStoreId; du_UserId := userId |} s0)
        as (_ & a & b & c). repeat split; auto; apply a.
    + intros. apply backoff_lookupFrame.
Qed.

Lemma describeGroupWithRetry_spec identityStoreId groupId s :
  fst (describeGroupWithRetry identityStoreId groupId s) <> OutOfFuel /\
  lookupFrame s (snd (describeGroupWithRetry identityStoreId groupId s)).
Proof.
  unfold describeGroupWithRetry, retryWithBackoff. split.
  - apply retryLoop_no_OutOfFuel. intros s0. apply sendDescribeGroup_spec.
  - apply retryLoop_rel.
    + apply lookupFrame_refl.
    + apply lookupFrame_trans.
    + intros s0. destruct (sendDescribeGroup_spec
        {| dg_IdentityStoreId := identityStoreId; dg_GroupId := groupId |} s0)
        as (_ & a & b & c). repeat split; auto; apply a.
    + intros. apply backoff_lookupFrame.
Qed.

(** *** [getUserName] *)

Lemma getUserName_hit identityStoreId userId s v :
  userCache s !! userId = Some v ->
  getUserName identityStoreId userId s = (Normal v, s).
Proof. intros H. unfold getUserName, bind, userCache_get. now rewrite H. Qed.

Lemma getUserName_miss identityStoreId userId s :
  userCache s !! userId = None ->
  getUserName identityStoreId userId s =
  match describeUserWithRetry identityStoreId userId s with
  | (Normal response, s1) => getUserName_settled userId (inr response) s1
  | (Throws error, s1) => getUserName_settled userId (inl error) s1
  | (OutOfFuel, s1) => (OutOfFuel, s1)
  end.
Proof.
  intros H. unfold getUserName, bind, userCache_get, attempt. rewrite H.
  destruct (describeUserWithRetry identityStoreId userId s) as [[o | e |] s1]; reflexivity.
Qed.

Lemma getUserName_settled_spec userId r s :
  exists s',
    getUserName_settled userId r s = (Normal (settledUserName userId r), s') /\
    userCache s' = <[userId := settledUserName userId r]> (userCache s) /\
    groupCache s' = groupCache s /\ groupMembersCache s' = groupMembersCache s /\
    calls s' = calls s /\ world s' = world s /\
    consoleErrors s' = consoleErrors s ++
      match r with
      | inl error =>
          if String.eqb (name error) ResourceNotFoundException then []
          else [("Error fetching user " +:+ userId +:+ ":", error)]
      | inr _ => []
      end.
Proof.
  destruct r as [error | response]; cbn.
  - unfold bind, when, console_error, userCache_set, ret.
    destruct (String.eqb (name error) ResourceNotFoundException); cbn;
      eexists; (split; [reflexivity|]); cbn; rewrite ?app_nil_r; repeat split; reflexivity.
  - unfold bind, userCache_set, ret. cbn.
    eexists; (split; [reflexivity|]); cbn; rewrite ?app_nil_r; repeat split; reflexivity.
Qed.

Lemma getUserName_spec identityStoreId userId s :
  exists v s',
    getUserName identityStoreId userId s = (Normal v, s') /\
    userCache s' !! userId = Some v /\
    cachesGrow s s' /\ noListing s s'.
Proof.
  destruct (userCache s !! userId) as [v|] eqn:Hc.
  - exists v, s. rewrite (getUserName_hit _ _ _ _ Hc).
    repeat split; auto using noListing_refl; reflexivity.
  - rewrite (getUserName_miss _ _ _ Hc).
    destruct (describeUserWithRetry_spec identityStoreId userId s)
      as (Hfuel & (Hu & Hg & Hm) & Hl & _).
    destruct (describeUserWithRetry identityStoreId userId s) as [[o | e |] s1];
      cbn [fst snd] in *; [| |congruence].
    all: match goal with |- context [getUserName_settled _ ?r _] =>
           destruct (getUserName_settled_spec userId r s1)
             as (s' & -> & Hu' & Hg' & Hm' & Hc' & _) end.
    all: eexists _, s'; split; [reflexivity|].
    all: split; [rewrite Hu'; apply lookup_insert_eq|].
    all: split; [|destruct Hl as (d & Hd & Hr); exists d; split; [congruence|assumption]].
    all: unfold cachesGrow; rewrite Hu', Hg', Hm', Hu, Hg, Hm.
    all: repeat split; try reflexivity; apply insert_subseteq; assumption.
Qed.

(** *** [getGroupName] *)

Lemma getGroupName_hit identityStoreId groupId s v :
  groupCache s !! groupId = Some v ->
  getGroupName identityStoreId groupId s = (Normal v, s).
Proof. intros H. unfold getGroupName, bind, groupCache_get. now rewrite H. Qed.

Lemma getGroupName_miss identityStoreId groupId s :
  groupCache s !! groupId = None ->
  getGroupName identityStoreId groupId s =
  match describeGroupWithRetry identityStoreId groupId s with
  | (Normal response, s1) => getGroupName_settled groupId (inr response) s1
  | (Throws error, s1) => getGroupName_settled groupId (inl error) s1
  | (OutOfFuel, s1) => (OutOfFuel, s1)
  end.
Proof.
  intros H. unfold getGroupName, bind, groupCache_get, attempt. rewrite H.
  destruct (describeGroupWithRetry identityStoreId groupId s) as [[o | e |] s1]; reflexivity.
Qed.

Lemma getGroupName_settled_spec groupId r s :
  exists s',
    getGroupName_settled groupId r s = (Normal (settledGroupName groupId r), s') /\
    groupCache s' = <[groupId := settledGroupName groupId r]> (groupCache s) /\
    userCache s' = userCache s /\ groupMembersCache s' = groupMembersCache s /\
    calls s' = calls s /\ world s' = world s /\
    consoleErrors s' = consoleErrors s ++
      match r with
      | inl error =>
          if String.eqb (name error) ResourceNotFoundException then []
          else [("Error fetching group " +:+ groupId +:+ ":", error)]
      | inr _ => []
      end.
Proof.
  destruct r as [error | response]; cbn.
  - unfold bind, when, console_error, groupCache_set, ret.
    destruct (String.eqb (name error) ResourceNotFoundException); cbn;
      eexists; (split; [reflexivity|]); cbn; rewrite ?app_nil_r; repeat split; reflexivity.
  - unfold bind, groupCache_set, ret. cbn.
    eexists; (split; [reflexivity|]); cbn; rewrite ?app_nil_r; repeat split; reflexivity.
Qed.

Lemma getGroupName_spec identityStoreId groupId s :
  exists v s',
    getGroupName identityStoreId groupId s = (Normal v, s') /\
    groupCache s' !! groupId = Some v /\
    cachesGrow s s' /\ noListing s s' /\
    groupMembersCache s' = groupMembersCache s /\ userCache s' = userCache s.
Proof.
  destruct (groupCache s !! groupId) as [v|] eqn:Hc.
  - exists v, s. rewrite (getGroupName_hit _ _ _ _ Hc).
    repeat split; auto using noListing_refl; reflexivity.
  - rewrite (getGroupName_miss _ _ _ Hc).
    destruct (describeGroupWithRetry_spec identityStoreId groupId s)
      as (Hfuel & (Hu & Hg & Hm) & Hl & _).
    destruct (describeGroupWithRetry identityStoreId groupId s) as [[o | e |] s1];
      cbn [fst snd] in *; [| |congruence].
    all: match goal with |- context [getGroupName_settled _ ?r _] =>
           destruct (getGroupName_settled_spec groupId r s1)
             as (s' & -> & Hg' & Hu' & Hm' & Hc' & _) end.
    all: eexists _, s'; split; [reflexivity|].
    all: split; [rewrite Hg'; apply lookup_insert_eq|].
    all: split; [|split; [destruct Hl as (d & Hd & Hr); exists d; split; [congruence|assumption]
                         | split; congruence]].
    all: unfold cachesGrow; rewrite Hu', Hg', Hm', Hu, Hg, Hm.
    all: repeat split; try reflexivity; apply insert_subseteq; assumption.
Qed.

End ResolverLemmas.

(** ** Group membership *)

Section MembersLemmas.
Context {env : Environment}.
Implicit Types s : State env.

Lemma listGroupMembershipsLoop_step fuel identityStoreId groupId members nextToken s :
  listGroupMembershipsLoop (S fuel) identityStoreId groupId members nextToken s =
  match sendListGroupMemberships
          {| lgm_IdentityStoreId := identityStoreId; lgm_GroupId := groupId;
             lgm_NextToken := nextToken |} s with
  | (Normal response, s1) =>
      if truthy (lgm_out_NextToken response)
      then listGroupMembershipsLoop fuel identityStoreId groupId
             (members ++ memberUserIds response) (lgm_out_NextToken response) s1
      else (Normal (members ++ memberUserIds response, None), s1)
  | (Throws error, s1) => (Normal (members, Some error), s1)
  | (OutOfFuel, s1) => (OutOfFuel, s1)
  end.
Proof.
  cbn [listGroupMembershipsLoop]. unfold bind at 1. unfold attempt.
  destruct (sendListGroupMemberships _ s) as [[o | e |] s1]; try reflexivity.
  destruct (truthy (lgm_out_NextToken o)); reflexivity.
Qed.

Lemma listGroupMembershipsLoop_frame fuel identityStoreId groupId :
  forall members nextToken s,
    lookupFrame s (snd (listGroupMembershipsLoop fuel identityStoreId groupId
                          members nextToken s)) /\
    forall e, fst (listGroupMembershipsLoop fuel identityStoreId groupId
                     members nextToken s) <> Throws e.
Proof.
  induction fuel as [|fuel IH]; intros members nextToken s.
  - cbn. split; [apply lookupFrame_refl | discriminate].
  - rewrite listGroupMembershipsLoop_step.
    destruct (sendListGroupMemberships_spec
                {| lgm_IdentityStoreId := identityStoreId; lgm_GroupId := groupId;
                   lgm_NextToken := nextToken |} s) as (_ & Ha & Hb & Hc).
    assert (Hf : lookupFrame s (snd (sendListGroupMemberships
                {| lgm_IdentityStoreId := identityStoreId; lgm_GroupId := groupId;
                   lgm_NextToken := nextToken |} s))) by (repeat split; auto; apply Ha).
    destruct (sendListGroupMemberships _ s) as [[o | e |] s1]; cbn [fst snd] in *;
      try (split; [assumption | discriminate]).
    destruct (truthy (lgm_out_NextToken o)); cbn [fst snd];
      try (split; [assumption | discriminate]).
    destruct (IH (members ++ memberUserIds o) (lgm_out_NextToken o) s1) as [H1 H2].
    split; [eapply lookupFrame_trans; eauto | assumption].
Qed.

Lemma getGroupMembers_hit fuel identityStoreId groupId s v :
  groupMembersCache s !! groupId = Some v ->
  getGroupMembers fuel identityStoreId groupId s = (Normal v, s).
Proof. intros H. unfold getGroupMembers, bind, groupMembersCache_get. now rewrite H. Qed.

Lemma getGroupMembers_miss fuel identityStoreId groupId s :
  groupMembersCache s !! groupId = None ->
  getGroupMembers fuel identityStoreId groupId s =
  match listGroupMembershipsLoop fuel identityStoreId groupId [] None s with
  | (Normal r, s1) => getGroupMembers_settled groupId r s1
  | (Throws error, s1) => (Throws error, s1)
  | (OutOfFuel, s1) => (OutOfFuel, s1)
  end.
Proof.
  intros H. unfold getGroupMembers, bind, groupMembersCache_get. rewrite H.
  destruct (listGroupMembershipsLoop fuel identityStoreId groupId [] None s)
    as [[o | e |] s1]; reflexivity.
Qed.

Lemma getGroupMembers_settled_spec groupId members thrown s :
  exists s',
    getGroupMembers_settled groupId (members, thrown) s = (Normal members, s') /\
    groupMembersCache s' = <[groupId := members]> (groupMembersCache s) /\
    userCache s' = userCache s /\ groupCache s' = groupCache s /\
    calls s' = calls s /\ world s' = world s /\
    consoleErrors s' = consoleErrors s ++
      match thrown with
      | Some error =>
          if String.eqb (name error) ResourceNotFoundException then []
          else [("Error fetching group members for " +:+ groupId +:+ ":", error)]
      | None => []
      end.
Proof.
  unfold getGroupMembers_settled, bind, when, console_error, groupMembersCache_set, ret.
  destruct thrown as [error|]; cbn.
  - destruct (String.eqb (name error) ResourceNotFoundException); cbn;
      eexists; (split; [reflexivity|]); cbn; rewrite ?app_nil_r; repeat split; reflexivity.
  - eexists; (split; [reflexivity|]); cbn; rewrite ?app_nil_r; repeat split; reflexivity.
Qed.

Lemma getGroupMembers_spec fuel identityStoreId groupId s r s' :
  getGroupMembers fuel identityStoreId groupId s = (r, s') ->
  cachesGrow s s' /\ noListing s s' /\
  userCache s' = userCache s /\ groupCache s' = groupCache s /\
  (r = OutOfFuel \/
   exists members, r = Normal members /\ groupMembersCache s' !! groupId = Some members).
Proof.
  destruct (groupMembersCache s !! groupId) as [v|] eqn:Hc.
  - rewrite (getGroupMembers_hit _ _ _ _ _ Hc). intros [= <- <-].
    repeat split; auto using noListing_refl; try reflexivity. right. eauto.
  - rewrite (getGroupMembers_miss _ _ _ _ Hc).
    destruct (listGroupMembershipsLoop_frame fuel identityStoreId groupId [] None s)
      as [((Hu & Hg & Hm) & Hl & _) Hthrow].
    destruct (listGroupMembershipsLoop fuel identityStoreId groupId [] None s)
      as [[[members thrown] | e |] s1]; cbn [fst snd] in *.
    + destruct (getGroupMembers_settled_spec groupId members thrown s1)
        as (s2 & -> & Hm' & Hu' & Hg' & Hc' & _).
      intros [= <- <-]. split; [|split; [|split; [|split]]]; try congruence.
      * unfold cachesGrow. rewrite Hu', Hg', Hm', Hu, Hg, Hm.
        repeat split; try reflexivity. apply insert_subseteq; assumption.
      * destruct Hl as (d & Hd & Hr). exists d. split; [congruence|assumption].
      * right. exists members. split; [reflexivity|]. rewrite Hm'. apply lookup_insert_eq.
    + exfalso. now apply (Hthrow e).
    + intros [= <- <-]. split; [|split; [|split; [|split]]]; auto.
      unfold cachesGrow. rewrite Hu, Hg, Hm. repeat split; reflexivity.
Qed.

End MembersLemmas.

(** ** Calls in flight *)

Section InFlightLemmas.
Context {env : Environment}.
Implicit Types s : State env.

Lemma keepsKeys_refl s : keepsKeys s s.
Proof. intros k. auto. Qed.

Lemma keepsKeys_trans s1 s2 s3 : keepsKeys s1 s2 -> keepsKeys s2 s3 -> keepsKeys s1 s3.
Proof.
  intros H12 H23 k. destruct (H12 k) as (a & b & c), (H23 k) as (d & e & f). auto.
Qed.

Lemma sameCaches_keepsKeys s s' : sameCaches s s' -> keepsKeys s s'.
Proof. intros (a & b & c) k. rewrite a, b, c. auto. Qed.

Lemma insert_is_Some {V} (m : gmap string V) i x k :
  is_Some (m !! k) -> is_Some (<[i := x]> m !! k).
Proof. intros H. rewrite lookup_insert. case_decide; eauto. Qed.

Lemma stepResolution_keepsKeys fuel identityStoreId c s :
  keepsKeys s (snd (stepResolution fuel identityStoreId c s)).
Proof.
  destruct c as [userId [| r | v] | groupId [| r | v] | groupId [| r | v]];
    cbn [stepResolution]; try apply keepsKeys_refl.
  - unfold bind at 1, userCache_get.
    destruct (userCache s !! userId); [apply keepsKeys_refl|].
    unfold bind, attempt.
    destruct (describeUserWithRetry_spec identityStoreId userId s) as (_ & Hs & _).
    destruct (describeUserWithRetry identityStoreId userId s) as [[o | e |] s1];
      cbn [snd] in *; now apply sameCaches_keepsKeys.
  - unfold bind.
    destruct (getUserName_settled_spec userId r s) as (s' & -> & Hu & Hg & Hm & _).
    cbn [snd ret]. intros k. rewrite Hu, Hg, Hm. auto using insert_is_Some.
  - unfold bind at 1, groupCache_get.
    destruct (groupCache s !! groupId); [apply keepsKeys_refl|].
    unfold bind, attempt.
    destruct (describeGroupWithRetry_spec identityStoreId groupId s) as (_ & Hs & _).
    destruct (describeGroupWithRetry identityStoreId groupId s) as [[o | e |] s1];
      cbn [snd] in *; now apply sameCaches_keepsKeys.
  - unfold bind.
    destruct (getGroupName_settled_spec groupId r s) as (s' & -> & Hg & Hu & Hm & _).
    cbn [snd ret]. intros k. rewrite Hu, Hg, Hm. auto using insert_is_Some.
  - unfold bind at 1, groupMembersCache_get.
    destruct (groupMembersCache s !! groupId); [apply keepsKeys_refl|].
    unfold bind.
    destruct (listGroupMembershipsLoop_frame fuel identityStoreId groupId [] None s)
      as [(Hs & _) _].
    destruct (listGroupMembershipsLoop fuel identityStoreId groupId [] None s)
      as [[o | e |] s1]; cbn [snd] in *; now apply sameCaches_keepsKeys.
  - unfold bind. destruct r as [members thrown].
    destruct (getGroupMembers_settled_spec groupId members thrown s)
      as (s' & -> & Hm & Hu & Hg & _).
    cbn [snd ret]. intros k. rewrite Hu, Hg, Hm. auto using insert_is_Some.
Qed.

Lemma runSchedule_keepsKeys fuel identityStoreId schedule : forall pool s,
  keepsKeys s (snd (runSchedule fuel identityStoreId schedule pool s)).
Proof.
  induction schedule as [|i schedule IH]; intros pool s; cbn [runSchedule].
  - apply keepsKeys_refl.
  - destruct (pool !! i) as [c|]; [|apply IH].
    unfold bind. pose proof (stepResolution_keepsKeys fuel identityStoreId c s) as Hstep.
    destruct (stepResolution fuel identityStoreId c s) as [[c' | e |] s1];
      cbn [snd] in *; try assumption.
    eapply keepsKeys_trans; [exact Hstep | apply IH].
Qed.

(** A call that runs its two stretches with nothing in between is the
    resolver itself. *)
Lemma runSchedule_alone_user fuel identityStoreId userId s :
  runSchedule fuel identityStoreId [0; 0] [UserNameCall userId NotStarted] s
  = bind (getUserName identityStoreId userId)
         (fun v => ret [UserNameCall userId (Returned v)]) s.
Proof.
  cbn [runSchedule lookup list_lookup stepResolution].
  unfold getUserName, bind, userCache_get, attempt, ret.
  destruct (userCache s !! userId) as [v|]; [reflexivity|].
  destruct (describeUserWithRetry identityStoreId userId s) as [[o | e |] s1];
    cbv beta iota; cbn [runSchedule lookup list_lookup insert list_insert stepResolution];
    unfold bind, ret; try reflexivity.
  all: match goal with |- context [getUserName_settled ?u ?r ?st] =>
         destruct (getUserName_settled u r st) as [[? | ? |] ?]; reflexivity end.
Qed.

Lemma runSchedule_alone_group fuel identityStoreId groupId s :
  runSchedule fuel identityStoreId [0; 0] [GroupNameCall groupId NotStarted] s
  = bind (getGroupName identityStoreId groupId)
         (fun v => ret [GroupNameCall groupId (Returned v)]) s.
Proof.
  cbn [runSchedule lookup list_lookup stepResolution].
  unfold getGroupName, bind, groupCache_get, attempt, ret.
  destruct (groupCache s !! groupId) as [v|]; [reflexivity|].
  destruct (describeGroupWithRetry identityStoreId groupId s) as [[o | e |] s1];
    cbv beta iota; cbn [runSchedule lookup list_lookup insert list_insert stepResolution];
    unfold bind, ret; try reflexivity.
  all: match goal with |- context [getGroupName_settled ?u ?r ?st] =>
         destruct (getGroupName_settled u r st) as [[? | ? |] ?]; reflexivity end.
Qed.

Lemma runSchedule_alone_members fuel identityStoreId groupId s :
  runSchedule fuel identityStoreId [0; 0] [GroupMembersCall groupId NotStarted] s
  = bind (getGroupMembers fuel identityStoreId groupId)
         (fun v => ret [GroupMembersCall groupId (Returned v)]) s.
Proof.
  cbn [runSchedule lookup list_lookup stepResolution].
  unfold getGroupMembers, bind, groupMembersCache_get, ret.
  destruct (groupMembersCache s !! groupId) as [v|]; [reflexivity|].
  destruct (listGroupMembershipsLoop fuel identityStoreId groupId [] None s)
    as [[r | e |] s1];
    cbv beta iota; cbn [runSchedule lookup list_lookup insert list_insert stepResolution];
    unfold bind, ret; try reflexivity.
  all: match goal with |- context [getGroupMembers_settled ?u ?r ?st] =>
         destruct (getGroupMembers_settled u r st) as [[? | ? |] ?]; reflexivity end.
Qed.

End InFlightLemmas.

(** ** The rows of a reference *)

Section AssignmentLemmas.
Context {env : Environment}.
Implicit Types s : State env.

Lemma grow_lookup {V} (m1 m2 : gmap string V) k :
  m1 ⊆ m2 -> is_Some (m1 !! k) -> m2 !! k = m1 !! k.
Proof. intros Hsub [v Hv]. rewrite Hv. eapply lookup_weaken; eauto. Qed.

Lemma expectedRows_stable s s' accountId permissionSetName a :
  cachesGrow s s' -> resolvedIn s a ->
  expectedRows s' accountId permissionSetName a
  = expectedRows s accountId permissionSetName a /\ resolvedIn s' a.
Proof.
  intros (Hu & Hg & Hm) [HU HG].
  assert (Hmem : isGroupRef a = true -> resolvedMembers s' a = resolvedMembers s a).
  { intros Hgr. destruct (HG Hgr) as (_ & Hms & _). unfold resolvedMembers.
    now rewrite (grow_lookup _ _ _ Hm Hms). }
  split.
  - unfold expectedRows.
    destruct (isUserRef a) eqn:Hur.
    + unfold resolvedUserName. now rewrite (grow_lookup _ _ _ Hu (HU eq_refl)).
    + destruct (isGroupRef a) eqn:Hgr; [|reflexivity].
      destruct (HG eq_refl) as (Hgn & Hms & Hall).
      rewrite (Hmem eq_refl). unfold resolvedGroupName.
      rewrite (grow_lookup _ _ _ Hg Hgn).
      apply map_ext_in. intros m Hin. unfold resolvedUserName.
      rewrite Forall_forall in Hall.
      rewrite (grow_lookup _ _ _ Hu (Hall m ltac:(now apply list_elem_of_In))).
      reflexivity.
  - split.
    + intros Hur. rewrite (grow_lookup _ _ _ Hu (HU Hur)). auto.
    + intros Hgr. destruct (HG Hgr) as (Hgn & Hms & Hall).
      rewrite (grow_lookup _ _ _ Hg Hgn), (grow_lookup _ _ _ Hm Hms), (Hmem Hgr).
      repeat split; auto.
      eapply Forall_impl; [exact Hall|]. intros m Hs. cbn in Hs.
      now rewrite (grow_lookup _ _ _ Hu Hs).
Qed.

Lemma forOf_app {A B} (body : B -> A -> M env B) xs ys acc s :
  forOf body (xs ++ ys) acc s =
  match forOf body xs acc s with
  | (Normal acc', s1) => forOf body ys acc' s1
  | (Throws e, s1) => (Throws e, s1)
  | (OutOfFuel, s1) => (OutOfFuel, s1)
  end.
Proof.
  revert acc s. induction xs as [|x xs IH]; intros acc s; cbn; [reflexivity|].
  unfold bind. destruct (body acc x s) as [[acc1 | e |] s1]; auto.
Qed.

(** The loop of lines 367-382 adds one row per member. *)
Lemma forOf_pushMemberRow identityStoreId accountId permissionSetName gname members :
  forall assignments s,
  exists s',
    forOf (pushMemberRow identityStoreId accountId permissionSetName gname)
          members assignments s
    = (Normal (assignments ++
               map (fun memberId =>
                      {| accountNumber := accountId; accountName := EmptyString;
                         username := resolvedUserName s' memberId;
                         permissionSetName := permissionSetName;
                         assignmentType := GROUP; groupName := Some gname |})
                   members), s') /\
    cachesGrow s s' /\ noListing s s' /\
    groupCache s' = groupCache s /\ groupMembersCache s' = groupMembersCache s /\
    Forall (fun m => is_Some (userCache s' !! m)) members.
Proof.
  induction members as [|m members IH]; intros assignments s.
  - exists s. cbn. rewrite app_nil_r.
    repeat split; auto using noListing_refl; try reflexivity.
  - cbn [forOf]. unfold bind at 1. unfold pushMemberRow at 1. unfold bind at 1.
    destruct (getUserName_spec identityStoreId m s) as (v & s1 & Hrun & Hv & Hgrow & Hl).
    rewrite Hrun. cbn [ret].
    destruct (IH (assignments ++
                  [ {| accountNumber := accountId; accountName := EmptyString;
                       username := v; permissionSetName := permissionSetName;
                       assignmentType := GROUP; groupName := Some gname |} ]) s1)
      as (s' & Hrun' & Hgrow' & Hl' & Hg' & Hm' & Hall).
    exists s'. rewrite Hrun'.
    assert (Hv' : userCache s' !! m = Some v).
    { destruct Hgrow' as (Hu & _). eapply lookup_weaken; eauto. }
    split.
    + rewrite <- app_assoc. cbn. unfold resolvedUserName at 2. rewrite Hv'. reflexivity.
    + split; [eapply cachesGrow_trans; eauto|].
      split; [eapply noListing_trans; eauto|].
      assert (Hgm : groupCache s1 = groupCache s /\ groupMembersCache s1 = groupMembersCache s).
      { destruct (userCache s !! m) as [v0|] eqn:Hc.
        - rewrite (getUserName_hit _ _ _ _ Hc) in Hrun. now injection Hrun as _ <-.
        - rewrite (getUserName_miss _ _ _ Hc) in Hrun.
          destruct (describeUserWithRetry_spec identityStoreId m s)
            as (Hf & (_ & Hg0 & Hm0) & _).
          destruct (describeUserWithRetry identityStoreId m s) as [[o | e |] s0];
            cbn [fst snd] in *; [| |congruence].
          all: match type of Hrun with getUserName_settled _ ?r _ = _ =>
                 destruct (getUserName_settled_spec m r s0) as (s2 & Hr2 & _ & Hg2 & Hm2 & _) end.
          all: rewrite Hr2 in Hrun; injection Hrun as _ <-; split; congruence. }
      destruct Hgm. split; [congruence|]. split; [congruence|].
      constructor; [eauto | assumption].
Qed.

End AssignmentLemmas.

(** ** The assignment-gathering loop *)

Section UnitLemmas.
Context {env : Environment}.
Implicit Types s : State env.

Lemma processAssignment_malformed fuel identityStoreId accountId permissionSetName
    assignments a s :
  isMalformed a = true ->
  processAssignment fuel identityStoreId accountId permissionSetName assignments a s
  = (Normal assignments, s).
Proof.
  unfold isMalformed, truthy, processAssignment.
  destruct (PrincipalId a) as [pid|], (PrincipalType a) as [pt|]; try reflexivity.
  rewrite !negb_involutive. intros ->. reflexivity.
Qed.

Lemma processAssignment_spec fuel identityStoreId accountId permissionSetName
    assignments a s r s' :
  processAssignment fuel identityStoreId accountId permissionSetName assignments a s
  = (r, s') ->
  cachesGrow s s' /\ noListing s s' /\
  (r = OutOfFuel \/
   (r = Normal (assignments ++ expectedRows s' accountId permissionSetName a) /\
    resolvedIn s' a)).
Proof.
  destruct (isMalformed a) eqn:Hmal.
  - rewrite processAssignment_malformed by assumption. intros [= <- <-].
    split; [apply cachesGrow_refl|]. split; [apply noListing_refl|]. right.
    unfold expectedRows, resolvedIn, isUserRef, isGroupRef, hasType. rewrite Hmal. cbn.
    rewrite app_nil_r. repeat split; discriminate.
  - unfold processAssignment, expectedRows, resolvedIn, resolvedMembers,
      isUserRef, isGroupRef, hasType, principalIdOf.
    rewrite Hmal. unfold isMalformed, truthy in Hmal.
    destruct (PrincipalId a) as [pid|], (PrincipalType a) as [pt|];
      cbn in Hmal; rewrite ?orb_true_r in Hmal; try discriminate.
    rewrite !negb_involutive in Hmal. rewrite Hmal. cbn [negb andb].
    destruct (String.eqb_spec pt "USER") as [-> | Huser].
    + cbn [String.eqb Ascii.eqb Bool.eqb andb]. unfold bind, ret.
      destruct (getUserName_spec identityStoreId pid s) as (v & s1 & -> & Hv & Hgrow & Hl).
      intros [= <- <-]. split; [assumption|]. split; [assumption|]. right.
      unfold resolvedUserName. rewrite Hv. cbn. split; [reflexivity|].
      split; [eauto | discriminate].
    + destruct (String.eqb pt "GROUP") eqn:Hgroup.
      * unfold bind at 1.
        destruct (getGroupName_spec identityStoreId pid s)
          as (gname & s1 & -> & Hgn & Hgrow1 & Hl1 & _).
        unfold bind at 1.
        destruct (getGroupMembers fuel identityStoreId pid s1) as [rm s2] eqn:Hmem.
        destruct (getGroupMembers_spec _ _ _ _ _ _ Hmem)
          as (Hgrow2 & Hl2 & _ & Hg2 & Hres).
        destruct Hres as [-> | (members & -> & Hcached)].
        { intros [= <- <-]. split; [eapply cachesGrow_trans; eauto|].
          split; [eapply noListing_trans; eauto|]. now left. }
        destruct (forOf_pushMemberRow identityStoreId accountId permissionSetName gname
                    members assignments s2)
          as (s3 & -> & Hgrow3 & Hl3 & Hg3 & Hm3 & Hall).
        intros [= <- <-].
        split; [eapply cachesGrow_trans; [|eauto]; eapply cachesGrow_trans; eauto|].
        split; [eapply noListing_trans; [|eauto]; eapply noListing_trans; eauto|].
        right. unfold resolvedGroupName.
        rewrite Hm3, Hcached, Hg3, Hg2, Hgn. simpl.
        split; [reflexivity|]. split; [discriminate|]. intros _. eauto.
      * intros [= <- <-]. split; [apply cachesGrow_refl|]. split; [apply noListing_refl|].
        right. rewrite app_nil_r. repeat split; discriminate.
Qed.

Lemma forOf_processAssignment_spec fuel identityStoreId accountId permissionSetName page :
  forall assignments s r s',
  forOf (processAssignment fuel identityStoreId accountId permissionSetName)
        page assignments s = (r, s') ->
  cachesGrow s s' /\ noListing s s' /\
  (r = OutOfFuel \/
   (r = Normal (assignments ++ flat_map (expectedRows s' accountId permissionSetName) page) /\
    Forall (resolvedIn s') page)).
Proof.
  induction page as [|a page IH]; intros assignments s r s'.
  - cbn. intros [= <- <-]. split; [apply cachesGrow_refl|]. split; [apply noListing_refl|].
    right. rewrite app_nil_r. auto.
  - cbn [forOf]. unfold bind.
    destruct (processAssignment fuel identityStoreId accountId permissionSetName
                assignments a s) as [r1 s1] eqn:Hone.
    destruct (processAssignment_spec _ _ _ _ _ _ _ _ _ Hone) as (Hgrow1 & Hl1 & Hres).
    destruct Hres as [-> | (-> & Hin)].
    + intros [= <- <-]. auto.
    + intros Hrest. destruct (IH _ _ _ _ Hrest) as (Hgrow2 & Hl2 & Hres2).
      split; [eapply cachesGrow_trans; eauto|].
      split; [eapply noListing_trans; eauto|].
      destruct Hres2 as [-> | (-> & Hall)]; [now left|]. right.
      destruct (expectedRows_stable s1 s' accountId permissionSetName a Hgrow2 Hin)
        as [Heq Hin']. cbn [flat_map]. rewrite Heq, <- app_assoc. auto.
Qed.

(** The retry loop around one page request. *)
Lemma retryLoop_listAccountAssignments i operationName retries remaining :
  forall attempt_ s r s',
  retryLoop remaining attempt_ (sendListAccountAssignments i) operationName retries s
  = (r, s') ->
  sameCaches s s' /\ r <> OutOfFuel /\
  exists delta, calls s' = calls s ++ delta /\
    assignmentRefs delta = match r with Normal response => pageRefs response | _ => [] end.
Proof.
  induction remaining as [|remaining IH]; intros attempt_ s r s'.
  - cbn. intros [= <- <-]. split; [apply sameCaches_refl|]. split; [discriminate|].
    exists []. now rewrite app_nil_r.
  - rewrite retryLoop_step. unfold sendListAccountAssignments at 1.
    destruct (listAccountAssignments env (world s) i) as [[o | e] w] eqn:Hreply; cbn [settle].
    + intros [= <- <-]. split; [repeat split|]. split; [discriminate|].
      eexists. split; [reflexivity|]. cbn. now rewrite app_nil_r.
    + destruct (negb (isRateLimitError e) || Nat.eqb attempt_ retries).
      * intros [= <- <-]. split; [repeat split|]. split; [discriminate|].
        eexists. split; [reflexivity|]. reflexivity.
      * intros Hrun. destruct (IH _ _ _ _ Hrun) as (Hs & Hf & delta & Hd & Hr).
        destruct (backoff_spec operationName attempt_ retries
                    (remoteCall w (CallListAccountAssignments i (Rejected e)) s))
          as (s2 & Hb & _ & Hc2 & _ & Hu2 & Hg2 & Hm2 & _).
        rewrite Hb in Hs, Hd. cbn [snd] in Hs, Hd.
        split; [|split; [assumption|]].
        { destruct Hs as (a & b & c). repeat split; [rewrite a, Hu2 | rewrite b, Hg2
            | rewrite c, Hm2]; reflexivity. }
        exists (CallListAccountAssignments i (Rejected e) :: delta).
        rewrite Hd, Hc2. cbn [calls remoteCall]. rewrite <- app_assoc. split; [reflexivity|].
        cbn. exact Hr.
Qed.

Lemma getAssignmentsLoop_spec fuel instanceArn identityStoreId accountId
    permissionSetArn permissionSetName :
  forall assignments nextToken s r s',
  getAssignmentsLoop fuel instanceArn identityStoreId accountId permissionSetArn
    permissionSetName assignments nextToken s = (r, s') ->
  cachesGrow s s' /\
  forall rows, r = Normal rows ->
    exists delta, calls s' = calls s ++ delta /\
      rows = assignments
             ++ flat_map (expectedRows s' accountId permissionSetName) (assignmentRefs delta) /\
      Forall (resolvedIn s') (assignmentRefs delta).
Proof.
  induction fuel as [|fuel IH]; intros assignments nextToken s r s'.
  - cbn. intros [= <- <-]. split; [apply cachesGrow_refl | discriminate].
  - cbn [getAssignmentsLoop]. unfold bind at 1. unfold retryWithBackoff.
    match goal with |- context [retryLoop ?n ?a ?op ?nm ?rt s] =>
      destruct (retryLoop n a op nm rt s) as [r1 s1] eqn:Hpage end.
    destruct (retryLoop_listAccountAssignments _ _ _ _ _ _ _ _ Hpage)
      as (Hsame1 & Hfuel1 & delta1 & Hd1 & Hr1).
    pose proof (sameCaches_grow _ _ Hsame1) as Hgrow1.
    destruct r1 as [response | e |]; [| intros [= <- <-]; split; [assumption|discriminate]
                                      | congruence].
    unfold bind at 1.
    match goal with |- context [match ?m s1 with _ => _ end] =>
      destruct (m s1) as [r2 s2] eqn:Hrows end.
    assert (Hpagespec : cachesGrow s1 s2 /\ noListing s1 s2 /\
              (r2 = OutOfFuel \/
               (r2 = Normal (assignments
                             ++ flat_map (expectedRows s2 accountId permissionSetName)
                                         (pageRefs response)) /\
                Forall (resolvedIn s2) (pageRefs response)))).
    { unfold pageRefs. destruct (AccountAssignments response) as [page|].
      - eapply forOf_processAssignment_spec; eauto.
      - injection Hrows as <- <-. split; [apply cachesGrow_refl|].
        split; [apply noListing_refl|]. right. cbn. rewrite app_nil_r. auto. }
    destruct Hpagespec as (Hgrow2 & (delta2 & Hd2 & Hr2) & Hres).
    destruct Hres as [-> | (-> & Hall)].
    { intros [= <- <-]. split; [eapply cachesGrow_trans; eauto | discriminate]. }
    assert (Hhere : exists delta, calls s2 = calls s ++ delta /\
              assignmentRefs delta = pageRefs response).
    { exists (delta1 ++ delta2). rewrite Hd2, Hd1, <- app_assoc, assignmentRefs_app, Hr1, Hr2.
      now rewrite app_nil_r. }
    destruct Hhere as (delta & Hd & Hr).
    destruct (truthy (laa_out_NextToken response)).
    + intros Hloop. destruct (IH _ _ _ _ _ Hloop) as (Hgrow3 & Hrest).
      split; [eapply cachesGrow_trans; [|eauto]; eapply cachesGrow_trans; eauto|].
      intros rows ->. destruct (Hrest _ eq_refl) as (delta3 & Hd3 & Hrows3 & Hall3).
      exists (delta ++ delta3). rewrite Hd3, Hd, <- app_assoc. split; [reflexivity|].
      rewrite assignmentRefs_app, Hr, flat_map_app, Forall_app.
      assert (Hstable : flat_map (expectedRows s' accountId permissionSetName)
                          (pageRefs response)
                        = flat_map (expectedRows s2 accountId permissionSetName)
                            (pageRefs response) /\
                        Forall (resolvedIn s') (pageRefs response)).
      { clear - Hall Hgrow3. induction Hall as [|a l Ha Hl IHl]; [auto|].
        destruct IHl as [E F].
        destruct (expectedRows_stable s2 s' accountId permissionSetName a Hgrow3 Ha) as [E1 F1].
        cbn. rewrite E, E1. auto. }
      destruct Hstable as [E F]. rewrite E, Hrows3, <- app_assoc. auto.
    + intros [= <- <-]. split; [eapply cachesGrow_trans; eauto|].
      intros rows [= <-]. exists delta. rewrite Hr. auto.
Qed.

End UnitLemmas.

(** ** Fuel *)

Section Fuel.
Context {env : Environment}.

Lemma completesAs_refl {A} (m : M env A) : completesAs m m.
Proof. intros s r s' H _. exact H. Qed.

Lemma completesAs_bind {A B} (m m' : M env A) (k k' : A -> M env B) :
  completesAs m m' -> (forall a, completesAs (k a) (k' a)) ->
  completesAs (bind m k) (bind m' k').
Proof.
  intros Hm Hk s r s'. unfold bind.
  destruct (m s) as [[a | e |] s1] eqn:Hrun.
  - intros Hrest Hr. rewrite (Hm _ _ _ Hrun ltac:(discriminate)). now apply Hk.
  - intros [= <- <-] _. now rewrite (Hm _ _ _ Hrun ltac:(discriminate)).
  - intros [= <- <-] Hr. congruence.
Qed.

Lemma completesAs_forOf {A B} (body body' : B -> A -> M env B) xs :
  (forall acc x, completesAs (body acc x) (body' acc x)) ->
  forall acc, completesAs (forOf body xs acc) (forOf body' xs acc).
Proof.
  intros Hbody. induction xs as [|x xs IH]; intros acc; cbn [forOf].
  - apply completesAs_refl.
  - apply completesAs_bind; auto.
Qed.

Lemma listGroupMembershipsLoop_fuel identityStoreId groupId fuel : forall fuel',
  fuel <= fuel' -> forall members nextToken,
  completesAs (env := env) (listGroupMembershipsLoop fuel identityStoreId groupId members nextToken)
              (listGroupMembershipsLoop fuel' identityStoreId groupId members nextToken).
Proof.
  induction fuel as [|fuel IH]; intros fuel' Hle members nextToken.
  - intros s r s' [= <- <-] H. congruence.
  - destruct fuel' as [|fuel']; [lia|].
    cbn [listGroupMembershipsLoop]. apply completesAs_bind; [apply completesAs_refl|].
    intros [error | response]; [apply completesAs_refl|].
    destruct (truthy (lgm_out_NextToken response)); [|apply completesAs_refl].
    apply IH. lia.
Qed.

Lemma getGroupMembers_fuel identityStoreId groupId fuel fuel' :
  fuel <= fuel' ->
  completesAs (env := env) (getGroupMembers fuel identityStoreId groupId)
              (getGroupMembers fuel' identityStoreId groupId).
Proof.
  intros Hle. unfold getGroupMembers. apply completesAs_bind; [apply completesAs_refl|].
  intros [v|]; [apply completesAs_refl|].
  apply completesAs_bind; [now apply listGroupMembershipsLoop_fuel | intros; apply completesAs_refl].
Qed.

Lemma processAssignment_fuel identityStoreId accountId permissionSetName fuel fuel' :
  fuel <= fuel' -> forall assignments a,
  completesAs (env := env)
    (processAssignment fuel identityStoreId accountId permissionSetName assignments a)
    (processAssignment fuel' identityStoreId accountId permissionSetName assignments a).
Proof.
  intros Hle assignments a. unfold processAssignment.
  destruct (PrincipalId a) as [pid|], (PrincipalType a) as [pt|];
    try apply completesAs_refl.
  destruct (String.eqb pid EmptyString || String.eqb pt EmptyString);
    [apply completesAs_refl|].
  destruct (String.eqb pt "USER"); [apply completesAs_refl|].
  destruct (String.eqb pt "GROUP"); [|apply completesAs_refl].
  apply completesAs_bind; [apply completesAs_refl|]. intros gname.
  apply completesAs_bind; [now apply getGroupMembers_fuel | intros; apply completesAs_refl].
Qed.

Lemma getAssignmentsLoop_fuel instanceArn identityStoreId accountId permissionSetArn
    permissionSetName fuel : forall fuel',
  fuel <= fuel' -> forall assignments nextToken,
  completesAs (env := env)
    (getAssignmentsLoop fuel instanceArn identityStoreId accountId permissionSetArn
       permissionSetName assignments nextToken)
    (getAssignmentsLoop fuel' instanceArn identityStoreId accountId permissionSetArn
       permissionSetName assignments nextToken).
Proof.
  induction fuel as [|fuel IH]; intros fuel' Hle assignments nextToken.
  - intros s r s' [= <- <-] H. congruence.
  - destruct fuel' as [|fuel']; [lia|].
    cbn [getAssignmentsLoop]. apply completesAs_bind; [apply completesAs_refl|].
    intros response. apply completesAs_bind.
    + destruct (AccountAssignments response) as [page|]; [|apply completesAs_refl].
      apply completesAs_forOf. intros acc x. apply processAssignment_fuel. lia.
    + intros assignments'. destruct (truthy (laa_out_NextToken response));
        [|apply completesAs_refl]. apply IH. lia.
Qed.

Lemma getAssignments_fuel instanceArn identityStoreId accountId permissionSetArn
    permissionSetName fuel fuel' :
  fuel <= fuel' ->
  completesAs (env := env)
    (getAssignments fuel instanceArn identityStoreId accountId permissionSetArn
       permissionSetName)
    (getAssignments fuel' instanceArn identityStoreId accountId permissionSetArn
       permissionSetName).
Proof. intros. unfold getAssignments. now apply getAssignmentsLoop_fuel. Qed.

End Fuel.

(** ** Claims about the resolvers *)

(** Claim C3.  On a cache miss, when the lookup of a user through the retry
    wrapper ends with an error named ResourceNotFoundException, [getUserName]
    returns normally the string made of [Deleted User: ], the id and a closing
    bracket, caches it and prints nothing on the error console; [getGroupName]
    does the same with [Deleted Group: ]. *)
Theorem C3_not_found_becomes_tombstone {env : Environment} (identityStoreId id : string) :
  (forall (s : State env) e s1,
      userCache s !! id = None ->
      describeUserWithRetry identityStoreId id s = (Throws e, s1) ->
      name e = "ResourceNotFoundException" ->
      exists s',
        getUserName identityStoreId id s = (Normal ("[Deleted User: " +:+ id +:+ "]"), s') /\
        userCache s' !! id = Some ("[Deleted User: " +:+ id +:+ "]") /\
        consoleErrors s' = consoleErrors s) /\
  (forall (s : State env) e s1,
      groupCache s !! id = None ->
      describeGroupWithRetry identityStoreId id s = (Throws e, s1) ->
      name e = "ResourceNotFoundException" ->
      exists s',
        getGroupName identityStoreId id s = (Normal ("[Deleted Group: " +:+ id +:+ "]"), s') /\
        groupCache s' !! id = Some ("[Deleted Group: " +:+ id +:+ "]") /\
        consoleErrors s' = consoleErrors s).
Proof.
  split; intros s e s1 Hmiss Hlookup Hname.
  - rewrite (getUserName_miss _ _ _ Hmiss), Hlookup.
    destruct (describeUserWithRetry_spec identityStoreId id s) as (_ & _ & _ & Hce).
    rewrite Hlookup in Hce. cbn [snd] in Hce.
    destruct (getUserName_settled_spec id (inl e) s1) as (s' & Hrun & Hu & _ & _ & _ & _ & Hc).
    unfold settledUserName, ResourceNotFoundException in Hrun, Hu, Hc.
    rewrite Hname, String.eqb_refl in Hrun, Hu, Hc.
    exists s'. rewrite Hrun, Hu, lookup_insert_eq, Hc, app_nil_r. auto.
  - rewrite (getGroupName_miss _ _ _ Hmiss), Hlookup.
    destruct (describeGroupWithRetry_spec identityStoreId id s) as (_ & _ & _ & Hce).
    rewrite Hlookup in Hce. cbn [snd] in Hce.
    destruct (getGroupName_settled_spec id (inl e) s1) as (s' & Hrun & Hu & _ & _ & _ & _ & Hc).
    unfold settledGroupName, ResourceNotFoundException in Hrun, Hu, Hc.
    rewrite Hname, String.eqb_refl in Hrun, Hu, Hc.
    exists s'. rewrite Hrun, Hu, lookup_insert_eq, Hc, app_nil_r. auto.
Qed.

Lemma C3_not_found_becomes_tombstone_witness :
  (exists s',
      getUserName (env := envDeleted) "d-1" "u-42" (initialState envDeleted 0%nat)
      = (Normal "[Deleted User: u-42]", s') /\
      userCache s' !! "u-42" = Some "[Deleted User: u-42]" /\
      consoleErrors s' = []) /\
  (exists s',
      getGroupName (env := envDeleted) "d-1" "g-123" (initialState envDeleted 0%nat)
      = (Normal "[Deleted Group: g-123]", s') /\
      groupCache s' !! "g-123" = Some "[Deleted Group: g-123]" /\
      consoleErrors s' = []).
Proof.
  split.
  - eapply (proj1 (C3_not_found_becomes_tombstone (env := envDeleted) "d-1" "u-42")
                  (initialState envDeleted 0%nat) notFoundError);
      [reflexivity | vm_compute; reflexivity | reflexivity].
  - eapply (proj2 (C3_not_found_becomes_tombstone (env := envDeleted) "d-1" "g-123")
                  (initialState envDeleted 0%nat) notFoundError);
      [reflexivity | vm_compute; reflexivity | reflexivity].
Defined.

(** Claim C4 as stated fails: a lookup that ends with AccessDeniedException
    (neither throttle nor not-found) is not propagated.  [getUserName] returns
    the raw id, writes it into the user cache, and the next resolution of the
    id is served from the cache without a remote call. *)
Lemma C4_other_error_not_propagated :
  let s0 := initialState envAccessDenied 0%nat in
  let run := getUserName (env := envAccessDenied) "d-1" "u-7" s0 in
  isRateLimitError accessDeniedError = false /\
  name accessDeniedError <> "ResourceNotFoundException" /\
  fst (describeUserWithRetry (env := envAccessDenied) "d-1" "u-7" s0)
    = Throws accessDeniedError /\
  fst run = Normal "u-7" /\
  fst run <> Throws accessDeniedError /\
  userCache (snd run) !! "u-7" = Some "u-7" /\
  getUserName (env := envAccessDenied) "d-1" "u-7" (snd run) = (Normal "u-7", snd run) /\
  length (calls (snd run)) = 1%nat.
Proof.
  cbv zeta. split; [reflexivity|]. split; [discriminate|]. split; [reflexivity|].
  split; [reflexivity|]. split; [discriminate|]. split; [reflexivity|].
  split; [reflexivity|reflexivity].
Qed.

(** Claim C4, amended.  On a cache miss, when the lookup of a user ends with
    an error whose name is not ResourceNotFoundException, [getUserName] does
    not throw: it reports the error on the error console, returns the raw user
    id and caches it under that id, so a later resolution of the id returns
    the raw id from the cache and leaves the state as it is (no remote
    call). *)
Theorem C4_other_error_caches_raw_id {env : Environment}
    (identityStoreId userId : string) (s : State env) e s1 :
  userCache s !! userId = None ->
  describeUserWithRetry identityStoreId userId s = (Throws e, s1) ->
  name e <> "ResourceNotFoundException" ->
  exists s',
    getUserName identityStoreId userId s = (Normal userId, s') /\
    userCache s' = <[userId := userId]> (userCache s) /\
    consoleErrors s' = consoleErrors s ++ [("Error fetching user " +:+ userId +:+ ":", e)] /\
    getUserName identityStoreId userId s' = (Normal userId, s').
Proof.
  intros Hmiss Hlookup Hname.
  rewrite (getUserName_miss _ _ _ Hmiss), Hlookup.
  destruct (describeUserWithRetry_spec identityStoreId userId s)
    as (_ & (Hsu & _) & _ & Hce).
  rewrite Hlookup in Hce, Hsu. cbn [snd] in Hce, Hsu.
  destruct (getUserName_settled_spec userId (inl e) s1)
    as (s' & Hrun & Hu & _ & _ & _ & _ & Hc).
  unfold settledUserName, ResourceNotFoundException in Hrun, Hu, Hc.
  apply String.eqb_neq in Hname. rewrite Hname in Hrun, Hu, Hc.
  exists s'. rewrite Hrun, Hu, Hc, Hce, Hsu. repeat split; auto.
  apply getUserName_hit. rewrite Hu. apply lookup_insert_eq.
Qed.

Lemma C4_other_error_caches_raw_id_witness :
  exists s',
    getUserName (env := envAccessDenied) "d-1" "u-7" (initialState envAccessDenied 0%nat)
      = (Normal "u-7", s') /\
    userCache s' = <["u-7" := "u-7"]> ∅ /\
    consoleErrors s' = [] ++ [("Error fetching user u-7:", accessDeniedError)] /\
    getUserName (env := envAccessDenied) "d-1" "u-7" s' = (Normal "u-7", s').
Proof.
  eapply (C4_other_error_caches_raw_id (env := envAccessDenied) "d-1" "u-7"
            (initialState envAccessDenied 0%nat) accessDeniedError);
    [reflexivity | vm_compute; reflexivity | discriminate].
Defined.

(** Claim C5 at its failing input.  The page request of [getGroupMembers] is
    sent outside the retry wrapper.  When the first request is throttled and
    any later one would succeed with two members, the function makes one call
    only, sleeps for no back-off, reports the throttle on the error console,
    and returns and caches the empty list, where an immediate success returns
    the two members.  The lookup of a user, which is wrapped, returns the same
    name in both environments. *)
Theorem C5_group_listing_is_not_retried :
  let throttled :=
    getGroupMembers (env := envThrottledOnce) 3 "d-1" "g-1"
      (initialState envThrottledOnce 0%nat) in
  let direct :=
    getGroupMembers (env := envMembers) 3 "d-1" "g-1" (initialState envMembers 0%nat) in
  fst direct = Normal ["u-1"; "u-2"] /\
  fst throttled = Normal [] /\
  groupMembersCache (snd throttled) !! "g-1" = Some [] /\
  length (calls (snd throttled)) = 1%nat /\
  timeouts (snd throttled) = [] /\
  consoleErrors (snd throttled)
    = [("Error fetching group members for g-1:", throttlingError)] /\
  fst (getUserName (env := envThrottledOnce) "d-1" "u-1"
         (initialState envThrottledOnce 0%nat)) = Normal "user-u-1" /\
  fst (getUserName (env := envMembers) "d-1" "u-1" (initialState envMembers 0%nat))
    = Normal "user-u-1".
Proof. cbv zeta. repeat split; reflexivity. Qed.

(** ** Claims about a work unit *)

Section Counting.
Context {env : Environment}.
Implicit Types s : State env.

Lemma user_group_exclusive a : isUserRef a = true -> isGroupRef a = false.
Proof.
  unfold isUserRef, isGroupRef, hasType. destruct (isMalformed a); [discriminate|].
  destruct (PrincipalType a) as [t|]; [|discriminate]. cbn.
  intros ->%String.eqb_eq. reflexivity.
Qed.

Lemma length_expectedRows s accountId permissionSetName a :
  length (expectedRows s accountId permissionSetName a) =
  if isUserRef a then 1
  else if isGroupRef a then length (resolvedMembers s a) else 0.
Proof.
  unfold expectedRows. destruct (isUserRef a); [reflexivity|].
  destruct (isGroupRef a); [apply length_map | reflexivity].
Qed.

Lemma length_flat_map_expectedRows s accountId permissionSetName refs :
  length (flat_map (expectedRows s accountId permissionSetName) refs) =
  length (List.filter isUserRef refs)
  + sum_list (map (fun a => length (resolvedMembers s a)) (List.filter isGroupRef refs)).
Proof.
  induction refs as [|a refs IH]; [reflexivity|].
  cbn [flat_map List.filter]. rewrite length_app, length_expectedRows, IH.
  destruct (isUserRef a) eqn:Hu.
  - rewrite (user_group_exclusive a Hu). cbn. lia.
  - destruct (isGroupRef a); cbn; lia.
Qed.

End Counting.

Section MissingGroup.
Context {env : Environment}.
Implicit Types s : State env.

(** The loop over the pages of a listing that the service ends with a
    rejection: it hands back the ids of the pages served and the error. *)
Lemma listGroupMembershipsLoop_rejectedAfter identityStoreId groupId e pages :
  forall fuel members nextToken s,
  rejectedAfter identityStoreId groupId (world s) nextToken pages e ->
  length pages < fuel ->
  exists s1,
    listGroupMembershipsLoop fuel identityStoreId groupId members nextToken s
    = (Normal (members ++ flat_map memberUserIds pages, Some e), s1) /\
    sameCaches s s1 /\ consoleErrors s1 = consoleErrors s /\
    exists delta i, calls s1 = calls s ++ delta /\
                    last delta = Some (CallListGroupMemberships i (Rejected e)).
Proof.
  induction pages as [|page pages IH]; intros fuel members nextToken s Hserved Hfuel.
  - destruct fuel as [|fuel]; [cbn in Hfuel; lia|]. cbn in Hserved.
    rewrite listGroupMembershipsLoop_step. unfold sendListGroupMemberships.
    destruct (listGroupMemberships env (world s) _) as [r w]. cbn in Hserved. subst r.
    cbn [settle]. eexists. split; [now rewrite app_nil_r|].
    split; [repeat split|]. split; [reflexivity|].
    eexists [_], _. split; reflexivity.
  - destruct fuel as [|fuel]; [cbn in Hfuel; lia|]. cbn [length] in Hfuel.
    destruct Hserved as (w1 & Hreply & Htoken & Hrest).
    rewrite listGroupMembershipsLoop_step. unfold sendListGroupMemberships.
    rewrite Hreply. cbn [settle]. rewrite Htoken.
    match goal with |- context [listGroupMembershipsLoop _ _ _ _ _ ?st] =>
      destruct (IH fuel (members ++ memberUserIds page) (lgm_out_NextToken page) st
                  Hrest ltac:(lia))
        as (s1 & Hrun & (Hu & Hg & Hm) & Hc & delta & i & Hd & Hlast) end.
    exists s1. split; [rewrite Hrun; cbn [flat_map]; now rewrite app_assoc|].
    split; [repeat split; assumption|]. split; [assumption|].
    eexists (_ :: delta), i. cbn [calls remoteCall] in Hd.
    split; [rewrite Hd, <- app_assoc; reflexivity|].
    destruct delta; [discriminate | exact Hlast].
Qed.

End MissingGroup.

(** Claim C6 as stated fails when the not-found report comes after a page:
    the group loses its existence while its members are listed.  The first
    page lists u-1 and u-2, the request for the second page is rejected with
    ResourceNotFoundException, and so is the lookup of the name.  The lookup
    of the members returns and caches the two members of the first page, not
    the empty list, and the assignment produces two rows, each carrying the
    tombstone as its group name. *)
Lemma C6_not_found_after_first_page :
  let s0 := initialState envDeletedWhileListed 0%nat in
  let named := getGroupName (env := envDeletedWhileListed) "d-1" "g-1" s0 in
  let listed := getGroupMembers (env := envDeletedWhileListed) 3 "d-1" "g-1" (snd named) in
  let unit := processAssignment (env := envDeletedWhileListed) 3 "d-1" "111111111111"
                "AdminAccess" [] (groupRef "g-1") s0 in
  fst named = Normal "[Deleted Group: g-1]" /\
  last (calls (snd listed))
    = Some (CallListGroupMemberships
              {| lgm_IdentityStoreId := "d-1"; lgm_GroupId := "g-1";
                 lgm_NextToken := Some "page-2" |} (Rejected notFoundError)) /\
  fst listed = Normal ["u-1"; "u-2"] /\
  groupMembersCache (snd listed) !! "g-1" = Some ["u-1"; "u-2"] /\
  fst unit
    = Normal [ {| accountNumber := "111111111111"; accountName := EmptyString;
                  username := "user-u-1"; permissionSetName := "AdminAccess";
                  assignmentType := GROUP;
                  groupName := Some "[Deleted Group: g-1]" |};
               {| accountNumber := "111111111111"; accountName := EmptyString;
                  username := "user-u-2"; permissionSetName := "AdminAccess";
                  assignmentType := GROUP;
                  groupName := Some "[Deleted Group: g-1]" |} ].
Proof. cbv zeta. repeat split; vm_compute; reflexivity. Qed.

(** Claim C6, amended.  For a GROUP assignment whose group is not in the
    group-members cache and whose membership listing the service ends with
    a ResourceNotFoundException, after any number of pages:
    [getGroupMembers] returns the user ids of the pages served before the
    rejection and caches that list under the group id, so the empty list
    when the first request is the one rejected; nothing is printed on the
    error console.  The group name was resolved before and apart from that:
    whatever [getGroupName] returned is in the group-name cache afterwards.
    The assignment adds one row for each member returned and no other row:
    each row carries that group name and the name of its member, so the
    group name is never a row by itself, and with the first request rejected
    no row is added at all. *)
Theorem C6_missing_group_rows {env : Environment} (fuel : nat)
    (identityStoreId accountId setName groupId : string)
    (assignments : list AdminAssignment) (s s1 : State env) (gname : string)
    (pages : list ListGroupMembershipsOutput) (e : JsError) :
  groupId <> EmptyString ->
  getGroupName identityStoreId groupId s = (Normal gname, s1) ->
  groupMembersCache s !! groupId = None ->
  rejectedAfter identityStoreId groupId (world s1) None pages e ->
  name e = "ResourceNotFoundException" ->
  length pages < fuel ->
  let members := flat_map memberUserIds pages in
  exists s2 s',
    getGroupMembers fuel identityStoreId groupId s1 = (Normal members, s2) /\
    groupMembersCache s2 !! groupId = Some members /\
    groupCache s2 !! groupId = Some gname /\
    consoleErrors s2 = consoleErrors s1 /\
    (exists delta i, calls s2 = calls s1 ++ delta /\
                     last delta = Some (CallListGroupMemberships i (Rejected e))) /\
    processAssignment fuel identityStoreId accountId setName assignments
      {| PrincipalId := Some groupId; PrincipalType := Some "GROUP" |} s
    = (Normal (assignments ++
               map (fun memberId =>
                      {| accountNumber := accountId; accountName := EmptyString;
                         username := resolvedUserName s' memberId;
                         permissionSetName := setName;
                         assignmentType := GROUP; groupName := Some gname |})
                   members), s') /\
    Forall (fun m => is_Some (userCache s' !! m)) members /\
    groupMembersCache s' !! groupId = Some members /\
    groupCache s' !! groupId = Some gname /\
    (pages = [] -> members = [] /\ s' = s2).
Proof.
  intros Hid Hname Hmiss Hserved He Hfuel members.
  destruct (getGroupName_spec identityStoreId groupId s)
    as (gname' & s1' & Hrun & Hcached & _ & _ & Hm1 & _).
  rewrite Hname in Hrun. injection Hrun as <- <-.
  assert (Hmiss1 : groupMembersCache s1 !! groupId = None) by congruence.
  destruct (listGroupMembershipsLoop_rejectedAfter identityStoreId groupId e pages
              fuel [] None s1 Hserved Hfuel)
    as (s1' & Hloop & (Hu1 & Hg1 & Hm1') & Hc1 & Hcalls).
  cbn [app] in Hloop. fold members in Hloop.
  destruct (getGroupMembers_settled_spec groupId members (Some e) s1')
    as (s2 & Hset & Hm2 & Hu2 & Hg2 & Hcalls2 & _ & Hc2).
  assert (Hmembers : getGroupMembers fuel identityStoreId groupId s1 = (Normal members, s2)).
  { rewrite (getGroupMembers_miss _ _ _ _ Hmiss1), Hloop. exact Hset. }
  assert (Hcache2 : groupMembersCache s2 !! groupId = Some members).
  { rewrite Hm2. apply lookup_insert_eq. }
  assert (Hname2 : groupCache s2 !! groupId = Some gname) by (rewrite Hg2, Hg1; exact Hcached).
  destruct (forOf_pushMemberRow identityStoreId accountId setName gname members
              assignments s2)
    as (s' & Hrows & _ & _ & Hg3 & Hm3 & Hall).
  exists s2, s'. split; [exact Hmembers|]. split; [exact Hcache2|].
  split; [exact Hname2|]. split.
  { rewrite Hc2, Hc1. unfold ResourceNotFoundException.
    rewrite He, String.eqb_refl. apply app_nil_r. }
  split.
  { destruct Hcalls as (delta & i & Hd & Hlast). exists delta, i.
    split; [congruence | exact Hlast]. }
  split.
  { unfold processAssignment. cbn [PrincipalId PrincipalType].
    apply String.eqb_neq in Hid. rewrite Hid.
    cbn [orb String.eqb Ascii.eqb Bool.eqb andb].
    unfold bind at 1. rewrite Hname. unfold bind at 1. rewrite Hmembers. exact Hrows. }
  split; [exact Hall|]. split; [rewrite Hm3; exact Hcache2|].
  split; [rewrite Hg3; exact Hname2|].
  intros ->. split; [reflexivity|].
  subst members. cbn in Hrows. now injection Hrows.
Qed.

Lemma C6_missing_group_rows_witness :
  let s0 := initialState envDeletedWhileListed 0%nat in
  let s1 := snd (getGroupName (env := envDeletedWhileListed) "d-1" "g-1" s0) in
  let t0 := initialState envDeleted 0%nat in
  let t1 := snd (getGroupName (env := envDeleted) "d-1" "g-123" t0) in
  (exists t2,
    getGroupMembers (env := envDeleted) 1 "d-1" "g-123" t1 = (Normal [], t2) /\
    groupMembersCache t2 !! "g-123" = Some [] /\
    groupCache t2 !! "g-123" = Some "[Deleted Group: g-123]" /\
    consoleErrors t2 = consoleErrors t1 /\
    processAssignment (env := envDeleted) 1 "d-1" "111111111111" "AdminAccess" []
      {| PrincipalId := Some "g-123"; PrincipalType := Some "GROUP" |} t0
    = (Normal [], t2)) /\
  exists s2 s',
    getGroupMembers (env := envDeletedWhileListed) 3 "d-1" "g-1" s1
    = (Normal (flat_map memberUserIds [twoMembersAndMore]), s2) /\
    groupMembersCache s2 !! "g-1" = Some (flat_map memberUserIds [twoMembersAndMore]) /\
    groupCache s2 !! "g-1" = Some "[Deleted Group: g-1]" /\
    consoleErrors s2 = consoleErrors s1 /\
    (exists delta i, calls s2 = calls s1 ++ delta /\
                     last delta
                     = Some (CallListGroupMemberships i (Rejected notFoundError))) /\
    processAssignment (env := envDeletedWhileListed) 3 "d-1" "111111111111"
      "AdminAccess" [] {| PrincipalId := Some "g-1"; PrincipalType := Some "GROUP" |} s0
    = (Normal ([] ++
               map (fun memberId =>
                      {| accountNumber := "111111111111"; accountName := EmptyString;
                         username := resolvedUserName s' memberId;
                         permissionSetName := "AdminAccess";
                         assignmentType := GROUP;
                         groupName := Some "[Deleted Group: g-1]" |})
                   (flat_map memberUserIds [twoMembersAndMore])), s') /\
    Forall (fun m => is_Some (userCache s' !! m))
           (flat_map memberUserIds [twoMembersAndMore]) /\
    groupMembersCache s' !! "g-1" = Some (flat_map memberUserIds [twoMembersAndMore]) /\
    groupCache s' !! "g-1" = Some "[Deleted Group: g-1]" /\
    ([twoMembersAndMore] = [] ->
     flat_map memberUserIds [twoMembersAndMore] = [] /\ s' = s2).
Proof.
  intros s0 s1 t0 t1. split.
  { destruct (C6_missing_group_rows (env := envDeleted) 1 "d-1" "111111111111"
                "AdminAccess" "g-123" [] t0 t1 "[Deleted Group: g-123]" []
                notFoundError)
      as (t2 & t' & Hmembers & Hcached & Hname & Herrors & _ & Hrows & _ & _ & _ & Hnone);
      [discriminate | vm_compute; reflexivity | reflexivity | reflexivity | reflexivity
       | cbn; lia |].
    destruct (Hnone eq_refl) as [_ ->].
    exists t2. repeat split; assumption. }
  apply (C6_missing_group_rows (env := envDeletedWhileListed) 3 "d-1" "111111111111"
           "AdminAccess" "g-1" [] s0 s1 "[Deleted Group: g-1]" [twoMembersAndMore]
           notFoundError).
  - discriminate.
  - vm_compute. reflexivity.
  - reflexivity.
  - cbn. eexists. split; [reflexivity|]. split; reflexivity.
  - reflexivity.
  - cbn. lia.
Defined.

(** ** Claims about the caches and about exhaustion *)

(** Claim C8 as stated fails when two resolutions of one id overlap.  Two
    calls of [getUserName] for the same id both run their first stretch (the
    cache check and, on the miss, the request) before either continuation
    runs; the first lookup succeeds, the second fails with a server error.
    When the first call resumes it caches the name; when the second resumes
    it overwrites the entry with the raw id, and the two calls return
    different values. *)
Lemma C8_overlapping_resolutions_overwrite :
  let s0 := initialState envAliceThenFailure 0%nat in
  let pool := [UserNameCall "u-1" NotStarted; UserNameCall "u-1" NotStarted] in
  fst (runSchedule 1 "d-1" [0; 1] pool s0)
    = Normal [UserNameCall "u-1" (Pending (inr {| UserName := Some "alice" |}));
              UserNameCall "u-1" (Pending (inl internalError))] /\
  userCache (snd (runSchedule 1 "d-1" [0; 1; 0] pool s0)) !! "u-1" = Some "alice" /\
  fst (runSchedule 1 "d-1" [0; 1; 0; 1] pool s0)
    = Normal [UserNameCall "u-1" (Returned "alice");
              UserNameCall "u-1" (Returned "u-1")] /\
  userCache (snd (runSchedule 1 "d-1" [0; 1; 0; 1] pool s0)) !! "u-1" = Some "u-1".
Proof. cbv zeta. repeat split; vm_compute; reflexivity. Qed.

Section CacheLemmas.
Context {env : Environment}.
Implicit Types s : State env.

Lemma getUserName_grow identityStoreId userId s :
  cachesGrow s (snd (getUserName identityStoreId userId s)).
Proof.
  destruct (getUserName_spec identityStoreId userId s) as (v & s' & -> & _ & H & _).
  exact H.
Qed.

Lemma getGroupName_grow identityStoreId groupId s :
  cachesGrow s (snd (getGroupName identityStoreId groupId s)).
Proof.
  destruct (getGroupName_spec identityStoreId groupId s) as (v & s' & -> & _ & H & _).
  exact H.
Qed.

Lemma getGroupMembers_grow fuel identityStoreId groupId s :
  cachesGrow s (snd (getGroupMembers fuel identityStoreId groupId s)).
Proof.
  destruct (getGroupMembers fuel identityStoreId groupId s) as [r s'] eqn:H.
  now destruct (getGroupMembers_spec _ _ _ _ _ _ H).
Qed.

Lemma getAssignments_grow fuel instanceArn identityStoreId accountId permissionSetArn
    permissionSetName s :
  cachesGrow s (snd (getAssignments fuel instanceArn identityStoreId accountId
                       permissionSetArn permissionSetName s)).
Proof.
  unfold getAssignments.
  match goal with |- cachesGrow s (snd ?run) => destruct run as [r s'] eqn:H end.
  now destruct (getAssignmentsLoop_spec _ _ _ _ _ _ _ _ _ _ _ H).
Qed.

End CacheLemmas.

(** Claim C8, amended.  For each of the three caches: a resolution that
    finds the id in its cache returns the cached value and leaves the state
    as it is (no remote call, no write); a resolver or a whole work unit that
    runs to completion without another one in between keeps every entry of
    every cache, under the same key with the same value; hence what one
    resolution of an id returned is what every later resolution returns.
    With calls in flight: a call that starts when the id is in the cache
    returns the cached value in its first stretch, and whatever the schedule
    of the calls, no key of any cache is ever removed. *)
Theorem C8_cache_entries_kept {env : Environment} (fuel : nat)
    (identityStoreId id : string) (s : State env) :
  ((forall v, userCache s !! id = Some v ->
      getUserName identityStoreId id s = (Normal v, s)) /\
   (forall v, groupCache s !! id = Some v ->
      getGroupName identityStoreId id s = (Normal v, s)) /\
   (forall v, groupMembersCache s !! id = Some v ->
      getGroupMembers fuel identityStoreId id s = (Normal v, s))) /\
  (cachesGrow s (snd (getUserName identityStoreId id s)) /\
   cachesGrow s (snd (getGroupName identityStoreId id s)) /\
   cachesGrow s (snd (getGroupMembers fuel identityStoreId id s)) /\
   (forall instanceArn accountId permissionSetArn permissionSetName,
      cachesGrow s (snd (getAssignments fuel instanceArn identityStoreId accountId
                           permissionSetArn permissionSetName s)))) /\
  ((forall v s1 s2, getUserName identityStoreId id s = (Normal v, s1) ->
      cachesGrow s1 s2 -> getUserName identityStoreId id s2 = (Normal v, s2)) /\
   (forall v s1 s2, getGroupName identityStoreId id s = (Normal v, s1) ->
      cachesGrow s1 s2 -> getGroupName identityStoreId id s2 = (Normal v, s2)) /\
   (forall v s1 s2, getGroupMembers fuel identityStoreId id s = (Normal v, s1) ->
      cachesGrow s1 s2 -> getGroupMembers fuel identityStoreId id s2 = (Normal v, s2))) /\
  ((forall v, userCache s !! id = Some v ->
      stepResolution fuel identityStoreId (UserNameCall id NotStarted) s
      = (Normal (UserNameCall id (Returned v)), s)) /\
   (forall v, groupCache s !! id = Some v ->
      stepResolution fuel identityStoreId (GroupNameCall id NotStarted) s
      = (Normal (GroupNameCall id (Returned v)), s)) /\
   (forall v, groupMembersCache s !! id = Some v ->
      stepResolution fuel identityStoreId (GroupMembersCall id NotStarted) s
      = (Normal (GroupMembersCall id (Returned v)), s))) /\
  (forall schedule pool,
      keepsKeys s (snd (runSchedule fuel identityStoreId schedule pool s))).
Proof.
  split; [|split; [|split; [|split]]].
  - split; [|split]; intros v Hv.
    + now apply getUserName_hit.
    + now apply getGroupName_hit.
    + now apply getGroupMembers_hit.
  - split; [apply getUserName_grow|]. split; [apply getGroupName_grow|].
    split; [apply getGroupMembers_grow|]. intros. apply getAssignments_grow.
  - split; [|split]; intros v s1 s2 Hrun (Hu & Hg & Hm).
    + destruct (getUserName_spec identityStoreId id s) as (v' & s1' & Hrun' & Hc & _).
      rewrite Hrun in Hrun'. injection Hrun' as <- <-.
      apply getUserName_hit. eapply lookup_weaken; eauto.
    + destruct (getGroupName_spec identityStoreId id s) as (v' & s1' & Hrun' & Hc & _).
      rewrite Hrun in Hrun'. injection Hrun' as <- <-.
      apply getGroupName_hit. eapply lookup_weaken; eauto.
    + destruct (getGroupMembers_spec _ _ _ _ _ _ Hrun) as (_ & _ & _ & _ & Hres).
      destruct Hres as [|(v' & [= <-] & Hc)]; [discriminate|].
      apply getGroupMembers_hit. eapply lookup_weaken; eauto.
  - split; [|split]; intros v Hv; cbn [stepResolution]; unfold bind.
    + unfold userCache_get. now rewrite Hv.
    + unfold groupCache_get. now rewrite Hv.
    + unfold groupMembersCache_get. now rewrite Hv.
  - intros schedule pool. apply runSchedule_keepsKeys.
Qed.

Lemma C8_cache_entries_kept_witness :
  let s0 := initialState envAliceThenFailure 0%nat in
  let s1 := snd (getUserName (env := envAliceThenFailure) "d-1" "u-1" s0) in
  getUserName (env := envAliceThenFailure) "d-1" "u-1" s0 = (Normal "alice", s1) /\
  getUserName (env := envAliceThenFailure) "d-1" "u-1" s1 = (Normal "alice", s1) /\
  getUserName (env := envAliceThenFailure) "d-1" "u-1"
    (snd (getGroupName (env := envAliceThenFailure) "d-1" "g-1" s1))
  = (Normal "alice", snd (getGroupName (env := envAliceThenFailure) "d-1" "g-1" s1)).
Proof.
  intros s0 s1.
  pose proof (C8_cache_entries_kept (env := envAliceThenFailure) 1 "d-1" "u-1" s0)
    as (_ & _ & (Hagain & _) & _).
  pose proof (C8_cache_entries_kept (env := envAliceThenFailure) 1 "d-1" "g-1" s1)
    as (_ & (_ & Hgrow & _) & _).
  split; [reflexivity|]. split.
  - apply (Hagain "alice" s1 s1); [reflexivity | repeat split; reflexivity].
  - apply (Hagain "alice" s1); [reflexivity | exact Hgrow].
Defined.

(** Claim C9 as stated fails: on a persistently throttled lookup the
    wrapper makes its six invocations and surfaces the service's own
    ThrottlingException, whose message contains neither the operation name
    nor the retry count. *)
Lemma C9_terminal_error_is_unlabelled :
  let run :=
    retryWithBackoff (env := envThrottled)
      (sendDescribeUser {| du_IdentityStoreId := "d-1"; du_UserId := "u-12345678" |})
      "DescribeUser(u-123456...)" MAX_RETRIES (initialState envThrottled 0%nat) in
  fst run = Throws throttlingError /\
  length (calls (snd run)) = 6%nat /\
  includesString "DescribeUser" (message throttlingError) = false /\
  includesString (pretty MAX_RETRIES) (message throttlingError) = false /\
  mentions throttlingError "DescribeUser(u-123456...)" MAX_RETRIES = false.
Proof. cbv zeta. repeat split; reflexivity. Qed.

(** Claim C9, amended.  When every invocation of the operation ends with a
    rate-limit error, the retry wrapper throws the error of the last
    invocation, unchanged, from the state that invocation left.  The operation
    name and the attempt counter are reported before each retry, in the
    warning handed to the logger: with the logger installed there is one
    warning per retry, the k-th naming the operation and attempt [k + 1] of
    [retries]. *)
Theorem C9_exhaustion_rethrows_last_error {env : Environment} {A : Type}
    (operation : M env A) (operationName : string) (retries : nat) (s : State env) :
  (forall s0, exists e s1, operation s0 = (Throws e, s1) /\ isRateLimitError e = true) ->
  (forall s0, globalLogger (snd (operation s0)) = globalLogger s0 /\
              loggerCalls (snd (operation s0)) = loggerCalls s0) ->
  globalLogger s = true ->
  exists e s_last s' warnings,
    retryWithBackoff operation operationName retries s = (Throws e, s') /\
    operation s_last = (Throws e, s') /\
    isRateLimitError e = true /\
    loggerCalls s' = loggerCalls s ++ warnings /\
    length warnings = retries /\
    retryWarnings operationName retries 0 warnings.
Proof.
  intros Hthrottled Hlogger Hset. unfold retryWithBackoff.
  destruct (retryLoop_exhausted operation operationName retries Hthrottled Hlogger
              (S retries) 0%nat s ltac:(lia) ltac:(lia) Hset)
    as (e & s_last & s' & msgs & H1 & H2 & H3 & H4 & H5 & H6).
  exists e, s_last, s', msgs. repeat split; auto. lia.
Qed.

Lemma C9_exhaustion_rethrows_last_error_witness :
  exists e s_last s' warnings,
    retryWithBackoff (env := envThrottled)
      (sendDescribeUser {| du_IdentityStoreId := "d-1"; du_UserId := "u-12345678" |})
      "DescribeUser(u-123456...)" 2 (initialState envThrottled 0%nat) = (Throws e, s') /\
    sendDescribeUser {| du_IdentityStoreId := "d-1"; du_UserId := "u-12345678" |} s_last
      = (Throws e, s') /\
    isRateLimitError e = true /\
    loggerCalls s' = loggerCalls (initialState envThrottled 0%nat) ++ warnings /\
    length warnings = 2%nat /\
    retryWarnings "DescribeUser(u-123456...)" 2 0 warnings.
Proof.
  apply (C9_exhaustion_rethrows_last_error (env := envThrottled)
           (sendDescribeUser {| du_IdentityStoreId := "d-1"; du_UserId := "u-12345678" |})
           "DescribeUser(u-123456...)" 2 (initialState envThrottled 0%nat)).
  - intros s0. exists throttlingError. eexists. split; reflexivity.
  - intros s0. split; reflexivity.
  - reflexivity.
Defined.

(** ** Aggregation *)

Section Aggregation.

Implicit Types accountMap : JsMap (list AdminAssignment).

Lemma jsmap_has_app {V} k (m1 m2 : JsMap V) :
  jsmap_has k (m1 ++ m2) = jsmap_has k m1 || jsmap_has k m2.
Proof. unfold jsmap_has. apply existsb_app. Qed.

Lemma jsmap_alter_last {V} (f : V -> V) k (m : JsMap V) v :
  jsmap_has k m = false ->
  jsmap_alter f k (m ++ [(k, v)]) = m ++ [(k, f v)].
Proof.
  induction m as [|[k' v'] m IH]; cbn.
  - intros _. now rewrite String.eqb_refl.
  - intros H. apply orb_false_iff in H as [Hk Hm]. rewrite Hk. f_equal. auto.
Qed.

(** Results of one account arriving while that account is the last key. *)
Lemma fold_groupResult_last accountId block : forall accountMap rows,
  Forall (fun r => task_accountId (fst r) = accountId) block ->
  jsmap_has accountId accountMap = false ->
  fold_left groupResult block (accountMap ++ [(accountId, rows)])
  = accountMap ++ [(accountId, rows ++ concat (map snd block))].
Proof.
  induction block as [|[task assignments] block IH]; intros accountMap rows Hall Hnew.
  - cbn. now rewrite app_nil_r.
  - pose proof (Forall_inv Hall) as Hid. pose proof (Forall_inv_tail Hall) as Hall'.
    cbn [fst] in Hid.
    cbn [fold_left groupResult]. rewrite Hid, jsmap_has_app, Hnew. cbn.
    rewrite String.eqb_refl. cbn [negb orb].
    rewrite jsmap_alter_last by assumption.
    rewrite IH by assumption. now rewrite <- app_assoc.
Qed.

(** Results of one account arriving when the account is not yet a key. *)
Lemma fold_groupResult_new accountId block accountMap :
  Forall (fun r => task_accountId (fst r) = accountId) block ->
  jsmap_has accountId accountMap = false ->
  fold_left groupResult block accountMap
  = match block with
    | [] => accountMap
    | _ :: _ => accountMap ++ [(accountId, concat (map snd block))]
    end.
Proof.
  destruct block as [|[task assignments] block]; intros Hall Hnew; [reflexivity|].
  pose proof (Forall_inv Hall) as Hid. pose proof (Forall_inv_tail Hall) as Hall'.
  cbn [fst] in Hid.
  cbn [fold_left groupResult]. rewrite Hid, Hnew. cbn [negb].
  unfold jsmap_set. rewrite Hnew.
  rewrite jsmap_alter_last by assumption. cbn [app].
  now rewrite fold_groupResult_last.
Qed.

Lemma concat_values_app {V} (m1 m2 : JsMap (list V)) :
  concat (jsmap_values (m1 ++ m2)) = concat (jsmap_values m1) ++ concat (jsmap_values m2).
Proof. unfold jsmap_values. now rewrite map_app, concat_app. Qed.

Lemma jsmap_has_false_iff {V} k (m : JsMap V) :
  jsmap_has k m = false <-> ~ In k (map fst m).
Proof.
  unfold jsmap_has. induction m as [|[k' v] m IH]; cbn.
  - tauto.
  - rewrite orb_false_iff, IH, String.eqb_neq. tauto.
Qed.

Lemma aggregate_blocks allPermissionSets : forall accounts allTaskResults accountMap,
  NoDup (map fst accounts) ->
  Forall (fun account => jsmap_has (fst account) accountMap = false) accounts ->
  map fst allTaskResults = allTasks accounts allPermissionSets ->
  concat (jsmap_values (fold_left groupResult allTaskResults accountMap))
  = concat (jsmap_values accountMap) ++ concat (map snd allTaskResults).
Proof.
  induction accounts as [|account accounts IH]; intros allTaskResults accountMap Hnd Hnew Htasks.
  - cbn in Htasks. apply map_eq_nil in Htasks. subst. cbn. now rewrite app_nil_r.
  - cbn [allTasks flat_map] in Htasks.
    apply map_eq_app in Htasks as (block & rest & -> & Hblock & Hrest).
    cbn [map] in Hnd. apply NoDup_cons in Hnd as [Hnotin Hnd'].
    pose proof (Forall_inv Hnew) as Hhere. pose proof (Forall_inv_tail Hnew) as Hnew'.
    assert (Hall : Forall (fun r => task_accountId (fst r) = fst account) block).
    { clear - Hblock. revert block Hblock.
      induction allPermissionSets as [|ps pss IHp]; intros block Hblock.
      - apply map_eq_nil in Hblock. subst. constructor.
      - destruct block as [|r block]; [discriminate|]. cbn in Hblock.
        injection Hblock as Hr Hb. constructor; [now rewrite Hr | auto]. }
    rewrite fold_left_app, (fold_groupResult_new (fst account) block accountMap Hall Hhere).
    rewrite map_app, concat_app, app_assoc.
    assert (Hstep : exists accountMap',
              match block with
              | [] => accountMap
              | _ :: _ => accountMap ++ [(fst account, concat (map snd block))]
              end = accountMap' /\
              concat (jsmap_values accountMap')
              = concat (jsmap_values accountMap) ++ concat (map snd block) /\
              Forall (fun account' => jsmap_has (fst account') accountMap' = false) accounts).
    { destruct block as [|r block'].
      - exists accountMap. cbn. rewrite app_nil_r. auto.
      - eexists. split; [reflexivity|]. split.
        + rewrite concat_values_app. cbn. now rewrite app_nil_r.
        + rewrite Forall_forall in Hnew' |- *. intros account' Hin.
          rewrite jsmap_has_app, (Hnew' _ Hin). cbn. rewrite orb_false_r.
          apply String.eqb_neq. intros Heq. apply Hnotin. rewrite Heq.
          apply list_elem_of_In, in_map, list_elem_of_In. exact Hin. }
    destruct Hstep as (accountMap' & -> & Hvalues & Hnew'').
    rewrite (IH rest accountMap' Hnd' Hnew'' Hrest), Hvalues. reflexivity.
Qed.

End Aggregation.

Section PromiseAll.
Context {A : Type}.
Implicit Types values : list A.

Lemma fulfilments_cons values i completion value :
  values !! i = Some value ->
  fulfilments values (i :: completion) = (i, Resolved value) :: fulfilments values completion.
Proof. intros H. unfold fulfilments. cbn. now rewrite H. Qed.

(** Once the promises of [done] are fulfilled and those of [todo] follow,
    the whole is fulfilled with all the values, by index. *)
Lemma promiseAllFrom_fulfilled values : forall todo done slots,
  NoDup (done ++ todo) ->
  (forall i, i ∈ done ++ todo <-> i < length values) ->
  (forall j value, values !! j = Some value ->
     slots !! j = Some (if bool_decide (j ∈ done) then Some value else None)) ->
  length slots = length values ->
  promiseAllFrom slots (fulfilments values todo) = Some (Resolved values).
Proof.
  induction todo as [|i todo IH]; intros done slots Hnd Hall Hslots Hlen.
  - rewrite app_nil_r in Hall.
    assert (Hfilled : mapM id slots = Some values).
    { apply mapM_Some, Forall2_same_length_lookup. split; [exact Hlen|].
      intros j x y Hx Hy. rewrite (Hslots j y Hy) in Hx.
      rewrite bool_decide_eq_true_2 in Hx
        by (apply Hall; apply lookup_lt_Some in Hy; exact Hy).
      now injection Hx as <-. }
    cbn. now rewrite Hfilled.
  - assert (Hi : i < length values) by (apply Hall, elem_of_app; right; left).
    destruct (lookup_lt_is_Some_2 values i Hi) as [value Hvalue].
    assert (Hnotdone : i ∉ done).
    { intros Hin. apply NoDup_app in Hnd as (_ & Hdisj & _).
      apply (Hdisj i Hin). left. }
    assert (Hpending : mapM id slots = None).
    { apply mapM_None. apply Exists_exists. exists None. split; [|reflexivity].
      apply list_elem_of_lookup. exists i. rewrite (Hslots i value Hvalue).
      now rewrite bool_decide_eq_false_2. }
    rewrite (fulfilments_cons _ _ _ _ Hvalue). cbn [promiseAllFrom]. rewrite Hpending.
    apply (IH (done ++ [i])).
    + now rewrite <- app_assoc.
    + intros j. rewrite <- app_assoc. apply Hall.
    + intros j v Hv. destruct (decide (j = i)) as [-> | Hne].
      * rewrite list_lookup_insert_eq by lia.
        rewrite bool_decide_eq_true_2 by (apply elem_of_app; right; left).
        congruence.
      * rewrite list_lookup_insert_ne by congruence. rewrite (Hslots j v Hv).
        f_equal. rewrite (bool_decide_ext (j ∈ done) (j ∈ done ++ [i])); [reflexivity|].
        rewrite elem_of_app, list_elem_of_singleton. tauto.
    + now rewrite length_insert.
Qed.

Lemma promiseAll_fulfilled values completion :
  completion ≡ₚ seq 0 (length values) ->
  promiseAll (length values) (fulfilments values completion) = Some (Resolved values).
Proof.
  intros Hperm. unfold promiseAll. apply (promiseAllFrom_fulfilled values completion []).
  - cbn. rewrite Hperm. apply NoDup_seq.
  - intros i. cbn. rewrite Hperm, elem_of_seq. lia.
  - intros j value Hj. rewrite lookup_replicate_2 by (apply lookup_lt_Some in Hj; exact Hj).
    reflexivity.
  - apply length_replicate.
Qed.

End PromiseAll.

Section Grouping.

Lemma firstSeen_elem k keys : In k (firstSeen keys) <-> In k keys.
Proof.
  induction keys as [|x keys IH]; [reflexivity|]. cbn.
  rewrite filter_In, IH, negb_true_iff, String.eqb_neq.
  destruct (string_dec x k); intuition congruence.
Qed.

Lemma firstSeen_NoDup keys : NoDup (firstSeen keys).
Proof.
  induction keys as [|x keys IH]; [constructor|]. cbn. constructor.
  - intros Hin%list_elem_of_In%filter_In. destruct Hin as [_ Hne].
    now rewrite String.eqb_refl in Hne.
  - apply NoDup_ListNoDup, List.NoDup_filter, NoDup_ListNoDup, IH.
Qed.

Lemma firstSeen_snoc k keys :
  firstSeen (keys ++ [k])
  = if existsb (String.eqb k) keys then firstSeen keys else firstSeen keys ++ [k].
Proof.
  induction keys as [|x keys IH]; [reflexivity|]. cbn [app firstSeen existsb].
  rewrite IH. destruct (existsb (String.eqb k) keys).
  - now rewrite orb_true_r.
  - rewrite orb_false_r, List.filter_app. cbn [List.filter].
    destruct (String.eqb k x) eqn:Hk; cbn [negb]; [now rewrite app_nil_r | reflexivity].
Qed.

Lemma rowsOfAccount_snoc accountId results r :
  rowsOfAccount accountId (results ++ [r])
  = rowsOfAccount accountId results
    ++ (if String.eqb (task_accountId (fst r)) accountId then snd r else []).
Proof.
  unfold rowsOfAccount. rewrite List.filter_app, map_app, concat_app. cbn.
  destruct (String.eqb (task_accountId (fst r)) accountId); cbn; now rewrite ?app_nil_r.
Qed.

Lemma rowsOfAccount_absent accountId results :
  ~ In accountId (map (fun r => task_accountId (fst r)) results) ->
  rowsOfAccount accountId results = [].
Proof.
  unfold rowsOfAccount. induction results as [|r results IH]; [reflexivity|]. cbn.
  intros Hout. destruct (String.eqb_spec (task_accountId (fst r)) accountId) as [He | Hne].
  - exfalso. apply Hout. now left.
  - apply IH. intros Hin. apply Hout. now right.
Qed.

Lemma jsmap_alter_map {V} (f : V -> V) (g : string -> V) k ids :
  NoDup ids ->
  jsmap_alter f k (map (fun id => (id, g id)) ids)
  = map (fun id => (id, if String.eqb id k then f (g id) else g id)) ids.
Proof.
  induction ids as [|id ids IH]; [reflexivity|]. intros Hnd.
  apply NoDup_cons in Hnd as [Hout Hnd]. cbn.
  destruct (String.eqb_spec id k) as [-> | Hne].
  - f_equal. apply map_ext_in. intros id' Hin.
    destruct (String.eqb_spec id' k) as [-> | _]; [|reflexivity].
    exfalso. apply Hout. now apply list_elem_of_In.
  - f_equal. now apply IH.
Qed.

Lemma jsmap_has_map {V} (g : string -> V) k ids :
  jsmap_has k (map (fun id => (id, g id)) ids) = existsb (String.eqb k) ids.
Proof.
  unfold jsmap_has. induction ids as [|id ids IH]; [reflexivity|]. cbn.
  now rewrite IH, String.eqb_sym.
Qed.

(** The map of lines 605-611 after any list of results: one entry for each
    account, in the order the accounts are first seen, holding the rows of
    the results of that account in the order of the results. *)
Lemma fold_groupResult_grouped allTaskResults :
  fold_left groupResult allTaskResults []
  = map (fun accountId => (accountId, rowsOfAccount accountId allTaskResults))
        (firstSeen (map (fun r => task_accountId (fst r)) allTaskResults)).
Proof.
  induction allTaskResults as [|r results IH] using rev_ind; [reflexivity|].
  rewrite fold_left_app, IH, map_app. cbn [fold_left map].
  set (keys := map (fun r0 => task_accountId (fst r0)) results).
  rewrite firstSeen_snoc. destruct r as [task assignments]. cbn [groupResult fst snd].
  rewrite jsmap_has_map.
  assert (Hseen : existsb (String.eqb (task_accountId task)) (firstSeen keys)
                  = existsb (String.eqb (task_accountId task)) keys).
  { apply eq_true_iff_eq. rewrite !existsb_exists. split.
    - intros (x & Hin & He). exists x. split; [now apply firstSeen_elem | exact He].
    - intros (x & Hin & He). exists x. split; [now apply firstSeen_elem | exact He]. }
  rewrite Hseen. destruct (existsb (String.eqb (task_accountId task)) keys) eqn:Hhas;
    cbn [negb].
  - rewrite jsmap_alter_map by apply firstSeen_NoDup.
    apply map_ext. intros id. rewrite rowsOfAccount_snoc. cbn [fst snd].
    rewrite (String.eqb_sym id). destruct (String.eqb (task_accountId task) id);
      [reflexivity | now rewrite app_nil_r].
  - unfold jsmap_set. rewrite jsmap_has_map, Hseen.
    rewrite jsmap_alter_last by (now rewrite jsmap_has_map, Hseen).
    rewrite map_app. cbn [map]. f_equal.
    + apply map_ext_in. intros id Hin. rewrite rowsOfAccount_snoc. cbn [fst snd].
      destruct (String.eqb_spec (task_accountId task) id) as [<- | _];
        [|now rewrite app_nil_r].
      exfalso. apply (proj1 (firstSeen_elem _ _)) in Hin.
      assert (existsb (String.eqb (task_accountId task)) keys = true); [|congruence].
      apply existsb_exists. exists (task_accountId task).
      split; [exact Hin | apply String.eqb_refl].
    + rewrite rowsOfAccount_snoc. cbn [fst snd]. rewrite String.eqb_refl.
      rewrite rowsOfAccount_absent; [reflexivity|].
      intros Hin. assert (existsb (String.eqb (task_accountId task)) keys = true);
        [|congruence].
      apply existsb_exists. exists (task_accountId task).
      split; [exact Hin | apply String.eqb_refl].
Qed.

Lemma aggregate_grouped allTaskResults :
  aggregate allTaskResults
  = flat_map (fun accountId => rowsOfAccount accountId allTaskResults)
             (firstSeen (map (fun r => task_accountId (fst r)) allTaskResults)).
Proof.
  unfold aggregate. cbv zeta. rewrite fold_groupResult_grouped.
  unfold jsmap_values. rewrite map_map. cbn [snd]. now rewrite flat_map_concat_map.
Qed.

End Grouping.

(** Claim C10 as stated fails in its content: what the rows hold depends on
    how the units interleave.  Two units, one for each of two accounts, have
    the same user u-1 assigned directly; the first lookup of the user
    succeeds, a second one fails.  When the first unit resolves the name
    before the second one asks, the second finds it in the cache and both
    rows carry the name.  When both ask before either has an answer, the
    second unit gets the failure and its row carries the raw id.  The task
    array, the service and the order of the report are the same in both
    runs. *)
Lemma C10_rows_depend_on_schedule :
  reportOfSchedule [0; 0; 1; 1]
  = [ setAccountName "Prod" (userRow "111111111111" "AdminAccess" "alice");
      setAccountName "Dev" (userRow "222222222222" "AdminAccess" "alice") ] /\
  reportOfSchedule [0; 1; 0; 1]
  = [ setAccountName "Prod" (userRow "111111111111" "AdminAccess" "alice");
      setAccountName "Dev" (userRow "222222222222" "AdminAccess" "u-1") ] /\
  reportOfSchedule [0; 0; 1; 1] <> reportOfSchedule [0; 1; 0; 1].
Proof.
  assert (H1 : reportOfSchedule [0; 0; 1; 1]
    = [ setAccountName "Prod" (userRow "111111111111" "AdminAccess" "alice");
        setAccountName "Dev" (userRow "222222222222" "AdminAccess" "alice") ])
    by (vm_compute; reflexivity).
  assert (H2 : reportOfSchedule [0; 1; 0; 1]
    = [ setAccountName "Prod" (userRow "111111111111" "AdminAccess" "alice");
        setAccountName "Dev" (userRow "222222222222" "AdminAccess" "u-1") ])
    by (vm_compute; reflexivity).
  split; [exact H1|]. split; [exact H2|]. rewrite H1, H2. discriminate.
Qed.

(** Claim C10, amended.  The order of the report is fixed, whatever the
    order in which the units complete, and whatever their rows hold.  The
    jobs, one per task of [allTasks], are awaited together: once they have
    all returned, in any order, the results are the values of the jobs in
    the order of the task array, each with its task.  Grouping them by the
    account id first seen and flattening the groups gives the rows of the
    units account by account in the enumeration order of [accounts], within
    an account in the enumeration order of [allPermissionSets], within a
    unit in the order the unit produced them.  For results in any order the
    grouping puts the accounts in the order they are first seen and keeps,
    within an account, the order of the results. *)
Theorem C10_report_order (accounts allPermissionSets : JsMap string)
    (unitRows : Task -> list AdminAssignment) (completion : list nat) :
  NoDup (map fst accounts) ->
  completion ≡ₚ seq 0 (length (allTasks accounts allPermissionSets)) ->
  let allTaskResults :=
    map (fun task => jobValue task (unitRows task))
        (allTasks accounts allPermissionSets) in
  promiseAll (length (allTasks accounts allPermissionSets))
    (fulfilments allTaskResults completion)
  = Some (Resolved allTaskResults) /\
  map fst allTaskResults = allTasks accounts allPermissionSets /\
  aggregate allTaskResults
  = flat_map
      (fun account =>
         flat_map
           (fun permissionSet =>
              let task := {| task_accountId := fst account;
                             task_accountName := snd account;
                             task_permissionSetArn := fst permissionSet;
                             task_permissionSetName := snd permissionSet |} in
              map (setAccountName (snd account)) (unitRows task))
           allPermissionSets)
      accounts /\
  (forall results : list (Task * list AdminAssignment),
      aggregate results
      = flat_map (fun accountId => rowsOfAccount accountId results)
                 (firstSeen (map (fun r => task_accountId (fst r)) results))).
Proof.
  intros Hnd Hperm allTaskResults.
  assert (Hlen : length allTaskResults = length (allTasks accounts allPermissionSets))
    by (subst allTaskResults; apply length_map).
  assert (Htasks : map fst allTaskResults = allTasks accounts allPermissionSets).
  { subst allTaskResults. rewrite map_map. cbn. apply map_id. }
  split; [|split; [exact Htasks|split; [|apply aggregate_grouped]]].
  - rewrite <- Hlen. apply promiseAll_fulfilled. now rewrite Hlen.
  - unfold aggregate.
    rewrite (aggregate_blocks allPermissionSets accounts allTaskResults [] Hnd);
      [|apply Forall_forall; reflexivity | exact Htasks].
    cbn [jsmap_values map concat app]. subst allTaskResults. unfold allTasks.
    clear. induction accounts as [|account accounts IH]; [reflexivity|].
    cbn [flat_map]. rewrite map_app, map_app, concat_app, IH. f_equal.
    rewrite !map_map. cbn. clear.
    induction allPermissionSets as [|ps pss IH]; [reflexivity|].
    cbn. now rewrite IH.
Qed.

Lemma C10_report_order_witness :
  let allTaskResults :=
    map (fun task => jobValue task
                       (if String.eqb (task_permissionSetArn task) "arn:ps-1"
                        then [sampleRow (task_accountId task) "alice"] else []))
        (allTasks sampleAccounts samplePermissionSets) in
  promiseAll 4 (fulfilments allTaskResults [2; 0; 3; 1]) = Some (Resolved allTaskResults) /\
  aggregate allTaskResults
  = [ setAccountName "Prod" (sampleRow "111111111111" "alice");
      setAccountName "Dev" (sampleRow "222222222222" "alice") ] /\
  aggregate (rev allTaskResults)
  = [ setAccountName "Dev" (sampleRow "222222222222" "alice");
      setAccountName "Prod" (sampleRow "111111111111" "alice") ] /\
  aggregate sampleResults
  = [sampleRow "111111111111" "alice"; sampleRow "222222222222" "bob";
     sampleRow "222222222222" "carol"; sampleRow "222222222222" "dave"].
Proof.
  cbv zeta.
  destruct (C10_report_order sampleAccounts samplePermissionSets
              (fun task => if String.eqb (task_permissionSetArn task) "arn:ps-1"
                           then [sampleRow (task_accountId task) "alice"] else [])
              [2; 0; 3; 1])
    as (Hall & _ & Hrows & Hgrouped).
  - apply (bool_decide_unpack _). vm_compute. exact I.
  - apply (bool_decide_unpack _). vm_compute. exact I.
  - split; [exact Hall|]. split; [rewrite Hrows; reflexivity|].
    split; rewrite Hgrouped; reflexivity.
Defined.

(** ** The CSV report *)

Section Csv.
Variable dialect : Dialect.

Lemma append_cons (c : ascii) (s t : string) : String c s +:+ t = String c (s +:+ t).
Proof. reflexivity. Qed.

Lemma append_empty_l (t : string) : EmptyString +:+ t = t.
Proof. reflexivity. Qed.

Lemma append_empty_r (s : string) : s +:+ EmptyString = s.
Proof.
  induction s as [|c s IH]; [reflexivity|]. now rewrite append_cons, IH.
Qed.

Lemma append_associative (a b c : string) : (a +:+ b) +:+ c = a +:+ (b +:+ c).
Proof.
  induction a as [|x a IH]; [reflexivity|]. now rewrite !append_cons, IH.
Qed.

Lemma snoc_append (field : string) (c : ascii) (v : string) :
  snoc field c +:+ v = field +:+ String c v.
Proof. unfold snoc. now rewrite append_associative. Qed.

Lemma includes_cons c x v :
  includes c (String x v) = false -> Ascii.eqb x c = false /\ includes c v = false.
Proof. cbn. now intros H%orb_false_iff. Qed.

Lemma readCsv_cons st field row rows c rest :
  readCsv dialect st field row rows (String c rest)
  = let '(st', field', row', rows') := readChar dialect st field row rows c in
    readCsv dialect st' field' row' rows' rest.
Proof. reflexivity. Qed.

(** An unquoted field: the reader copies it up to the separator. *)
Lemma readCsv_unquoted v : forall field row rows rest,
  includes COMMA v = false -> includes LF v = false -> includes CR v = false ->
  readCsv dialect InUnquoted field row rows (v +:+ rest)
  = readCsv dialect InUnquoted (field +:+ v) row rows rest.
Proof.
  induction v as [|c v IH]; intros field row rows rest Hc Hl Hr.
  - now rewrite append_empty_l, append_empty_r.
  - apply includes_cons in Hc as [Hc Hc']. apply includes_cons in Hl as [Hl Hl'].
    apply includes_cons in Hr as [Hr Hr'].
    rewrite append_cons, readCsv_cons. cbn [readChar]. unfold unquotedChar.
    rewrite Hc, Hl, Hr, IH by assumption. now rewrite snoc_append.
Qed.

(** A quoted field: the reader undoes the doubling up to the closing quote. *)
Lemma readCsv_quoted v : forall field row rows rest,
  readCsv dialect InQuoted field row rows (doubleQuotes v +:+ String DQUOTE rest)
  = readCsv dialect AfterQuote (field +:+ v) row rows rest.
Proof.
  induction v as [|c v IH]; intros field row rows rest.
  - cbn [doubleQuotes]. rewrite append_empty_l, append_empty_r. reflexivity.
  - cbn [doubleQuotes]. destruct (Ascii.eqb c DQUOTE) eqn:Hq.
    + apply Ascii.eqb_eq in Hq. subst c. rewrite !append_cons.
      rewrite readCsv_cons. cbn [readChar Ascii.eqb Bool.eqb DQUOTE andb].
      rewrite readCsv_cons. cbn [readChar Ascii.eqb Bool.eqb DQUOTE andb].
      rewrite IH. now rewrite snoc_append.
    + rewrite append_cons, readCsv_cons. cbn [readChar]. rewrite Hq, IH.
      now rewrite snoc_append.
Qed.

(** Reading one escaped field from the start of a field. *)
Lemma readCsv_escaped v row rows rest :
  hasBareCR v = false ->
  readCsv dialect FieldStart EmptyString row rows (escapeCsv v +:+ rest)
  = if includes COMMA v || includes DQUOTE v || includes LF v
    then readCsv dialect AfterQuote v row rows rest
    else match v with
         | EmptyString => readCsv dialect FieldStart EmptyString row rows rest
         | String _ _ => readCsv dialect InUnquoted v row rows rest
         end.
Proof.
  unfold escapeCsv, hasBareCR.
  destruct (includes COMMA v || includes DQUOTE v || includes LF v) eqn:Hq; intros Hbare.
  - rewrite !append_cons, readCsv_cons.
    cbn [readChar fieldStartChar Ascii.eqb Bool.eqb DQUOTE andb].
    rewrite append_associative, append_cons, append_empty_l.
    now rewrite readCsv_quoted, append_empty_l.
  - cbn [negb] in Hbare. rewrite andb_true_r in Hbare.
    apply orb_false_iff in Hq as [Hq Hl]. apply orb_false_iff in Hq as [Hc Hd].
    destruct v as [|c v]; [reflexivity|].
    apply includes_cons in Hc as [Hc Hc']. apply includes_cons in Hl as [Hl Hl'].
    apply includes_cons in Hd as [Hd Hd']. apply includes_cons in Hbare as [Hr Hr'].
    rewrite append_cons, readCsv_cons. cbn [readChar]. unfold fieldStartChar, unquotedChar.
    rewrite Hd, Hc, Hl, Hr.
    rewrite readCsv_unquoted by assumption. reflexivity.
Qed.

(** A field followed by a comma. *)
Lemma readCsv_field_comma v row rows rest :
  hasBareCR v = false ->
  readCsv dialect FieldStart EmptyString row rows (escapeCsv v +:+ String COMMA rest)
  = readCsv dialect FieldStart EmptyString (row ++ [v]) rows rest.
Proof.
  intros Hbare. rewrite readCsv_escaped by assumption.
  destruct (includes COMMA v || includes DQUOTE v || includes LF v); [reflexivity|].
  destruct v; reflexivity.
Qed.

(** The last field of a record, when the record already has a field. *)
Lemma readCsv_field_last v row rows rest :
  hasBareCR v = false -> row <> [] -> endsRecord rest ->
  readCsv dialect FieldStart EmptyString row rows (escapeCsv v +:+ rest)
  = afterRecord dialect (row ++ [v]) rows rest.
Proof.
  intros Hbare Hrow Hrest. rewrite readCsv_escaped by assumption.
  destruct Hrest as [-> | (rest' & ->)].
  - destruct (includes COMMA v || includes DQUOTE v || includes LF v); [reflexivity|].
    destruct v; [|reflexivity]. cbn. destruct row; [congruence | reflexivity].
  - destruct (includes COMMA v || includes DQUOTE v || includes LF v); [reflexivity|].
    destruct v; reflexivity.
Qed.

Lemma concat_cons2 sep (x y : string) l :
  String.concat sep (x :: y :: l) = x +:+ sep +:+ String.concat sep (y :: l).
Proof. reflexivity. Qed.

(** A whole record of at least two fields. *)
Lemma readCsv_record values : forall v row rows rest,
  Forall (fun value => hasBareCR value = false) (v :: values) ->
  row <> [] \/ values <> [] -> endsRecord rest ->
  readCsv dialect FieldStart EmptyString row rows
    (String.concat (String COMMA EmptyString) (map escapeCsv (v :: values)) +:+ rest)
  = afterRecord dialect (row ++ v :: values) rows rest.
Proof.
  induction values as [|w values IH]; intros v row rows rest Hbare Hne Hrest.
  - cbn [map String.concat]. apply readCsv_field_last; [|destruct Hne; congruence|assumption].
    exact (Forall_inv Hbare).
  - cbn [map]. rewrite concat_cons2. cbn [map] in IH.
    rewrite !append_associative, append_cons, append_empty_l.
    rewrite readCsv_field_comma by exact (Forall_inv Hbare).
    rewrite IH; [|exact (Forall_inv_tail Hbare)|left; now destruct row|assumption].
    now rewrite <- app_assoc.
Qed.

Lemma concat_lines_cons line lines :
  String.concat (String LF EmptyString) (line :: map csvLine lines)
  = line +:+ csvBody lines.
Proof.
  revert line. induction lines as [|a lines IH]; intros line.
  - cbn. now rewrite append_empty_r.
  - cbn [map csvBody]. rewrite concat_cons2, IH.
    now rewrite append_cons, append_empty_l.
Qed.

Lemma csvBody_endsRecord lines : endsRecord (csvBody lines).
Proof. destruct lines; [now left | right; eexists; reflexivity]. Qed.

Lemma readCsv_line a rows rest :
  Forall (fun value => hasBareCR value = false) (rowValues a) ->
  endsRecord rest ->
  readCsv dialect FieldStart EmptyString [] rows (csvLine a +:+ rest)
  = afterRecord dialect (rowValues a) rows rest.
Proof.
  intros Hbare Hrest. unfold csvLine, rowValues.
  apply (readCsv_record
           [accountName a; username a; permissionSetName a; groupField a]
           (accountNumber a) [] rows rest).
  - exact Hbare.
  - right. discriminate.
  - exact Hrest.
Qed.

Lemma afterRecord_body lines : forall values rows,
  Forall (fun a => Forall (fun value => hasBareCR value = false) (rowValues a)) lines ->
  afterRecord dialect values rows (csvBody lines) = rows ++ values :: map rowValues lines.
Proof.
  induction lines as [|a lines IH]; intros values rows Hbare.
  - reflexivity.
  - cbn [csvBody map]. unfold afterRecord at 1.
    rewrite (readCsv_line a (rows ++ [values]) (csvBody lines) (Forall_inv Hbare)
               (csvBody_endsRecord lines)).
    rewrite IH by exact (Forall_inv_tail Hbare). rewrite <- app_assoc. reflexivity.
Qed.

Lemma csvHeader_fields :
  csvHeader = String.concat (String COMMA EmptyString) (map escapeCsv csvHeaderFields).
Proof. reflexivity. Qed.

Lemma readCsv_header rows rest :
  endsRecord rest ->
  readCsv dialect FieldStart EmptyString [] rows (csvHeader +:+ rest)
  = afterRecord dialect csvHeaderFields rows rest.
Proof.
  intros Hrest. rewrite csvHeader_fields.
  apply (readCsv_record ["Account Name"; "Username"; "Permission Set"; "Group"]
           "Account Number" [] rows rest).
  - repeat constructor.
  - right. discriminate.
  - exact Hrest.
Qed.

Lemma parseCsv_csvContent allAssignments :
  Forall (fun a => Forall (fun value => hasBareCR value = false) (rowValues a))
         allAssignments ->
  parseCsv dialect (csvContent allAssignments)
  = csvHeaderFields :: map rowValues allAssignments.
Proof.
  intros Hbare. unfold parseCsv, csvContent, csvLines. rewrite concat_lines_cons.
  rewrite (readCsv_header [] _ (csvBody_endsRecord allAssignments)).
  now rewrite afterRecord_body.
Qed.

End Csv.

(** The reader on ordinary inputs: plain fields with a final line break of
    either kind, and quoted fields holding a comma, doubled quotes and a
    line feed. *)
Example parseCsv_plain :
  parseCsv CrLfOrLf ("a,b" +:+ String LF ("c,d" +:+ String LF EmptyString))
  = [["a"; "b"]; ["c"; "d"]] /\
  parseCsv CrLfOrLf ("a,b" +:+ String CR (String LF ("c,d" +:+ String CR (String LF EmptyString))))
  = [["a"; "b"]; ["c"; "d"]] /\
  parseCsv AnyLineBreak ("a,b" +:+ String CR ("c,d" +:+ String CR (String LF EmptyString)))
  = [["a"; "b"]; ["c"; "d"]] /\
  parseCsv CrLfOrLf ("a,b" +:+ String CR ("c,d" +:+ String LF EmptyString))
  = [["a"; "b" +:+ String CR "c"; "d"]].
Proof. repeat split; reflexivity. Qed.

Example parseCsv_quoted :
  parseCsv CrLfOrLf
           (String DQUOTE ("x,y" +:+ String DQUOTE ("," +:+ String DQUOTE ("say "
            +:+ String DQUOTE (String DQUOTE ("hi" +:+ String DQUOTE (String DQUOTE
            (String LF ("there" +:+ String DQUOTE EmptyString)))))))))
  = [["x,y"; "say " +:+ String DQUOTE ("hi" +:+ String DQUOTE (String LF "there"))]].
Proof. reflexivity. Qed.

(** ** Claims about the report *)

Lemma runTask_result {env : Environment} fuel instanceArn identityStoreId task
    (s : State env) task' rows s' :
  runTask fuel instanceArn identityStoreId task s = (Normal (task', rows), s') ->
  task' = task /\ Forall (fun row => accountName row = task_accountName task) rows.
Proof.
  unfold runTask, bind, ret.
  destruct (getAssignments _ _ _ _ _ _ s) as [[assignments | e |] s1]; try discriminate.
  intros [= <- <- <-]. split; [reflexivity|].
  apply Forall_forall. intros row Hin.
  apply list_elem_of_In, in_map_iff in Hin as (a & <- & _). reflexivity.
Qed.

(** The first end-to-end scenario of the specification: a header and one row. *)
Example scenario_direct_user :
  csvContent (rowsOf (runTask (env := envOneUser) 1 "arn:instance" "d-1" prodAdmin
                        (initialState envOneUser 0%nat)))
  = "Account Number,Account Name,Username,Permission Set,Group"
    +:+ String LF "111111111111,Prod,alice,AdminAccess,".
Proof. reflexivity. Qed.

(** The second scenario: a group of two gives two rows carrying the group name. *)
Example scenario_group_of_two :
  csvContent (rowsOf (runTask (env := envOneGroup) 1 "arn:instance" "d-1" prodAdmin
                        (initialState envOneGroup 0%nat)))
  = "Account Number,Account Name,Username,Permission Set,Group"
    +:+ String LF "111111111111,Prod,bob,AdminAccess,Devs"
    +:+ String LF "111111111111,Prod,carol,AdminAccess,Devs".
Proof. reflexivity. Qed.


Lemma expectedRows_user_no_group {env : Environment} (s : State env)
    accountId permissionSetName a :
  Forall (fun row => assignmentType row = USER <-> groupName row = None)
         (expectedRows s accountId permissionSetName a).
Proof.
  unfold expectedRows. destruct (isUserRef a).
  - constructor; [|constructor]. cbn. tauto.
  - destruct (isGroupRef a); [|constructor].
    apply Forall_forall. intros row Hin.
    apply list_elem_of_In, in_map_iff in Hin as (m & <- & _). cbn. split; discriminate.
Qed.

Lemma getAssignments_user_rows {env : Environment} fuel instanceArn identityStoreId
    accountId permissionSetArn permissionSetName (s : State env) rows s' :
  getAssignments fuel instanceArn identityStoreId accountId permissionSetArn
    permissionSetName s = (Normal rows, s') ->
  Forall (fun row => assignmentType row = USER <-> groupName row = None) rows.
Proof.
  intros Hrun. unfold getAssignments in Hrun.
  destruct (getAssignmentsLoop_spec _ _ _ _ _ _ _ _ _ _ _ Hrun) as (_ & Hrows).
  destruct (Hrows rows eq_refl) as (delta & _ & -> & _). cbn [app].
  clear Hrun Hrows.
  induction (assignmentRefs delta) as [|a refs IH]; [constructor|].
  cbn [flat_map]. apply Forall_app. split; [apply expectedRows_user_no_group | exact IH].
Qed.

(** Claim C7 as stated fails for a value that holds a carriage return and
    nothing that makes [escapeCsv] quote it.  The group name Ops followed by
    a carriage return is written as it is.  A reader that takes a carriage
    return as a line break gives back Ops, and cuts a record in two at a
    carriage return inside a value; in the report the value ends the
    line, so the carriage return and the line feed that separates the
    records make a line break for every reader, and the first of two rows
    comes back with the group name Ops. *)
Lemma C7_bare_carriage_return_is_lost :
  let value := "Ops" +:+ String CR EmptyString in
  let header := ["Account Number"; "Account Name"; "Username"; "Permission Set"; "Group"] in
  escapeCsv value = value /\
  parseCsv AnyLineBreak ("alice," +:+ escapeCsv value) = [["alice"; "Ops"]] /\
  parseCsv AnyLineBreak (escapeCsv ("Dev" +:+ String CR "Ops") +:+ ",alice")
  = [["Dev"]; ["Ops"; "alice"]] /\
  parseCsv CrLfOrLf (csvContent rowsWithCR)
  = [ header;
      ["111111111111"; "Prod"; "alice"; "AdminAccess"; "Ops"];
      ["111111111111"; "Prod"; "bob"; "AdminAccess"; value] ] /\
  parseCsv AnyLineBreak (csvContent rowsWithCR)
  = [ header;
      ["111111111111"; "Prod"; "alice"; "AdminAccess"; "Ops"];
      ["111111111111"; "Prod"; "bob"; "AdminAccess"; "Ops"] ] /\
  parseCsv CrLfOrLf (csvContent rowsWithCR)
  <> csvHeaderFields :: map rowValues rowsWithCR /\
  parseCsv AnyLineBreak (csvContent rowsWithCR)
  <> csvHeaderFields :: map rowValues rowsWithCR.
Proof.
  cbv zeta. split; [reflexivity|]. split; [reflexivity|]. split; [reflexivity|].
  split; [reflexivity|]. split; [reflexivity|]. split; vm_compute; discriminate.
Qed.

(** Claim C7, amended.  [escapeCsv] encloses a value that contains a comma,
    a double quote or a line feed in double quotes with every embedded double
    quote doubled, and emits any other value verbatim.  Whatever the reader
    takes for a line break, reading back a record of escaped values gives the
    values, and reading the whole report back gives the five header names
    followed by the five values of every assignment, provided no value is
    written without quotes while it holds a carriage return; a value without
    carriage return, and a value that is quoted, are of that kind.  The
    report starts with the header row and has one line per assignment after
    it.  The Group value is empty when the assignment has no group name,
    which is the case of every USER row [getAssignments] produces. *)
Theorem C7_csv_round_trip (dialect : Dialect) (allAssignments : list AdminAssignment) :
  (forall value,
      (includes COMMA value || includes DQUOTE value || includes LF value = true ->
       escapeCsv value = String DQUOTE (doubleQuotes value) +:+ String DQUOTE EmptyString) /\
      (includes COMMA value || includes DQUOTE value || includes LF value = false ->
       escapeCsv value = value)) /\
  (forall value,
      (includes CR value = false -> hasBareCR value = false) /\
      (includes COMMA value || includes DQUOTE value || includes LF value = true ->
       hasBareCR value = false)) /\
  (forall value values, values <> [] ->
      Forall (fun v => hasBareCR v = false) (value :: values) ->
      parseCsv dialect
        (String.concat (String COMMA EmptyString) (map escapeCsv (value :: values)))
      = [value :: values]) /\
  csvHeader = "Account Number,Account Name,Username,Permission Set,Group" /\
  (exists body, csvContent allAssignments = csvHeader +:+ body) /\
  length (csvLines allAssignments) = S (length allAssignments) /\
  (Forall (fun a => Forall (fun v => hasBareCR v = false) (rowValues a)) allAssignments ->
   parseCsv dialect (csvContent allAssignments)
   = csvHeaderFields :: map rowValues allAssignments) /\
  (forall a, groupName a = None -> groupField a = EmptyString) /\
  (forall (env : Environment) fuel instanceArn identityStoreId accountId permissionSetArn
          permissionSetName (s : State env) rows s',
      getAssignments fuel instanceArn identityStoreId accountId permissionSetArn
        permissionSetName s = (Normal rows, s') ->
      Forall (fun row => assignmentType row = USER -> groupField row = EmptyString) rows).
Proof.
  split; [|split; [|split; [|split; [|split; [|split; [|split; [|split]]]]]]].
  - intros value. unfold escapeCsv. split; intros ->; reflexivity.
  - intros value. unfold hasBareCR. split; intros ->; [reflexivity | apply andb_false_r].
  - intros value values Hne Hbare. unfold parseCsv.
    rewrite <- (append_empty_r (String.concat _ _)).
    rewrite (readCsv_record dialect values value [] [] EmptyString Hbare
               (or_intror Hne) (or_introl eq_refl)).
    reflexivity.
  - reflexivity.
  - exists (csvBody allAssignments). unfold csvContent, csvLines. apply concat_lines_cons.
  - unfold csvLines. cbn. now rewrite length_map.
  - apply parseCsv_csvContent.
  - intros a Ha. unfold groupField. now rewrite Ha.
  - intros env fuel instanceArn identityStoreId accountId permissionSetArn
      permissionSetName s rows s' Hrun.
    eapply Forall_impl; [exact (getAssignments_user_rows _ _ _ _ _ _ _ _ _ Hrun)|].
    intros row Hiff Huser. cbn in Hiff. unfold groupField.
    now rewrite (proj1 Hiff Huser).
Qed.

Lemma C7_csv_round_trip_witness :
  Forall (fun a => Forall (fun v => hasBareCR v = false) (rowValues a))
         (sampleRows ++ [rowWithCrLf]) /\
  parseCsv CrLfOrLf (csvContent (sampleRows ++ [rowWithCrLf]))
  = [ ["Account Number"; "Account Name"; "Username"; "Permission Set"; "Group"];
      ["111111111111"; "Prod, EU"; "alice"; "AdminAccess"; EmptyString];
      ["111111111111"; "Prod, EU"; String DQUOTE "bob" +:+ String DQUOTE " jr";
       "AdminAccess"; "Devs" +:+ String LF "Ops"];
      ["111111111111"; "Prod, EU"; "carol"; "AdminAccess";
       "Devs" +:+ String CR (String LF "Ops")] ] /\
  parseCsv AnyLineBreak (csvContent (sampleRows ++ [rowWithCrLf]))
  = csvHeaderFields :: map rowValues (sampleRows ++ [rowWithCrLf]) /\
  parseCsv AnyLineBreak
    (String.concat (String COMMA EmptyString)
       (map escapeCsv ["a,b"; String DQUOTE "c"; EmptyString]))
  = [["a,b"; String DQUOTE "c"; EmptyString]].
Proof.
  assert (H : Forall (fun a => Forall (fun v => hasBareCR v = false) (rowValues a))
                     (sampleRows ++ [rowWithCrLf]))
    by (repeat constructor).
  split; [exact H|]. split; [|split].
  - exact (proj1 (proj2 (proj2 (proj2 (proj2 (proj2 (proj2
             (C7_csv_round_trip CrLfOrLf (sampleRows ++ [rowWithCrLf])))))))) H).
  - exact (proj1 (proj2 (proj2 (proj2 (proj2 (proj2 (proj2
             (C7_csv_round_trip AnyLineBreak (sampleRows ++ [rowWithCrLf])))))))) H).
  - apply (proj1 (proj2 (proj2 (C7_csv_round_trip AnyLineBreak [])))).
    + discriminate.
    + repeat constructor.
Defined.

(** * Further properties *)

(** ** The retry governor *)

Section RetryMore.
Context {env : Environment} {A : Type}.
Variable operation : M env A.
Variable operationName : string.
Variable retries : nat.

Lemma retryLoop_last_invocation remaining : forall attempt_ s,
  (remaining + attempt_ = S retries)%nat -> remaining <> O ->
  exists s_last,
    operation s_last = retryLoop remaining attempt_ operation operationName retries s.
Proof.
  induction remaining as [|remaining IH]; intros attempt_ s Hsum Hnz; [congruence|].
  rewrite retryLoop_step.
  destruct (operation s) as [[v | e |] s1] eqn:Hop; try (exists s; exact Hop).
  destruct (negb (isRateLimitError e) || Nat.eqb attempt_ retries) eqn:Hstop;
    [exists s; exact Hop|].
  apply orb_false_iff in Hstop as [_ Hne]. apply Nat.eqb_neq in Hne.
  apply IH; lia.
Qed.

Hypothesis operation_calls : forall s, length (calls (snd (operation s))) = S (length (calls s)).

Lemma retryLoop_calls_le remaining : forall attempt_ s,
  length (calls (snd (retryLoop remaining attempt_ operation operationName retries s)))
  <= length (calls s) + remaining.
Proof.
  induction remaining as [|remaining IH]; intros attempt_ s.
  - cbn. lia.
  - rewrite retryLoop_step. pose proof (operation_calls s) as Hc.
    destruct (operation s) as [[v | e |] s1]; cbn [snd] in *; try lia.
    destruct (negb (isRateLimitError e) || Nat.eqb attempt_ retries); cbn [snd]; [lia|].
    destruct (backoff_spec operationName attempt_ retries s1) as (s2 & Hb & _ & Hc2 & _).
    rewrite Hb. cbn [snd]. specialize (IH (S attempt_) s2). rewrite Hc2 in IH. lia.
Qed.

End RetryMore.

(** Property X1.  Whatever the operation does and whatever [retries] is, the
    retry wrapper completes exactly as one invocation of the operation
    completed, with its value or its error, and in the state that invocation
    left.  So the [throw] of line 103, after the loop, is never reached. *)
Theorem retryWithBackoff_completion_is_an_invocation {env : Environment} {A : Type}
    (operation : M env A) (operationName : string) (retries : nat) (s : State env) :
  exists s_last,
    operation s_last = retryWithBackoff operation operationName retries s.
Proof.
  unfold retryWithBackoff. apply retryLoop_last_invocation; lia.
Qed.

Lemma backoffDelays_tail attempt_ d delays :
  backoffDelays attempt_ (d :: delays) -> backoffDelays (S attempt_) delays.
Proof.
  intros H k x Hk. destruct (H (S k) x Hk) as (j & H0 & H1 & Hd).
  exists j. repeat split; auto.
  replace (S attempt_ + k)%nat with (attempt_ + S k)%nat by lia. exact Hd.
Qed.

Lemma backoffDelays_total delays : forall attempt_,
  backoffDelays attempt_ delays ->
  (totalDelay delays
   <= 1000 * (inject_Z (2 ^ Z.of_nat (attempt_ + length delays))
              - inject_Z (2 ^ Z.of_nat attempt_))
      + 1000 * inject_Z (Z.of_nat (length delays)))%Q.
Proof.
  induction delays as [|d delays IH]; intros attempt_ H.
  - cbn [totalDelay fold_right length]. rewrite Nat.add_0_r.
    replace (inject_Z (Z.of_nat 0)) with 0%Q by reflexivity.
    remember (inject_Z (2 ^ Z.of_nat attempt_)) as P. clear. lra.
  - cbn [totalDelay fold_right]. fold (totalDelay delays).
    destruct (H 0%nat d eq_refl) as (j & H0 & H1 & Hd).
    specialize (IH (S attempt_) (backoffDelays_tail _ _ _ H)).
    rewrite Nat.add_0_r in Hd. unfold INITIAL_RETRY_DELAY in Hd.
    rewrite inject_Z_mult in Hd. change (inject_Z 1000) with 1000%Q in Hd.
    cbn [length]. replace (attempt_ + S (length delays))%nat
      with (S attempt_ + length delays)%nat by lia.
    rewrite (Nat2Z.inj_succ (length delays)), <- Z.add_1_r, inject_Z_plus.
    change (inject_Z 1) with 1%Q.
    assert (Hpow : (inject_Z (2 ^ Z.of_nat (S attempt_))
                    == 2 * inject_Z (2 ^ Z.of_nat attempt_))%Q).
    { rewrite Nat2Z.inj_succ, Z.pow_succ_r by lia. rewrite inject_Z_mult. reflexivity. }
    remember (inject_Z (2 ^ Z.of_nat (S attempt_ + length delays))) as Pn.
    remember (inject_Z (2 ^ Z.of_nat (S attempt_))) as P'.
    remember (inject_Z (2 ^ Z.of_nat attempt_)) as P.
    remember (inject_Z (Z.of_nat (length delays))) as L.
    remember (totalDelay delays) as T.
    clear - IH Hd H0 H1 Hpow. lra.
Qed.

(** Property X2.  With the default [MAX_RETRIES] the wrapper sleeps at most
    five times and at most 36 seconds in all, whatever the operation does:
    31 seconds of exponential delay and less than 5 seconds of jitter. *)
Theorem retryWithBackoff_total_sleep {env : Environment} {A : Type}
    (operation : M env A) (operationName : string) (s : State env) :
  (forall n, (0 <= mathRandom env n)%Q /\ (mathRandom env n < 1)%Q) ->
  (forall s0, length (calls (snd (operation s0))) = S (length (calls s0))) ->
  (forall s0, timeouts (snd (operation s0)) = timeouts s0) ->
  exists delays,
    timeouts (snd (retryWithBackoff operation operationName MAX_RETRIES s))
    = timeouts s ++ delays /\
    length delays <= MAX_RETRIES /\
    (totalDelay delays <= 36000)%Q.
Proof.
  intros Hrnd Hcalls Htime. unfold retryWithBackoff.
  destruct (retryLoop (S MAX_RETRIES) 0 operation operationName MAX_RETRIES s)
    as [r s'] eqn:Hrun. cbn [snd].
  destruct (retryLoop_trace operation operationName MAX_RETRIES Hrnd Hcalls Htime
              (S MAX_RETRIES) 0%nat s r s' ltac:(lia) ltac:(lia) Hrun)
    as (n & delays & Hn & _ & Ht & Hlen & Hd).
  exists delays. split; [exact Ht|]. split; [lia|].
  eapply Qle_trans; [apply (backoffDelays_total delays 0 Hd)|].
  assert (Hl : length delays <= 5) by (unfold MAX_RETRIES in *; lia).
  cbn [Nat.add]. change (inject_Z (2 ^ Z.of_nat 0)) with 1%Q.
  assert (Hp : (inject_Z (2 ^ Z.of_nat (length delays)) <= 32)%Q).
  { change 32%Q with (inject_Z (2 ^ 5)). rewrite <- Zle_Qle.
    apply Z.pow_le_mono_r; lia. }
  assert (Hn5 : (inject_Z (Z.of_nat (length delays)) <= 5)%Q).
  { change 5%Q with (inject_Z 5). rewrite <- Zle_Qle. lia. }
  remember (inject_Z (2 ^ Z.of_nat (length delays))) as P.
  remember (inject_Z (Z.of_nat (length delays))) as L.
  clear - Hp Hn5. lra.
Qed.

Lemma retryWithBackoff_total_sleep_witness :
  exists delays,
    timeouts (snd (retryWithBackoff (env := envThrottled)
                     (sendDescribeUser {| du_IdentityStoreId := "d-1"; du_UserId := "u-1" |})
                     "DescribeUser(u-1...)" MAX_RETRIES (initialState envThrottled 0%nat)))
    = timeouts (initialState envThrottled 0%nat) ++ delays /\
    length delays <= MAX_RETRIES /\
    (totalDelay delays <= 36000)%Q.
Proof.
  apply (retryWithBackoff_total_sleep (env := envThrottled)
           (sendDescribeUser {| du_IdentityStoreId := "d-1"; du_UserId := "u-1" |})
           "DescribeUser(u-1...)" (initialState envThrottled 0%nat)).
  - intros n. split; [discriminate | reflexivity].
  - intros s0. apply send_calls_DescribeUser.
  - intros s0. reflexivity.
Defined.

Section RetryExhaustion.
Context {env : Environment} {A : Type}.
Variable operation : M env A.
Variable operationName : string.
Variable retries : nat.
Hypothesis operation_calls : forall s, length (calls (snd (operation s))) = S (length (calls s)).
Hypothesis operation_timeouts : forall s, timeouts (snd (operation s)) = timeouts s.

Lemma retryLoop_rate_limit_surfaces_last remaining : forall attempt_ s e s',
  (remaining + attempt_ = S retries)%nat -> remaining <> O ->
  retryLoop remaining attempt_ operation operationName retries s = (Throws e, s') ->
  isRateLimitError e = true ->
  length (calls s') = (length (calls s) + remaining)%nat /\
  length (timeouts s') = (length (timeouts s) + (remaining - 1))%nat.
Proof.
  induction remaining as [|remaining IH]; intros attempt_ s e s' Hsum Hnz; [congruence|].
  rewrite retryLoop_step.
  pose proof (operation_calls s) as Hc. pose proof (operation_timeouts s) as Ht.
  destruct (operation s) as [[v | e1 |] s1]; cbn [snd] in *; try discriminate.
  destruct (negb (isRateLimitError e1) || Nat.eqb attempt_ retries) eqn:Hstop.
  - intros [= <- <-] Hrate. rewrite Hrate in Hstop. cbn in Hstop.
    apply Nat.eqb_eq in Hstop. assert (remaining = 0)%nat as -> by lia.
    rewrite Ht. lia.
  - apply orb_false_iff in Hstop as [_ Hne]. apply Nat.eqb_neq in Hne.
    destruct (backoff_spec operationName attempt_ retries s1)
      as (s2 & Hb & _ & Hc2 & _ & _ & _ & _ & _ & _ & Ht2 & _).
    rewrite Hb. cbn [snd]. intros Hrun Hrate.
    destruct (IH (S attempt_) s2 e s' ltac:(lia) ltac:(lia) Hrun Hrate) as [Hc' Ht'].
    rewrite Hc', Ht', Hc2, Ht2, length_app, Ht. cbn [length]. lia.
Qed.

End RetryExhaustion.

(** Property X3.  A rate-limit error comes out of the wrapper only when
    every retry was spent: the wrapper then invoked the operation
    [retries + 1] times and slept [retries] times. *)
Theorem retryWithBackoff_throttle_surfaces_when_exhausted {env : Environment} {A : Type}
    (operation : M env A) (operationName : string) (retries : nat)
    (s : State env) (e : JsError) (s' : State env) :
  (forall s0, length (calls (snd (operation s0))) = S (length (calls s0))) ->
  (forall s0, timeouts (snd (operation s0)) = timeouts s0) ->
  retryWithBackoff operation operationName retries s = (Throws e, s') ->
  isRateLimitError e = true ->
  length (calls s') = (length (calls s) + retries + 1)%nat /\
  length (timeouts s') = (length (timeouts s) + retries)%nat.
Proof.
  intros Hcalls Htime Hrun Hrate. unfold retryWithBackoff in Hrun.
  destruct (retryLoop_rate_limit_surfaces_last operation operationName retries Hcalls Htime
              (S retries) 0%nat s e s' ltac:(lia) ltac:(lia) Hrun Hrate) as [Hc Ht].
  split; lia.
Qed.

Lemma retryWithBackoff_throttle_surfaces_when_exhausted_witness :
  let run := retryWithBackoff (env := envThrottled)
               (sendDescribeUser {| du_IdentityStoreId := "d-1"; du_UserId := "u-1" |})
               "DescribeUser(u-1...)" MAX_RETRIES (initialState envThrottled 0%nat) in
  run = (Throws throttlingError, snd run) /\
  isRateLimitError throttlingError = true /\
  length (calls (snd run)) = (0 + MAX_RETRIES + 1)%nat /\
  length (timeouts (snd run)) = (0 + MAX_RETRIES)%nat.
Proof.
  intros run. split; [vm_compute; reflexivity|]. split; [reflexivity|].
  apply (retryWithBackoff_throttle_surfaces_when_exhausted (env := envThrottled)
           (sendDescribeUser {| du_IdentityStoreId := "d-1"; du_UserId := "u-1" |})
           "DescribeUser(u-1...)" MAX_RETRIES (initialState envThrottled 0%nat)
           throttlingError (snd run)).
  - intros s0. apply send_calls_DescribeUser.
  - intros s0. reflexivity.
  - vm_compute. reflexivity.
  - reflexivity.
Defined.

(** ** The resolvers *)

Section ResolverMore.
Context {env : Environment}.
Implicit Types s : State env.

Lemma send_calls_DescribeGroup (i : DescribeGroupInput) s :
  length (calls (snd (sendDescribeGroup i s))) = S (length (calls s)).
Proof.
  unfold sendDescribeGroup. destruct (describeGroup env (world s) i). cbn.
  rewrite length_app. cbn. lia.
Qed.

Lemma getUserName_calls identityStoreId userId s :
  length (calls (snd (getUserName identityStoreId userId s)))
  <= length (calls s) + MAX_RETRIES + 1.
Proof.
  destruct (userCache s !! userId) as [v|] eqn:Hc.
  - rewrite (getUserName_hit _ _ _ _ Hc). cbn. lia.
  - rewrite (getUserName_miss _ _ _ Hc).
    pose proof (retryLoop_calls_le
                  (sendDescribeUser {| du_IdentityStoreId := identityStoreId;
                                       du_UserId := userId |})
                  ("DescribeUser(" +:+ String.substring 0 8 userId +:+ "...)")
                  MAX_RETRIES (send_calls_DescribeUser _) (S MAX_RETRIES) 0 s) as Hle.
    fold (retryWithBackoff
            (sendDescribeUser {| du_IdentityStoreId := identityStoreId;
                                 du_UserId := userId |})
            ("DescribeUser(" +:+ String.substring 0 8 userId +:+ "...)") MAX_RETRIES s) in Hle.
    fold (describeUserWithRetry identityStoreId userId s) in Hle.
    destruct (describeUserWithRetry identityStoreId userId s) as [[o | e |] s1];
      cbn [snd] in *; [| |lia].
    all: match goal with |- context [getUserName_settled _ ?r _] =>
           destruct (getUserName_settled_spec userId r s1) as (s' & -> & _ & _ & _ & Hc' & _) end.
    all: cbn [snd]; rewrite Hc'; lia.
Qed.

Lemma getGroupName_calls identityStoreId groupId s :
  length (calls (snd (getGroupName identityStoreId groupId s)))
  <= length (calls s) + MAX_RETRIES + 1.
Proof.
  destruct (groupCache s !! groupId) as [v|] eqn:Hc.
  - rewrite (getGroupName_hit _ _ _ _ Hc). cbn. lia.
  - rewrite (getGroupName_miss _ _ _ Hc).
    pose proof (retryLoop_calls_le
                  (sendDescribeGroup {| dg_IdentityStoreId := identityStoreId;
                                        dg_GroupId := groupId |})
                  ("DescribeGroup(" +:+ String.substring 0 8 groupId +:+ "...)")
                  MAX_RETRIES (send_calls_DescribeGroup _) (S MAX_RETRIES) 0 s) as Hle.
    fold (retryWithBackoff
            (sendDescribeGroup {| dg_IdentityStoreId := identityStoreId;
                                  dg_GroupId := groupId |})
            ("DescribeGroup(" +:+ String.substring 0 8 groupId +:+ "...)") MAX_RETRIES s) in Hle.
    fold (describeGroupWithRetry identityStoreId groupId s) in Hle.
    destruct (describeGroupWithRetry identityStoreId groupId s) as [[o | e |] s1];
      cbn [snd] in *; [| |lia].
    all: match goal with |- context [getGroupName_settled _ ?r _] =>
           destruct (getGroupName_settled_spec groupId r s1) as (s' & -> & _ & _ & _ & Hc' & _) end.
    all: cbn [snd]; rewrite Hc'; lia.
Qed.

End ResolverMore.

(** Property X4.  [getUserName] and [getGroupName] never throw and need no
    fuel: from every state they return a name, that name is in the cache
    under the id afterwards, and at most [MAX_RETRIES + 1] remote calls were
    made. *)
Theorem name_resolvers_always_return {env : Environment}
    (identityStoreId id : string) (s : State env) :
  (exists v s',
      getUserName identityStoreId id s = (Normal v, s') /\
      userCache s' !! id = Some v /\
      length (calls s') <= length (calls s) + MAX_RETRIES + 1) /\
  (exists v s',
      getGroupName identityStoreId id s = (Normal v, s') /\
      groupCache s' !! id = Some v /\
      length (calls s') <= length (calls s) + MAX_RETRIES + 1).
Proof.
  split.
  - destruct (getUserName_spec identityStoreId id s) as (v & s' & Hrun & Hc & _).
    exists v, s'. pose proof (getUserName_calls identityStoreId id s) as Hle.
    rewrite Hrun in Hle. auto.
  - destruct (getGroupName_spec identityStoreId id s) as (v & s' & Hrun & Hc & _).
    exists v, s'. pose proof (getGroupName_calls identityStoreId id s) as Hle.
    rewrite Hrun in Hle. auto.
Qed.

Lemma listedMembers_app t1 t2 :
  listedMembers (t1 ++ t2) = listedMembers t1 ++ listedMembers t2.
Proof. unfold listedMembers. apply flat_map_app. Qed.

Lemma memberUserIds_nonEmpty response :
  Forall (fun u => u <> EmptyString) (memberUserIds response).
Proof.
  unfold memberUserIds. destruct (GroupMemberships response) as [ms|]; [|constructor].
  induction ms as [|m ms IH]; [constructor|]. cbn [flat_map].
  apply Forall_app. split; [|exact IH].
  destruct (gm_MemberId m) as [mid|]; [|constructor].
  destruct (UserId mid) as [u|]; [|constructor].
  destruct (String.eqb_spec u EmptyString); constructor; [assumption | constructor].
Qed.

Lemma listedMembers_nonEmpty delta :
  Forall (fun u => u <> EmptyString) (listedMembers delta).
Proof.
  unfold listedMembers. induction delta as [|c delta IH]; [constructor|]. cbn [flat_map].
  apply Forall_app. split; [|exact IH].
  destruct c as [? ?|? ?|? ?|? [o|e]]; try constructor. apply memberUserIds_nonEmpty.
Qed.

Section MembersMore.
Context {env : Environment}.
Implicit Types s : State env.

(** The loop hands back the ids it had plus those of every page it received,
    and it made one call per page request. *)
Lemma listGroupMembershipsLoop_trace fuel identityStoreId groupId :
  forall members nextToken s r s',
  listGroupMembershipsLoop fuel identityStoreId groupId members nextToken s = (r, s') ->
  exists delta,
    calls s' = calls s ++ delta /\
    forall members' thrown, r = Normal (members', thrown) ->
      members' = members ++ listedMembers delta /\
      match thrown with
      | Some e => exists i, last delta = Some (CallListGroupMemberships i (Rejected e))
      | None => exists i o, last delta = Some (CallListGroupMemberships i (Resolved o)) /\
                            truthy (lgm_out_NextToken o) = false
      end.
Proof.
  induction fuel as [|fuel IH]; intros members nextToken s r s'.
  - cbn. intros [= <- <-]. exists []. rewrite app_nil_r. split; [reflexivity|]. discriminate.
  - rewrite listGroupMembershipsLoop_step. unfold sendListGroupMemberships.
    destruct (listGroupMemberships env (world s) _) as [[o | e] w] eqn:Hreply; cbn [settle].
    + destruct (truthy (lgm_out_NextToken o)) eqn:Htok.
      * intros Hrun. destruct (IH _ _ _ _ _ Hrun) as (delta & Hd & Hres).
        eexists (_ :: delta). cbn [calls remoteCall] in Hd. rewrite Hd, <- app_assoc.
        split; [reflexivity|]. intros members' thrown ->.
        destruct (Hres _ _ eq_refl) as [Hm Hlast]. split.
        -- rewrite Hm, <- app_assoc. reflexivity.
        -- destruct thrown as [e|].
           ++ destruct Hlast as (i & Hl). exists i.
              destruct delta; [discriminate|]. exact Hl.
           ++ destruct Hlast as (i & o' & Hl & Ht). exists i, o'.
              destruct delta; [discriminate|]. auto.
      * intros [= <- <-]. eexists [_]. split; [reflexivity|].
        intros members' thrown [= <- <-]. cbn. rewrite app_nil_r. eauto.
    + intros [= <- <-]. eexists [_]. split; [reflexivity|].
      intros members' thrown [= <- <-]. cbn. rewrite app_nil_r. eauto.
Qed.

End MembersMore.

(** Property X5.  On a cache miss [getGroupMembers] never throws.  When it
    returns, it returns the user ids of the membership pages it received, in
    the order listed and none of them empty, and caches that list under the
    group id: the whole membership when the listing ran to its end, the
    members of the pages before the failure when a request was rejected. *)
Theorem getGroupMembers_returns_listed_ids {env : Environment} (fuel : nat)
    (identityStoreId groupId : string) (s : State env) :
  groupMembersCache s !! groupId = None ->
  let run := getGroupMembers fuel identityStoreId groupId s in
  exists delta,
    calls (snd run) = calls s ++ delta /\
    Forall (fun u => u <> EmptyString) (listedMembers delta) /\
    (fst run = OutOfFuel \/
     (fst run = Normal (listedMembers delta) /\
      groupMembersCache (snd run)
      = <[groupId := listedMembers delta]> (groupMembersCache s))).
Proof.
  intros Hmiss run. subst run.
  rewrite (getGroupMembers_miss _ _ _ _ Hmiss).
  destruct (listGroupMembershipsLoop_frame fuel identityStoreId groupId [] None s)
    as [((_ & _ & Hm) & _) Hthrow].
  destruct (listGroupMembershipsLoop fuel identityStoreId groupId [] None s)
    as [[[ms thrown] | e |] s1] eqn:Hloop; cbn [fst snd] in *.
  - destruct (listGroupMembershipsLoop_trace _ _ _ _ _ _ _ _ Hloop) as (delta & Hd & Hres).
    destruct (Hres _ _ eq_refl) as [Hms _]. cbn [app] in Hms.
    destruct (getGroupMembers_settled_spec groupId ms thrown s1)
      as (s2 & -> & Hm' & _ & _ & Hc' & _).
    exists delta. cbn [fst snd]. split; [congruence|].
    split; [apply listedMembers_nonEmpty|]. right. split; congruence.
  - now destruct (Hthrow e).
  - destruct (listGroupMembershipsLoop_trace _ _ _ _ _ _ _ _ Hloop) as (delta & Hd & _).
    exists delta. split; [exact Hd|]. split; [apply listedMembers_nonEmpty|]. now left.
Qed.

Lemma getGroupMembers_returns_listed_ids_witness :
  let s := initialState envMembers 0%nat in
  let run := getGroupMembers (env := envMembers) 3 "d-1" "g-1" s in
  groupMembersCache s !! "g-1" = None /\
  exists delta,
    calls (snd run) = calls s ++ delta /\
    Forall (fun u => u <> EmptyString) (listedMembers delta) /\
    (fst run = OutOfFuel \/
     (fst run = Normal (listedMembers delta) /\
      groupMembersCache (snd run)
      = <[ "g-1" := listedMembers delta]> (groupMembersCache s))).
Proof.
  intros s run. split; [reflexivity|].
  apply (getGroupMembers_returns_listed_ids (env := envMembers) 3 "d-1" "g-1" s).
  reflexivity.
Defined.

(** ** Pages of references *)

Section Cached.
Context {env : Environment}.
Implicit Types s : State env.

Lemma forOf_pushMemberRow_cached identityStoreId accountId permissionSetName gname s members :
  forall assignments,
  Forall (fun m => is_Some (userCache s !! m)) members ->
  forOf (pushMemberRow identityStoreId accountId permissionSetName gname)
        members assignments s
  = (Normal (assignments ++
             map (fun memberId =>
                    {| accountNumber := accountId; accountName := EmptyString;
                       username := resolvedUserName s memberId;
                       permissionSetName := permissionSetName;
                       assignmentType := GROUP; groupName := Some gname |})
                 members), s).
Proof.
  induction members as [|m members IH]; intros assignments Hall.
  - cbn. now rewrite app_nil_r.
  - pose proof (Forall_inv Hall) as [v Hv]. pose proof (Forall_inv_tail Hall) as Hrest.
    cbn [forOf]. unfold bind at 1. unfold pushMemberRow at 1. unfold bind at 1.
    rewrite (getUserName_hit _ _ _ _ Hv). cbn [ret].
    rewrite (IH _ Hrest). rewrite <- app_assoc. cbn.
    unfold resolvedUserName at 2. rewrite Hv. reflexivity.
Qed.

Lemma processAssignment_cached fuel identityStoreId accountId permissionSetName
    assignments a s :
  resolvedIn s a ->
  processAssignment fuel identityStoreId accountId permissionSetName assignments a s
  = (Normal (assignments ++ expectedRows s accountId permissionSetName a), s).
Proof.
  destruct (isMalformed a) eqn:Hmal.
  - intros _. rewrite processAssignment_malformed by assumption.
    unfold expectedRows, isUserRef, isGroupRef, hasType. rewrite Hmal. cbn.
    now rewrite app_nil_r.
  - unfold processAssignment, expectedRows, resolvedIn, resolvedMembers,
      isUserRef, isGroupRef, hasType, principalIdOf.
    rewrite Hmal. unfold isMalformed, truthy in Hmal.
    destruct (PrincipalId a) as [pid|], (PrincipalType a) as [pt|];
      cbn in Hmal; rewrite ?orb_true_r in Hmal; try discriminate.
    rewrite !negb_involutive in Hmal. rewrite Hmal. cbn [negb andb].
    destruct (String.eqb_spec pt "USER") as [-> | Huser].
    + cbn [String.eqb Ascii.eqb Bool.eqb andb]. intros [Hu _].
      destruct (Hu eq_refl) as [v Hv]. unfold bind, ret.
      rewrite (getUserName_hit _ _ _ _ Hv). unfold resolvedUserName. rewrite Hv. reflexivity.
    + destruct (String.eqb pt "GROUP") eqn:Hgroup.
      * intros [_ Hg]. destruct (Hg eq_refl) as ([gname Hgn] & [members Hms] & Hall).
        unfold bind at 1. rewrite (getGroupName_hit _ _ _ _ Hgn).
        unfold bind at 1. rewrite (getGroupMembers_hit _ _ _ _ _ Hms).
        rewrite Hms in Hall. simpl in Hall.
        rewrite (forOf_pushMemberRow_cached _ _ _ _ _ _ _ Hall).
        unfold resolvedGroupName. rewrite Hms, Hgn. reflexivity.
      * intros _. cbn. now rewrite app_nil_r.
Qed.

End Cached.

(** Property X6.  A page whose references are all resolved in the caches is
    turned into rows without a remote call and without any change of state:
    the rows are read off the caches. *)
Theorem cached_page_needs_no_call {env : Environment} (fuel : nat)
    (identityStoreId accountId permissionSetName : string)
    (page : list AccountAssignment) (assignments : list AdminAssignment) (s : State env) :
  Forall (resolvedIn s) page ->
  forOf (processAssignment fuel identityStoreId accountId permissionSetName)
        page assignments s
  = (Normal (assignments ++ flat_map (expectedRows s accountId permissionSetName) page), s).
Proof.
  revert assignments. induction page as [|a page IH]; intros assignments Hall.
  - cbn. now rewrite app_nil_r.
  - cbn [forOf flat_map]. unfold bind.
    rewrite (processAssignment_cached _ _ _ _ _ _ _ (Forall_inv Hall)).
    rewrite (IH _ (Forall_inv_tail Hall)). now rewrite app_assoc.
Qed.

Lemma cached_page_needs_no_call_witness :
  let s := snd (getAssignments (env := envTwoPages) 3 "arn:instance" "d-1"
                  "111111111111" "arn:ps-1" "AdminAccess" (initialState envTwoPages 0%nat)) in
  let page := [userRef "u-1"; groupRef "g-1"; userRef "u-3"] in
  Forall (resolvedIn s) page /\
  forOf (processAssignment 3 "d-1" "222222222222" "ReadOnly") page [] s
  = (Normal ([] ++ flat_map (expectedRows s "222222222222" "ReadOnly") page), s).
Proof.
  intros s page.
  assert (H : Forall (resolvedIn s) page).
  { repeat constructor; try discriminate; try (intros _); try (eexists; vm_compute; reflexivity).
    all: vm_compute; repeat constructor; eexists; reflexivity. }
  split; [exact H|].
  exact (cached_page_needs_no_call 3 "d-1" "222222222222" "ReadOnly" page [] s H).
Defined.

Section Failure.
Context {env : Environment}.
Implicit Types s : State env.

Lemma retryLoop_listAccountAssignments_throws i operationName retries remaining attempt_
    s e s' :
  (remaining + attempt_ = S retries)%nat -> remaining <> O ->
  retryLoop remaining attempt_ (sendListAccountAssignments i) operationName retries s
  = (Throws e, s') ->
  last (calls s') = Some (CallListAccountAssignments i (Rejected e)).
Proof.
  intros Hsum Hnz Hrun.
  destruct (retryLoop_last_invocation (sendListAccountAssignments i) operationName retries
              remaining attempt_ s Hsum Hnz) as (s_last & Hlast).
  rewrite Hrun in Hlast. unfold sendListAccountAssignments in Hlast.
  destruct (listAccountAssignments env (world s_last) i) as [[o | e'] w]; cbn in Hlast;
    [discriminate|].
  injection Hlast as -> <-. cbn. apply last_snoc.
Qed.

Lemma getAssignmentsLoop_throws fuel instanceArn identityStoreId accountId
    permissionSetArn permissionSetName :
  forall assignments nextToken s e s',
  getAssignmentsLoop fuel instanceArn identityStoreId accountId permissionSetArn
    permissionSetName assignments nextToken s = (Throws e, s') ->
  exists token,
    last (calls s')
    = Some (CallListAccountAssignments
              {| laa_InstanceArn := instanceArn; laa_AccountId := accountId;
                 laa_PermissionSetArn := permissionSetArn; laa_NextToken := token |}
              (Rejected e)).
Proof.
  induction fuel as [|fuel IH]; intros assignments nextToken s e s'.
  - cbn. discriminate.
  - cbn [getAssignmentsLoop]. unfold bind at 1. unfold retryWithBackoff.
    match goal with |- context [retryLoop ?n ?a ?op ?nm ?rt s] =>
      destruct (retryLoop n a op nm rt s) as [r1 s1] eqn:Hpage end.
    destruct r1 as [response | e1 |]; [| |discriminate].
    + unfold bind at 1.
      match goal with |- context [match ?m s1 with _ => _ end] =>
        destruct (m s1) as [r2 s2] eqn:Hrows end.
      assert (Hno : forall e2, r2 <> Throws e2).
      { destruct (AccountAssignments response) as [page|].
        - destruct (forOf_processAssignment_spec _ _ _ _ _ _ _ _ _ Hrows)
            as (_ & _ & [-> | (-> & _)]); discriminate.
        - injection Hrows as <- <-. discriminate. }
      destruct r2 as [assignments' | e2 |]; [| now destruct (Hno e2) | discriminate].
      destruct (truthy (laa_out_NextToken response)); [|discriminate].
      apply IH.
    + intros [= <- <-]. exists nextToken.
      eapply retryLoop_listAccountAssignments_throws; [| |exact Hpage]; [reflexivity|discriminate].
Qed.

End Failure.

(** Property X7.  [getAssignments] throws only what a ListAccountAssignments
    request for its account and permission set was rejected with, and that
    request is the last remote call made: no failure of the identity store
    makes it fail. *)
Theorem getAssignments_fails_only_on_listing {env : Environment} (fuel : nat)
    (instanceArn identityStoreId accountId permissionSetArn permissionSetName : string)
    (s : State env) (e : JsError) (s' : State env) :
  getAssignments fuel instanceArn identityStoreId accountId permissionSetArn
    permissionSetName s = (Throws e, s') ->
  exists token,
    last (calls s')
    = Some (CallListAccountAssignments
              {| laa_InstanceArn := instanceArn; laa_AccountId := accountId;
                 laa_PermissionSetArn := permissionSetArn; laa_NextToken := token |}
              (Rejected e)).
Proof. apply getAssignmentsLoop_throws. Qed.

Lemma getAssignments_fails_only_on_listing_witness :
  let run := getAssignments (env := envThrottled) 2 "arn:instance" "d-1"
               "111111111111" "arn:ps-1" "AdminAccess" (initialState envThrottled 0%nat) in
  run = (Throws throttlingError, snd run) /\
  exists token,
    last (calls (snd run))
    = Some (CallListAccountAssignments
              {| laa_InstanceArn := "arn:instance"; laa_AccountId := "111111111111";
                 laa_PermissionSetArn := "arn:ps-1"; laa_NextToken := token |}
              (Rejected throttlingError)).
Proof.
  intros run. split; [vm_compute; reflexivity|].
  apply (getAssignments_fails_only_on_listing (env := envThrottled) 2 "arn:instance" "d-1"
           "111111111111" "arn:ps-1" "AdminAccess" (initialState envThrottled 0%nat)
           throttlingError (snd run)).
  vm_compute. reflexivity.
Defined.

Lemma orElse_nonEmpty a b : b <> EmptyString -> orElse a b <> EmptyString.
Proof.
  intros Hb. unfold orElse. destruct a as [x|]; [|assumption].
  destruct (String.eqb_spec x EmptyString); assumption.
Qed.

Lemma settledUserName_nonEmpty userId r :
  userId <> EmptyString -> settledUserName userId r <> EmptyString.
Proof.
  intros Hid. unfold settledUserName. destruct r as [error | response].
  - destruct (String.eqb (name error) ResourceNotFoundException); [|assumption].
    rewrite append_cons. discriminate.
  - now apply orElse_nonEmpty.
Qed.

Lemma settledGroupName_nonEmpty groupId r :
  groupId <> EmptyString -> settledGroupName groupId r <> EmptyString.
Proof.
  intros Hid. unfold settledGroupName. destruct r as [error | response].
  - destruct (String.eqb (name error) ResourceNotFoundException); [|assumption].
    rewrite append_cons. discriminate.
  - now apply orElse_nonEmpty.
Qed.

Section Named.
Context {env : Environment}.
Implicit Types s : State env.

Lemma cachesNamed_same s s' : sameCaches s s' -> cachesNamed s -> cachesNamed s'.
Proof. intros (Hu & Hg & Hm). unfold cachesNamed. now rewrite Hu, Hg, Hm. Qed.

Lemma cachesNamed_user s s' userId v :
  v <> EmptyString ->
  userCache s' = <[userId := v]> (userCache s) ->
  groupCache s' = groupCache s -> groupMembersCache s' = groupMembersCache s ->
  cachesNamed s -> cachesNamed s'.
Proof.
  intros Hv Hu Hg Hm (Iu & Ig & Im). unfold cachesNamed. rewrite Hu, Hg, Hm.
  split; [|split]; [|assumption|assumption].
  intros k v' [[_ <-] | [_ Hk]]%lookup_insert_Some; [assumption | eauto].
Qed.

Lemma cachesNamed_group s s' groupId v :
  v <> EmptyString ->
  groupCache s' = <[groupId := v]> (groupCache s) ->
  userCache s' = userCache s -> groupMembersCache s' = groupMembersCache s ->
  cachesNamed s -> cachesNamed s'.
Proof.
  intros Hv Hg Hu Hm (Iu & Ig & Im). unfold cachesNamed. rewrite Hu, Hg, Hm.
  split; [|split]; [assumption| |assumption].
  intros k v' [[_ <-] | [_ Hk]]%lookup_insert_Some; [assumption | eauto].
Qed.

Lemma cachesNamed_members s s' groupId members :
  Forall (fun m => m <> EmptyString) members ->
  groupMembersCache s' = <[groupId := members]> (groupMembersCache s) ->
  userCache s' = userCache s -> groupCache s' = groupCache s ->
  cachesNamed s -> cachesNamed s'.
Proof.
  intros Hv Hm Hu Hg (Iu & Ig & Im). unfold cachesNamed. rewrite Hu, Hg, Hm.
  split; [|split]; [assumption|assumption|].
  intros k v' [[_ <-] | [_ Hk]]%lookup_insert_Some; [assumption | eauto].
Qed.

Lemma getUserName_named identityStoreId userId s r s' :
  userId <> EmptyString -> cachesNamed s ->
  getUserName identityStoreId userId s = (r, s') -> cachesNamed s'.
Proof.
  intros Hid Inv. destruct (userCache s !! userId) as [v|] eqn:Hc.
  - rewrite (getUserName_hit _ _ _ _ Hc). now intros [= <- <-].
  - rewrite (getUserName_miss _ _ _ Hc).
    destruct (describeUserWithRetry_spec identityStoreId userId s) as (Hfuel & Hsame & _).
    destruct (describeUserWithRetry identityStoreId userId s) as [[o | e |] s1];
      cbn [fst snd] in *; [| |congruence].
    all: match goal with |- context [getUserName_settled _ ?x _] =>
           destruct (getUserName_settled_spec userId x s1)
             as (s2 & -> & Hu2 & Hg2 & Hm2 & _) end.
    all: intros [= <- <-].
    all: eapply cachesNamed_user; [| exact Hu2 | exact Hg2 | exact Hm2
                                   | eapply cachesNamed_same; eauto].
    all: now apply settledUserName_nonEmpty.
Qed.

Lemma getGroupName_named identityStoreId groupId s r s' :
  groupId <> EmptyString -> cachesNamed s ->
  getGroupName identityStoreId groupId s = (r, s') -> cachesNamed s'.
Proof.
  intros Hid Inv. destruct (groupCache s !! groupId) as [v|] eqn:Hc.
  - rewrite (getGroupName_hit _ _ _ _ Hc). now intros [= <- <-].
  - rewrite (getGroupName_miss _ _ _ Hc).
    destruct (describeGroupWithRetry_spec identityStoreId groupId s) as (Hfuel & Hsame & _).
    destruct (describeGroupWithRetry identityStoreId groupId s) as [[o | e |] s1];
      cbn [fst snd] in *; [| |congruence].
    all: match goal with |- context [getGroupName_settled _ ?x _] =>
           destruct (getGroupName_settled_spec groupId x s1)
             as (s2 & -> & Hg2 & Hu2 & Hm2 & _) end.
    all: intros [= <- <-].
    all: eapply cachesNamed_group; [| exact Hg2 | exact Hu2 | exact Hm2
                                    | eapply cachesNamed_same; eauto].
    all: now apply settledGroupName_nonEmpty.
Qed.

Lemma getGroupMembers_named fuel identityStoreId groupId s r s' :
  cachesNamed s ->
  getGroupMembers fuel identityStoreId groupId s = (r, s') -> cachesNamed s'.
Proof.
  intros Inv. destruct (groupMembersCache s !! groupId) as [v|] eqn:Hc.
  - rewrite (getGroupMembers_hit _ _ _ _ _ Hc). now intros [= <- <-].
  - rewrite (getGroupMembers_miss _ _ _ _ Hc).
    destruct (listGroupMembershipsLoop_frame fuel identityStoreId groupId [] None s)
      as [(Hsame & _) Hthrow].
    destruct (listGroupMembershipsLoop fuel identityStoreId groupId [] None s)
      as [[[ms thrown] | e |] s1] eqn:Hloop; cbn [fst snd] in *.
    + destruct (listGroupMembershipsLoop_trace _ _ _ _ _ _ _ _ Hloop) as (delta & _ & Hres).
      destruct (Hres _ _ eq_refl) as [Hms _]. cbn [app] in Hms.
      destruct (getGroupMembers_settled_spec groupId ms thrown s1)
        as (s2 & -> & Hm2 & Hu2 & Hg2 & _).
      intros [= <- <-].
      eapply cachesNamed_members; [| exact Hm2 | exact Hu2 | exact Hg2
                                   | eapply cachesNamed_same; eauto].
      rewrite Hms. apply listedMembers_nonEmpty.
    + now destruct (Hthrow e).
    + intros [= <- <-]. eapply cachesNamed_same; eauto.
Qed.

Lemma forOf_pushMemberRow_named identityStoreId accountId permissionSetName gname members :
  forall assignments s r s',
  Forall (fun m => m <> EmptyString) members -> cachesNamed s ->
  forOf (pushMemberRow identityStoreId accountId permissionSetName gname)
        members assignments s = (r, s') ->
  cachesNamed s'.
Proof.
  induction members as [|m members IH]; intros assignments s r s' Hall Inv.
  - cbn. now intros [= <- <-].
  - cbn [forOf]. unfold bind at 1. unfold pushMemberRow at 1. unfold bind at 1.
    destruct (getUserName identityStoreId m s) as [r1 s1] eqn:Hone.
    pose proof (getUserName_named _ _ _ _ _ (Forall_inv Hall) Inv Hone) as Inv1.
    destruct r1 as [v | e |]; cbn [ret]; try (now intros [= <- <-]).
    apply IH; [exact (Forall_inv_tail Hall) | exact Inv1].
Qed.

Lemma processAssignment_named fuel identityStoreId accountId permissionSetName
    assignments a s r s' :
  cachesNamed s ->
  processAssignment fuel identityStoreId accountId permissionSetName assignments a s
  = (r, s') ->
  cachesNamed s'.
Proof.
  intros Inv. destruct (isMalformed a) eqn:Hmal.
  - rewrite processAssignment_malformed by assumption. now intros [= <- <-].
  - unfold processAssignment. unfold isMalformed, truthy in Hmal.
    destruct (PrincipalId a) as [pid|], (PrincipalType a) as [pt|];
      cbn in Hmal; rewrite ?orb_true_r in Hmal; try discriminate.
    rewrite !negb_involutive in Hmal. rewrite Hmal.
    apply orb_false_elim in Hmal as [Hpid _].
    apply String.eqb_neq in Hpid.
    destruct (String.eqb pt "USER").
    + unfold bind, ret.
      destruct (getUserName identityStoreId pid s) as [r1 s1] eqn:Hone.
      pose proof (getUserName_named _ _ _ _ _ Hpid Inv Hone) as Inv1.
      destruct r1; now intros [= <- <-].
    + destruct (String.eqb pt "GROUP"); [|now intros [= <- <-]].
      unfold bind at 1.
      destruct (getGroupName identityStoreId pid s) as [r1 s1] eqn:Hone.
      pose proof (getGroupName_named _ _ _ _ _ Hpid Inv Hone) as Inv1.
      destruct r1 as [gname | e |]; try (now intros [= <- <-]).
      unfold bind at 1.
      destruct (getGroupMembers fuel identityStoreId pid s1) as [r2 s2] eqn:Hmem.
      pose proof (getGroupMembers_named _ _ _ _ _ _ Inv1 Hmem) as Inv2.
      destruct (getGroupMembers_spec _ _ _ _ _ _ Hmem) as (_ & _ & _ & _ & Hres).
      destruct Hres as [-> | (members & -> & Hcached)]; [now intros [= <- <-]|].
      apply forOf_pushMemberRow_named; [|exact Inv2].
      destruct Inv2 as (_ & _ & Im). eauto.
Qed.

Lemma forOf_processAssignment_named fuel identityStoreId accountId permissionSetName page :
  forall assignments s r s',
  cachesNamed s ->
  forOf (processAssignment fuel identityStoreId accountId permissionSetName)
        page assignments s = (r, s') ->
  cachesNamed s'.
Proof.
  induction page as [|a page IH]; intros assignments s r s' Inv.
  - cbn. now intros [= <- <-].
  - cbn [forOf]. unfold bind.
    destruct (processAssignment fuel identityStoreId accountId permissionSetName
                assignments a s) as [r1 s1] eqn:Hone.
    pose proof (processAssignment_named _ _ _ _ _ _ _ _ _ Inv Hone) as Inv1.
    destruct r1; try (now intros [= <- <-]). now apply IH.
Qed.

Lemma getAssignmentsLoop_named fuel instanceArn identityStoreId accountId
    permissionSetArn permissionSetName :
  forall assignments nextToken s r s',
  cachesNamed s ->
  getAssignmentsLoop fuel instanceArn identityStoreId accountId permissionSetArn
    permissionSetName assignments nextToken s = (r, s') ->
  cachesNamed s'.
Proof.
  induction fuel as [|fuel IH]; intros assignments nextToken s r s' Inv.
  - cbn. now intros [= <- <-].
  - cbn [getAssignmentsLoop]. unfold bind at 1. unfold retryWithBackoff.
    match goal with |- context [retryLoop ?n ?a ?op ?nm ?rt s] =>
      destruct (retryLoop n a op nm rt s) as [r1 s1] eqn:Hpage end.
    destruct (retryLoop_listAccountAssignments _ _ _ _ _ _ _ _ Hpage) as (Hsame1 & _).
    pose proof (cachesNamed_same _ _ Hsame1 Inv) as Inv1.
    destruct r1 as [response | e |]; try (now intros [= <- <-]).
    unfold bind at 1.
    match goal with |- context [match ?m s1 with _ => _ end] =>
      destruct (m s1) as [r2 s2] eqn:Hrows end.
    assert (Inv2 : cachesNamed s2).
    { destruct (AccountAssignments response) as [page|].
      - eapply forOf_processAssignment_named; eauto.
      - now injection Hrows as <- <-. }
    destruct r2 as [assignments' | e2 |]; try (now intros [= <- <-]).
    destruct (truthy (laa_out_NextToken response)); [|now intros [= <- <-]].
    now apply IH.
Qed.

Lemma expectedRows_named s accountId permissionSetName a :
  cachesNamed s -> resolvedIn s a ->
  Forall (fun row => username row <> EmptyString /\
                     (groupField row = EmptyString <-> assignmentType row = USER))
         (expectedRows s accountId permissionSetName a).
Proof.
  intros (Iu & Ig & Im) (Hu & Hg). unfold expectedRows.
  destruct (isUserRef a).
  - destruct (Hu eq_refl) as [v Hv]. constructor; [|constructor]. cbn.
    unfold resolvedUserName. rewrite Hv. cbn. split; [eauto | tauto].
  - destruct (isGroupRef a); [|constructor].
    destruct (Hg eq_refl) as ([gname Hgn] & _ & Hall).
    apply Forall_forall. intros row Hin.
    apply list_elem_of_In, in_map_iff in Hin as (m & <- & Hm). cbn.
    rewrite Forall_forall in Hall. apply list_elem_of_In, Hall in Hm as [v Hv].
    unfold resolvedUserName, resolvedGroupName, groupField. rewrite Hv, Hgn. cbn.
    split; [eauto|]. split; [|discriminate].
    intros Hempty. exfalso. apply (Ig _ _ Hgn).
    destruct (String.eqb_spec gname EmptyString); [assumption|]. assumption.
Qed.

End Named.

Lemma cachesNamed_initialState (env : Environment) (w : World env) :
  cachesNamed (initialState env w).
Proof. repeat split; intros k v H; cbn in H; rewrite lookup_empty in H; discriminate. Qed.

(** Property X8.  Started from caches that hold no empty name, as the empty
    caches of a fresh run do, [getAssignments] leaves the caches so, and every
    row it returns has a non-empty username, the account id and the
    permission-set name it was called with, and an empty Group column exactly
    when it is a direct USER assignment. *)
Theorem getAssignments_rows_are_named {env : Environment} (fuel : nat)
    (instanceArn identityStoreId accountId permissionSetArn setName : string)
    (s : State env) (rows : list AdminAssignment) (s' : State env) :
  cachesNamed s ->
  getAssignments fuel instanceArn identityStoreId accountId permissionSetArn
    setName s = (Normal rows, s') ->
  cachesNamed s' /\
  Forall (fun row => username row <> EmptyString /\
                     accountNumber row = accountId /\
                     permissionSetName row = setName /\
                     (groupField row = EmptyString <-> assignmentType row = USER))
         rows.
Proof.
  intros Inv Hrun. unfold getAssignments in Hrun.
  pose proof (getAssignmentsLoop_named _ _ _ _ _ _ _ _ _ _ _ Inv Hrun) as Inv'.
  split; [exact Inv'|].
  destruct (getAssignmentsLoop_spec _ _ _ _ _ _ _ _ _ _ _ Hrun) as (_ & Hrows).
  destruct (Hrows rows eq_refl) as (delta & _ & -> & Hres). cbn [app].
  clear Hrun Hrows.
  induction Hres as [|a refs Ha Hrefs IH]; [constructor|].
  cbn [flat_map]. apply Forall_app. split; [|exact IH].
  pose proof (expectedRows_named s' accountId setName a Inv' Ha) as Hnamed.
  rewrite Forall_forall in *. intros row Hin. destruct (Hnamed row Hin) as [Hn Hg].
  repeat split; try assumption; try apply Hg.
  - clear -Hin. apply list_elem_of_In in Hin. unfold expectedRows in Hin.
    destruct (isUserRef a); [destruct Hin as [<- | []]; reflexivity|].
    destruct (isGroupRef a); [|destruct Hin].
    apply in_map_iff in Hin as (m & <- & _). reflexivity.
  - clear -Hin. apply list_elem_of_In in Hin. unfold expectedRows in Hin.
    destruct (isUserRef a); [destruct Hin as [<- | []]; reflexivity|].
    destruct (isGroupRef a); [|destruct Hin].
    apply in_map_iff in Hin as (m & <- & _). reflexivity.
Qed.

Lemma getAssignments_rows_are_named_witness :
  exists rows s',
    getAssignments (env := envTwoPages) 3 "arn:instance" "d-1"
      "111111111111" "arn:ps-1" "AdminAccess" (initialState envTwoPages 0%nat)
    = (Normal rows, s') /\
    length rows = 4%nat /\
    cachesNamed s' /\
    Forall (fun row => username row <> EmptyString /\
                       accountNumber row = "111111111111" /\
                       permissionSetName row = "AdminAccess" /\
                       (groupField row = EmptyString <-> assignmentType row = USER))
           rows.
Proof.
  eexists. eexists. split; [vm_compute; reflexivity|]. split; [reflexivity|].
  apply (getAssignments_rows_are_named (env := envTwoPages) 3 "arn:instance" "d-1"
           "111111111111" "arn:ps-1" "AdminAccess" (initialState envTwoPages 0%nat)).
  - apply cachesNamed_initialState.
  - vm_compute. reflexivity.
Defined.

(** ** The task list and the aggregation *)

Section AggregationMore.

Lemma jsmap_alter_append {V} k (rows : list V) (m : JsMap (list V)) :
  jsmap_has k m = true ->
  concat (jsmap_values (jsmap_alter (fun old => old ++ rows) k m))
  ≡ₚ concat (jsmap_values m) ++ rows.
Proof.
  induction m as [|[k' v] m IH]; cbn; [discriminate|].
  destruct (String.eqb k' k); cbn.
  - intros _. rewrite <- !app_assoc. apply Permutation_app_head, Permutation_app_comm.
  - intros H. rewrite (IH H), <- app_assoc. reflexivity.
Qed.

Lemma groupResult_rows accountMap (result : Task * list AdminAssignment) :
  concat (jsmap_values (groupResult accountMap result))
  ≡ₚ concat (jsmap_values accountMap) ++ snd result.
Proof.
  destruct result as [task assignments]. cbn [groupResult snd].
  destruct (jsmap_has (task_accountId task) accountMap) eqn:Hhas; cbn [negb].
  - now apply jsmap_alter_append.
  - unfold jsmap_set. rewrite Hhas. rewrite jsmap_alter_last by assumption.
    rewrite concat_values_app. cbn. now rewrite app_nil_r.
Qed.

Lemma fold_groupResult_rows allTaskResults : forall accountMap,
  concat (jsmap_values (fold_left groupResult allTaskResults accountMap))
  ≡ₚ concat (jsmap_values accountMap) ++ concat (map snd allTaskResults).
Proof.
  induction allTaskResults as [|result rest IH]; intros accountMap.
  - cbn. now rewrite app_nil_r.
  - cbn [fold_left map concat]. rewrite IH, groupResult_rows, <- app_assoc. reflexivity.
Qed.

Lemma jsmap_alter_keys {V} (f : V -> V) k (m : JsMap V) :
  map fst (jsmap_alter f k m) = map fst m.
Proof.
  induction m as [|[k' v] m IH]; [reflexivity|]. cbn.
  destruct (String.eqb k' k); cbn; [reflexivity | now rewrite IH].
Qed.

End AggregationMore.

(** Property X9.  Whatever the task results are, and in whatever order,
    grouping them by account and flattening neither drops nor repeats a row:
    the report holds the rows of the results up to their order, and as many
    as the results hold together. *)
Theorem aggregate_keeps_every_row (allTaskResults : list (Task * list AdminAssignment)) :
  aggregate allTaskResults ≡ₚ concat (map snd allTaskResults) /\
  length (aggregate allTaskResults) = sum_list (map (fun r => length (snd r)) allTaskResults).
Proof.
  assert (H : aggregate allTaskResults ≡ₚ concat (map snd allTaskResults)).
  { unfold aggregate. cbv zeta. rewrite fold_groupResult_rows. reflexivity. }
  split; [exact H|]. rewrite H. clear H.
  induction allTaskResults as [|r rest IH]; [reflexivity|].
  cbn. rewrite length_app, IH. reflexivity.
Qed.

(** Property X10.  [allTasks] holds one task for each pair of an account and
    a permission set, so its length is [totalOperations] (line 431), and every
    task carries an account and a permission set of the two maps. *)
Theorem allTasks_pairs (accounts allPermissionSets : JsMap string) :
  length (allTasks accounts allPermissionSets)
  = (length accounts * length allPermissionSets)%nat /\
  forall task, In task (allTasks accounts allPermissionSets) <->
    In (task_accountId task, task_accountName task) accounts /\
    In (task_permissionSetArn task, task_permissionSetName task) allPermissionSets.
Proof.
  split.
  - unfold allTasks. induction accounts as [|a accounts IH]; [reflexivity|].
    cbn [flat_map]. rewrite length_app, length_map, IH. reflexivity.
  - intros task. unfold allTasks. rewrite in_flat_map. split.
    + intros ([id nm] & Ha & Hin). apply in_map_iff in Hin as ([arn ps] & <- & Hp).
      cbn. auto.
    + intros [Ha Hp]. eexists. split; [exact Ha|]. apply in_map_iff.
      eexists. split; [|exact Hp]. destruct task; reflexivity.
Qed.

(** ** Start-up *)

Section JsMapMore.
Context {V : Type}.
Implicit Types m : JsMap V.

Lemma jsmap_set_keys k v m :
  map fst (jsmap_set k v m) = if jsmap_has k m then map fst m else map fst m ++ [k].
Proof.
  unfold jsmap_set. destruct (jsmap_has k m).
  - apply jsmap_alter_keys.
  - now rewrite map_app.
Qed.

Lemma jsmap_has_true_iff k m : jsmap_has k m = true <-> In k (map fst m).
Proof.
  destruct (jsmap_has k m) eqn:H.
  - split; [|reflexivity]. intros _.
    destruct (in_dec string_dec k (map fst m)) as [Hin | Hout]; [assumption|].
    apply jsmap_has_false_iff in Hout. congruence.
  - apply jsmap_has_false_iff in H. split; [discriminate | contradiction].
Qed.

Lemma jsmap_set_NoDup k v m : NoDup (map fst m) -> NoDup (map fst (jsmap_set k v m)).
Proof.
  intros Hnd. rewrite jsmap_set_keys. destruct (jsmap_has k m) eqn:Hhas; [assumption|].
  apply NoDup_app. split; [assumption|]. split; [|apply NoDup_singleton].
  intros x Hx ->%list_elem_of_singleton.
  apply jsmap_has_false_iff in Hhas. apply Hhas. now apply list_elem_of_In.
Qed.

Lemma jsmap_set_key_iff k v m k' :
  In k' (map fst (jsmap_set k v m)) <-> k' = k \/ In k' (map fst m).
Proof.
  rewrite jsmap_set_keys. destruct (jsmap_has k m) eqn:Hhas.
  - apply jsmap_has_true_iff in Hhas. split; [auto|]. intros [-> | H]; assumption.
  - rewrite in_app_iff. cbn. intuition congruence.
Qed.

Lemma jsmap_alter_entries (f : V -> V) k m k' v' :
  In (k', v') (jsmap_alter f k m) ->
  In (k', v') m \/ (k' = k /\ exists v, v' = f v).
Proof.
  induction m as [|[k0 v0] m IH]; cbn; [tauto|].
  destruct (String.eqb_spec k0 k) as [-> | Hne]; cbn.
  - intros [[= <- <-] | H]; [right; eauto | auto].
  - intros [H | H]; [auto|]. destruct (IH H); auto.
Qed.

Lemma jsmap_set_entries k v m k' v' :
  In (k', v') (jsmap_set k v m) -> In (k', v') m \/ (k' = k /\ v' = v).
Proof.
  unfold jsmap_set. destruct (jsmap_has k m).
  - intros H. apply jsmap_alter_entries in H as [H | (-> & _ & ->)]; auto.
  - rewrite in_app_iff. cbn. intros [H | [[= <- <-] | []]]; auto.
Qed.

End JsMapMore.

Lemma listedAccounts_app t1 t2 :
  listedAccounts (t1 ++ t2) = listedAccounts t1 ++ listedAccounts t2.
Proof. unfold listedAccounts. apply flat_map_app. Qed.

Lemma listedPermissionSets_app t1 t2 :
  listedPermissionSets (t1 ++ t2) = listedPermissionSets t1 ++ listedPermissionSets t2.
Proof. unfold listedPermissionSets. apply flat_map_app. Qed.

Lemma describedPermissionSets_app t1 t2 :
  describedPermissionSets (t1 ++ t2)
  = describedPermissionSets t1 ++ describedPermissionSets t2.
Proof. unfold describedPermissionSets. apply flat_map_app. Qed.

Lemma describedPermissionSets_cons c t :
  describedPermissionSets (c :: t)
  = describedPermissionSets [c] ++ describedPermissionSets t.
Proof. apply (describedPermissionSets_app [c] t). Qed.

Lemma listedPermissionSets_cons c t :
  listedPermissionSets (c :: t) = listedPermissionSets [c] ++ listedPermissionSets t.
Proof. apply (listedPermissionSets_app [c] t). Qed.

Lemma truthy_Some_true v : truthy (Some v) = true -> v <> EmptyString.
Proof. cbn. intros H ->. discriminate. Qed.

Lemma truthy_Some_nonEmpty v : v <> EmptyString -> truthy (Some v) = true.
Proof. cbn. intros H. now apply negb_true_iff, String.eqb_neq. Qed.

Lemma accountsOf_nil : accountsOf [] [].
Proof.
  split; [constructor|]. split; [intros ? ? []|]. intros ? ? ? [].
Qed.

Lemma accountsOf_weaken listed more accounts :
  accountsOf listed accounts ->
  (forall account id accountName', In account more ->
     acc_Id account = Some id -> acc_Name account = Some accountName' ->
     id <> EmptyString -> accountName' <> EmptyString -> In id (map fst accounts)) ->
  accountsOf (listed ++ more) accounts.
Proof.
  intros (Hnd & Hin & Hall) Hmore. split; [assumption|]. split.
  - intros id nm H. destruct (Hin id nm H) as (H1 & H2 & a & Ha & H3 & H4).
    repeat split; auto. exists a. rewrite in_app_iff. auto.
  - intros a id nm [Ha | Ha]%in_app_iff; eauto.
Qed.

Lemma addAccount_accountsOf listed accounts account :
  accountsOf listed accounts ->
  accountsOf (listed ++ [account]) (addAccount accounts account).
Proof.
  intros Hacc. unfold addAccount.
  destruct (acc_Id account) as [id|] eqn:Hid;
    [destruct (acc_Name account) as [nm|] eqn:Hnm|].
  - destruct (truthy (Some id)) eqn:Tid; [destruct (truthy (Some nm)) eqn:Tnm|]; cbn [andb].
    + destruct Hacc as (Hnd & Hin & Hall). split; [now apply jsmap_set_NoDup|]. split.
      * intros id' nm' [H | [-> ->]]%jsmap_set_entries.
        -- destruct (Hin id' nm' H) as (H1 & H2 & a & Ha & H3 & H4).
           repeat split; auto. exists a. rewrite in_app_iff. auto.
        -- repeat split; auto using truthy_Some_true.
           exists account. rewrite in_app_iff. cbn. auto.
      * intros a id' nm' [Ha | [<- | []]]%in_app_iff Hi Hn Hne1 Hne2;
          apply jsmap_set_key_iff; [right; eauto | left; congruence].
    + apply accountsOf_weaken; [assumption|].
      intros a id' nm' [<- | []] Hi Hn Hne1 Hne2.
      rewrite Hnm in Hn. injection Hn as <-.
      rewrite truthy_Some_nonEmpty in Tnm by assumption. discriminate.
    + apply accountsOf_weaken; [assumption|].
      intros a id' nm' [<- | []] Hi Hn Hne1 Hne2.
      rewrite Hid in Hi. injection Hi as <-.
      rewrite truthy_Some_nonEmpty in Tid by assumption. discriminate.
  - apply accountsOf_weaken; [assumption|].
    intros a id' nm' [<- | []] Hi Hn. congruence.
  - apply accountsOf_weaken; [assumption|].
    intros a id' nm' [<- | []] Hi Hn. congruence.
Qed.

Lemma fold_addAccount_accountsOf page : forall listed accounts,
  accountsOf listed accounts ->
  accountsOf (listed ++ page) (fold_left addAccount page accounts).
Proof.
  induction page as [|account page IH]; intros listed accounts Hacc.
  - now rewrite app_nil_r.
  - cbn [fold_left]. replace (listed ++ account :: page) with ((listed ++ [account]) ++ page)
      by now rewrite <- app_assoc.
    apply IH. now apply addAccount_accountsOf.
Qed.

Section StartupLemmas.
Context {senv : StartupEnvironment}.
Implicit Types s : StartupState senv.

Lemma getOrgAccountsLoop_spec fuel : forall listed accounts nextToken s r s',
  accountsOf listed accounts ->
  getOrgAccountsLoop fuel accounts nextToken s = (r, s') ->
  exists delta,
    startupCalls s' = startupCalls s ++ delta /\
    (forall accounts', r = Normal accounts' ->
       accountsOf (listed ++ listedAccounts delta) accounts') /\
    (forall e, r = Throws e ->
       exists token, last delta = Some (CallListAccounts token (Rejected e))).
Proof.
  induction fuel as [|fuel IH]; intros listed accounts nextToken s r s' Hacc.
  - cbn. intros [= <- <-]. exists []. rewrite app_nil_r. repeat split; discriminate.
  - cbn [getOrgAccountsLoop]. unfold bootBind at 1. unfold sendListAccounts.
    destruct (listAccounts senv (startupWorld s) nextToken) as [[response | e] w] eqn:Hreply;
      cbn [settle].
    + set (accounts' := match Accounts response with
                        | Some page => fold_left addAccount page accounts
                        | None => accounts
                        end).
      assert (Hacc' : accountsOf (listed ++ default [] (Accounts response)) accounts').
      { subst accounts'. destruct (Accounts response) as [page|]; cbn [default].
        - now apply fold_addAccount_accountsOf.
        - now rewrite app_nil_r. }
      destruct (truthy (la_out_NextToken response)).
      * intros Hrun. destruct (IH _ _ _ _ _ _ Hacc' Hrun) as (delta & Hd & Hok & Hthrow).
        eexists (_ :: delta). cbn [startupCalls startupCall] in Hd.
        rewrite Hd, <- app_assoc. split; [reflexivity|]. split.
        -- intros m Hm. specialize (Hok m Hm).
           change (CallListAccounts nextToken (Resolved response) :: delta)
             with ([CallListAccounts nextToken (Resolved response)] ++ delta).
           rewrite listedAccounts_app. cbn [listedAccounts flat_map].
           rewrite app_nil_r, app_assoc. exact Hok.
        -- intros e He. destruct (Hthrow e He) as (t & Hl). exists t.
           destruct delta; [discriminate | exact Hl].
      * intros [= <- <-]. eexists [_]. split; [reflexivity|]. split; [|discriminate].
        intros m [= <-]. cbn [listedAccounts flat_map]. now rewrite app_nil_r.
    + intros [= <- <-]. eexists [_]. split; [reflexivity|]. split; [discriminate|].
      intros e' [= <-]. eauto.
Qed.

Lemma describeInto_forOf_spec instanceArn page : forall permissionSets s r s',
  NoDup (map fst permissionSets) ->
  bootForOf (describeInto instanceArn) page permissionSets s = (r, s') ->
  exists delta,
    startupCalls s' = startupCalls s ++ delta /\
    listedPermissionSets delta = [] /\
    r <> OutOfFuel /\
    (forall permissionSets', r = Normal permissionSets' ->
       describedPermissionSets delta = page /\
       NoDup (map fst permissionSets') /\
       (forall arn, In arn (map fst permissionSets')
                    <-> In arn (map fst permissionSets) \/ In arn page) /\
       (forall arn nm, In (arn, nm) permissionSets' ->
          In (arn, nm) permissionSets \/ describedAs instanceArn delta arn nm)) /\
    (forall e, r = Throws e ->
       exists c, last delta = Some c /\ rejection c = Some e).
Proof.
  induction page as [|arn page IH]; intros permissionSets s r s' Hnd.
  - cbn. intros [= <- <-]. exists []. rewrite app_nil_r.
    split; [reflexivity|]. split; [reflexivity|]. split; [discriminate|].
    split; [|discriminate]. intros m [= <-]. repeat split; auto; tauto.
  - cbn [bootForOf]. unfold bootBind at 1. unfold describeInto at 1.
    unfold bootBind at 1. unfold sendDescribePermissionSet.
    destruct (describePermissionSet senv (startupWorld s) _) as [[details | e] w] eqn:Hreply;
      cbn [settle bootRet].
    + intros Hrun.
      pose proof (jsmap_set_NoDup arn (permissionSetNameOf details) _ Hnd) as Hnd1.
      destruct (IH _ _ _ _ Hnd1 Hrun) as (delta & Hd & Hlisted & Hfuel & Hok & Hthrow).
      eexists (_ :: delta). cbn [startupCalls startupCall] in Hd.
      rewrite Hd, <- app_assoc. split; [reflexivity|].
      split; [exact Hlisted|]. split; [exact Hfuel|]. split.
      * intros m Hm. destruct (Hok m Hm) as (Hdesc & Hnd' & Hkeys & Hentries).
        split; [rewrite describedPermissionSets_cons, Hdesc; reflexivity|].
        split; [exact Hnd'|]. split.
        -- intros arn'. rewrite Hkeys, jsmap_set_key_iff. cbn. intuition congruence.
        -- intros arn' nm Hin. destruct (Hentries arn' nm Hin) as [H | (d & Hd' & Hn)].
           ++ apply jsmap_set_entries in H as [H | [-> ->]]; [now left|].
              right. exists details. split; [now left | reflexivity].
           ++ right. exists d. split; [now right | assumption].
      * intros e He. destruct (Hthrow e He) as (c & Hl & Hc). exists c.
        split; [|exact Hc]. destruct delta; [discriminate | exact Hl].
    + intros [= <- <-]. eexists [_]. split; [reflexivity|]. split; [reflexivity|].
      split; [discriminate|]. split; [discriminate|].
      intros e' [= <-]. eexists. split; reflexivity.
Qed.

Lemma getAllPermissionSetsLoop_spec fuel instanceArn :
  forall permissionSets nextToken s r s',
  NoDup (map fst permissionSets) ->
  getAllPermissionSetsLoop fuel instanceArn permissionSets nextToken s = (r, s') ->
  exists delta,
    startupCalls s' = startupCalls s ++ delta /\
    (forall permissionSets', r = Normal permissionSets' ->
       describedPermissionSets delta = listedPermissionSets delta /\
       NoDup (map fst permissionSets') /\
       (forall arn, In arn (map fst permissionSets')
                    <-> In arn (map fst permissionSets)
                        \/ In arn (listedPermissionSets delta)) /\
       (forall arn nm, In (arn, nm) permissionSets' ->
          In (arn, nm) permissionSets \/ describedAs instanceArn delta arn nm)) /\
    (forall e, r = Throws e ->
       exists c, last delta = Some c /\ rejection c = Some e).
Proof.
  induction fuel as [|fuel IH]; intros permissionSets nextToken s r s' Hnd.
  - cbn. intros [= <- <-]. exists []. rewrite app_nil_r. repeat split; discriminate.
  - cbn [getAllPermissionSetsLoop]. unfold bootBind at 1. unfold sendListPermissionSets.
    destruct (listPermissionSets senv (startupWorld s) _) as [[response | e] w] eqn:Hreply;
      cbn [settle].
    + unfold bootBind at 1.
      match goal with |- context [match ?m ?st with _ => _ end] =>
        destruct (m st) as [r1 s1] eqn:Hpage end.
      assert (Hpagespec : exists delta,
        startupCalls s1 = (startupCalls s ++ [CallListPermissionSets
           {| lps_InstanceArn := instanceArn; lps_NextToken := nextToken |}
           (Resolved response)]) ++ delta /\
        listedPermissionSets delta = [] /\ r1 <> OutOfFuel /\
        (forall m, r1 = Normal m ->
           describedPermissionSets delta = default [] (PermissionSets response) /\
           NoDup (map fst m) /\
           (forall arn, In arn (map fst m)
                        <-> In arn (map fst permissionSets)
                            \/ In arn (default [] (PermissionSets response))) /\
           (forall arn nm, In (arn, nm) m ->
              In (arn, nm) permissionSets \/ describedAs instanceArn delta arn nm)) /\
        (forall e, r1 = Throws e -> exists c, last delta = Some c /\ rejection c = Some e)).
      { destruct (PermissionSets response) as [page|]; cbn [default].
        - destruct (describeInto_forOf_spec _ _ _ _ _ _ Hnd Hpage) as (delta & Hd & H).
          exists delta. split; [exact Hd | exact H].
        - injection Hpage as <- <-. exists []. rewrite app_nil_r.
          split; [reflexivity|]. split; [reflexivity|]. split; [discriminate|].
          split; [|discriminate]. intros m [= <-].
          split; [reflexivity|]. split; [assumption|]. split; [|auto].
          intros arn. cbn. tauto. }
      destruct Hpagespec as (delta1 & Hd1 & Hl1 & Hfuel1 & Hok1 & Hthrow1).
      destruct r1 as [m1 | e1 |]; [| |congruence].
      * destruct (Hok1 m1 eq_refl) as (Hdesc1 & Hnd1 & Hkeys1 & Hent1).
        destruct (truthy (lps_out_NextToken response)).
        -- intros Hrun. destruct (IH _ _ _ _ _ Hnd1 Hrun) as (delta & Hd & Hok & Hthrow).
           exists ((CallListPermissionSets
                      {| lps_InstanceArn := instanceArn; lps_NextToken := nextToken |}
                      (Resolved response) :: delta1) ++ delta).
           split; [rewrite Hd, Hd1, <- !app_assoc; reflexivity|]. split.
           ++ intros m Hm. destruct (Hok m Hm) as (Hdesc & Hnd' & Hkeys & Hent).
              rewrite describedPermissionSets_app, listedPermissionSets_app.
              rewrite describedPermissionSets_cons, listedPermissionSets_cons.
              rewrite Hl1, Hdesc1, Hdesc. cbn. rewrite !app_nil_r.
              split; [reflexivity|]. split; [exact Hnd'|]. split.
              ** intros arn. rewrite Hkeys, Hkeys1, in_app_iff. tauto.
              ** intros arn nm Hin. destruct (Hent arn nm Hin) as [H | (d & Hd' & Hn)].
                 --- destruct (Hent1 arn nm H) as [H' | (d & Hd' & Hn)]; [now left|].
                     right. exists d. split; [|assumption].
                     apply (in_or_app (_ :: delta1) delta). left. now right.
                 --- right. exists d. split; [|assumption].
                     apply (in_or_app (_ :: delta1) delta). now right.
           ++ intros e He. destruct (Hthrow e He) as (c & Hl & Hc). exists c.
              split; [|exact Hc]. rewrite last_app, Hl. reflexivity.
        -- intros [= <- <-]. eexists (_ :: delta1). rewrite Hd1, <- app_assoc.
           split; [reflexivity|]. split; [|discriminate].
           intros m [= <-].
           rewrite describedPermissionSets_cons, listedPermissionSets_cons.
           rewrite Hl1, Hdesc1. cbn. rewrite !app_nil_r.
           split; [reflexivity|]. split; [exact Hnd1|]. split; [exact Hkeys1|].
           intros arn nm Hin. destruct (Hent1 arn nm Hin) as [H' | (d & Hd' & Hn)];
             [now left|]. right. exists d. split; [now right | assumption].
      * intros [= <- <-]. eexists (_ :: delta1). rewrite Hd1, <- app_assoc.
        split; [reflexivity|]. split; [discriminate|].
        intros e [= <-]. destruct (Hthrow1 e1 eq_refl) as (c & Hl & Hc). exists c.
        split; [|exact Hc]. destruct delta1; [discriminate | exact Hl].
    + intros [= <- <-]. eexists [_]. split; [reflexivity|]. split; [discriminate|].
      intros e' [= <-]. eexists. split; reflexivity.
Qed.

End StartupLemmas.

Section StartupTheorems.
Context {senv : StartupEnvironment}.
Implicit Types s : StartupState senv.

Lemma getIdentityStoreId_spec s r s' :
  getIdentityStoreId s = (r, s') ->
  exists reply,
    startupCalls s' = startupCalls s ++ [CallListInstances reply] /\
    match r with
    | Normal (instanceArn, identityStoreId) =>
        instanceArn <> EmptyString /\ identityStoreId <> EmptyString /\
        exists response rest,
          reply = Resolved response /\
          Instances response
          = Some ({| InstanceArn := Some instanceArn;
                     IdentityStoreId := Some identityStoreId |} :: rest)
    | Throws e =>
        reply = Rejected e \/
        exists response,
          reply = Resolved response /\
          (e = newError "No SSO instances found" \/
           e = newError "Instance ARN or Identity Store ID not found")
    | OutOfFuel => False
    end.
Proof.
  unfold getIdentityStoreId, bootBind, sendListInstances.
  destruct (listInstances senv (startupWorld s)) as [[response | e] w]; cbn [settle].
  - destruct (Instances response) as [[|[arn id] rest]|] eqn:Hinst;
      try (intros [= <- <-]; eexists; split; [reflexivity|]; right; eauto).
    cbn [InstanceArn IdentityStoreId].
    destruct arn as [arn|], id as [id|];
      try (intros [= <- <-]; eexists; split; [reflexivity|]; right; eauto).
    destruct (truthy (Some arn)) eqn:Tarn; [destruct (truthy (Some id)) eqn:Tid|];
      cbn [negb orb];
      try (intros [= <- <-]; eexists; split; [reflexivity|]; right; eauto).
    intros [= <- <-]. eexists. split; [reflexivity|].
    split; [now apply truthy_Some_true|]. split; [now apply truthy_Some_true|]. eauto.
  - intros [= <- <-]. eexists. split; [reflexivity|]. now left.
Qed.

Lemma getOrgAccounts_spec fuel s r s' :
  getOrgAccounts fuel s = (r, s') ->
  exists delta,
    startupCalls s' = startupCalls s ++ delta /\
    (forall accounts, r = Normal accounts -> accountsOf (listedAccounts delta) accounts) /\
    (forall e, r = Throws e ->
       exists token, last delta = Some (CallListAccounts token (Rejected e))).
Proof.
  intros Hrun. unfold getOrgAccounts in Hrun.
  exact (getOrgAccountsLoop_spec fuel [] [] None s r s' accountsOf_nil Hrun).
Qed.

Lemma getAllPermissionSets_spec fuel instanceArn s r s' :
  getAllPermissionSets fuel instanceArn s = (r, s') ->
  exists delta,
    startupCalls s' = startupCalls s ++ delta /\
    (forall permissionSets, r = Normal permissionSets ->
       describedPermissionSets delta = listedPermissionSets delta /\
       NoDup (map fst permissionSets) /\
       (forall arn, In arn (map fst permissionSets)
                    <-> In arn (listedPermissionSets delta)) /\
       (forall arn nm, In (arn, nm) permissionSets ->
                       describedAs instanceArn delta arn nm)) /\
    (forall e, r = Throws e -> exists c, last delta = Some c /\ rejection c = Some e).
Proof.
  intros Hrun. unfold getAllPermissionSets in Hrun.
  destruct (getAllPermissionSetsLoop_spec fuel instanceArn [] None s r s'
              (NoDup_nil_2 : NoDup (map fst (@nil (string * string)))) Hrun)
    as (delta & Hd & Hok & Hthrow).
  exists delta. split; [exact Hd|]. split; [|exact Hthrow].
  intros permissionSets Hr.
  destruct (Hok permissionSets Hr) as (Hdesc & Hnd & Hkeys & Hent).
  split; [exact Hdesc|]. split; [exact Hnd|]. split.
  - intros arn. rewrite Hkeys. cbn. tauto.
  - intros arn nm Hin. destruct (Hent arn nm Hin) as [[] | H]. exact H.
Qed.

End StartupTheorems.

(** Property X11.  When [getOrgAccounts] returns, its map has each account
    id once, no empty id and no empty name; every entry is an account some
    page listed, and every listed account with an id and a name is a key. *)
Theorem getOrgAccounts_lists_each_account_once {senv : StartupEnvironment} (fuel : nat)
    (s : StartupState senv) (accounts : JsMap string) (s' : StartupState senv) :
  getOrgAccounts fuel s = (Normal accounts, s') ->
  exists delta,
    startupCalls s' = startupCalls s ++ delta /\
    accountsOf (listedAccounts delta) accounts.
Proof.
  intros Hrun. destruct (getOrgAccounts_spec _ _ _ _ Hrun) as (delta & Hd & Hok & _).
  exists delta. split; [exact Hd|]. exact (Hok accounts eq_refl).
Qed.

Lemma getOrgAccounts_lists_each_account_once_witness :
  let run := getOrgAccounts (senv := senvSmall) 3 (startupState senvSmall 0%nat) in
  fst run = Normal [("111111111111", "Production"); ("222222222222", "Dev")] /\
  exists delta,
    startupCalls (snd run) = startupCalls (startupState senvSmall 0%nat) ++ delta /\
    accountsOf (listedAccounts delta)
      [("111111111111", "Production"); ("222222222222", "Dev")].
Proof.
  intros run. split; [reflexivity|].
  apply (getOrgAccounts_lists_each_account_once (senv := senvSmall) 3
           (startupState senvSmall 0%nat)).
  reflexivity.
Defined.

(** Property X12.  When [getAllPermissionSets] returns, it has asked for the
    details of each listed ARN, once per listing and in the order listed; the
    keys of its map are the listed ARNs, each once, and each name is the one
    a DescribePermissionSet reply for that ARN and that instance gave, the
    empty string when the reply had none. *)
Theorem getAllPermissionSets_describes_each_listed_arn {senv : StartupEnvironment}
    (fuel : nat) (instanceArn : string) (s : StartupState senv)
    (permissionSets : JsMap string) (s' : StartupState senv) :
  getAllPermissionSets fuel instanceArn s = (Normal permissionSets, s') ->
  exists delta,
    startupCalls s' = startupCalls s ++ delta /\
    describedPermissionSets delta = listedPermissionSets delta /\
    NoDup (map fst permissionSets) /\
    (forall arn, In arn (map fst permissionSets) <-> In arn (listedPermissionSets delta)) /\
    (forall arn nm, In (arn, nm) permissionSets -> describedAs instanceArn delta arn nm).
Proof.
  intros Hrun.
  destruct (getAllPermissionSets_spec _ _ _ _ _ Hrun) as (delta & Hd & Hok & _).
  exists delta. split; [exact Hd|]. exact (Hok permissionSets eq_refl).
Qed.

Lemma getAllPermissionSets_describes_each_listed_arn_witness :
  let run := getAllPermissionSets (senv := senvSmall) 3 "arn:instance"
               (startupState senvSmall 0%nat) in
  fst run = Normal [("arn:ps-1", "AdminAccess"); ("arn:ps-2", EmptyString)] /\
  exists delta,
    startupCalls (snd run) = startupCalls (startupState senvSmall 0%nat) ++ delta /\
    describedPermissionSets delta = listedPermissionSets delta /\
    NoDup (map fst [("arn:ps-1", "AdminAccess"); ("arn:ps-2", EmptyString)]) /\
    (forall arn, In arn (map fst [("arn:ps-1", "AdminAccess"); ("arn:ps-2", EmptyString)])
                 <-> In arn (listedPermissionSets delta)) /\
    (forall arn nm, In (arn, nm) [("arn:ps-1", "AdminAccess"); ("arn:ps-2", EmptyString)] ->
                    describedAs "arn:instance" delta arn nm).
Proof.
  intros run. split; [reflexivity|].
  apply (getAllPermissionSets_describes_each_listed_arn (senv := senvSmall) 3
           "arn:instance" (startupState senvSmall 0%nat)).
  reflexivity.
Defined.

(** Property X13.  When the start-up of [main] completes, the requests were
    sent in the order accounts, instance, permission sets; the account map
    has each id once; the instance ARN and the identity store id are those
    of the first instance listed and are not empty; and the permission sets
    were listed and described for that instance ARN. *)
Theorem startup_result {senv : StartupEnvironment} (fuel : nat) (s : StartupState senv)
    (accounts : JsMap string) (instanceArn identityStoreId : string)
    (allPermissionSets : JsMap string) (s' : StartupState senv) :
  startup fuel s = (Normal (accounts, (instanceArn, identityStoreId), allPermissionSets), s') ->
  exists accountCalls response rest permissionSetCalls,
    startupCalls s'
    = startupCalls s ++ accountCalls ++ [CallListInstances (Resolved response)]
      ++ permissionSetCalls /\
    accountsOf (listedAccounts accountCalls) accounts /\
    Instances response
    = Some ({| InstanceArn := Some instanceArn;
               IdentityStoreId := Some identityStoreId |} :: rest) /\
    instanceArn <> EmptyString /\ identityStoreId <> EmptyString /\
    NoDup (map fst allPermissionSets) /\
    (forall arn, In arn (map fst allPermissionSets)
                 <-> In arn (listedPermissionSets permissionSetCalls)) /\
    (forall arn nm, In (arn, nm) allPermissionSets ->
                    describedAs instanceArn permissionSetCalls arn nm).
Proof.
  unfold startup. unfold bootBind at 1.
  destruct (getOrgAccounts fuel s) as [[accounts1 | e |] s1] eqn:Hacc; try discriminate.
  unfold bootBind at 1.
  destruct (getIdentityStoreId s1) as [[[arn id] | e |] s2] eqn:Hids; try discriminate.
  unfold bootBind at 1. cbn [fst].
  destruct (getAllPermissionSets fuel arn s2) as [[sets | e |] s3] eqn:Hsets; try discriminate.
  intros [= <- <- <- <- <-].
  destruct (getOrgAccounts_spec _ _ _ _ Hacc) as (d1 & Hd1 & Hok1 & _).
  specialize (Hok1 _ eq_refl).
  destruct (getIdentityStoreId_spec _ _ _ Hids)
    as (reply & Hd2 & Harn & Hid & response & rest & -> & Hinst).
  destruct (getAllPermissionSets_spec _ _ _ _ _ Hsets) as (d3 & Hd3 & Hok3 & _).
  destruct (Hok3 _ eq_refl) as (_ & Hnd & Hkeys & Hent).
  exists d1, response, rest, d3.
  split; [rewrite Hd3, Hd2, Hd1, <- !app_assoc; reflexivity|]. auto 10.
Qed.

Lemma startup_result_witness :
  exists accounts allPermissionSets s',
    startup (senv := senvSmall) 3 (startupState senvSmall 0%nat)
    = (Normal (accounts, ("arn:instance", "d-1"), allPermissionSets), s') /\
    length (allTasks accounts allPermissionSets) = 4%nat /\
    exists accountCalls response rest permissionSetCalls,
      startupCalls s'
      = startupCalls (startupState senvSmall 0%nat) ++ accountCalls
        ++ [CallListInstances (Resolved response)] ++ permissionSetCalls /\
      accountsOf (listedAccounts accountCalls) accounts /\
      Instances response
      = Some ({| InstanceArn := Some "arn:instance";
                 IdentityStoreId := Some "d-1" |} :: rest) /\
      "arn:instance" <> EmptyString /\ "d-1" <> EmptyString /\
      NoDup (map fst allPermissionSets) /\
      (forall arn, In arn (map fst allPermissionSets)
                   <-> In arn (listedPermissionSets permissionSetCalls)) /\
      (forall arn nm, In (arn, nm) allPermissionSets ->
                      describedAs "arn:instance" permissionSetCalls arn nm).
Proof.
  eexists. eexists. eexists. split; [vm_compute; reflexivity|]. split; [reflexivity|].
  apply (startup_result (senv := senvSmall) 3 (startupState senvSmall 0%nat)).
  vm_compute. reflexivity.
Defined.

(** Property X14.  The start-up of [main] is not retried: it fails with the
    error of the first rejected request, which is the last request sent, or,
    after a ListInstances reply, with one of the two errors of
    [getIdentityStoreId]. *)
Theorem startup_failure {senv : StartupEnvironment} (fuel : nat) (s : StartupState senv)
    (e : JsError) (s' : StartupState senv) :
  startup fuel s = (Throws e, s') ->
  exists c,
    last (startupCalls s') = Some c /\
    (rejection c = Some e \/
     exists response,
       c = CallListInstances (Resolved response) /\
       (e = newError "No SSO instances found" \/
        e = newError "Instance ARN or Identity Store ID not found")).
Proof.
  unfold startup. unfold bootBind at 1.
  destruct (getOrgAccounts fuel s) as [[accounts1 | e1 |] s1] eqn:Hacc; try discriminate.
  - unfold bootBind at 1.
    destruct (getIdentityStoreId s1) as [[[arn id] | e2 |] s2] eqn:Hids; try discriminate.
    + unfold bootBind at 1. cbn [fst].
      destruct (getAllPermissionSets fuel arn s2) as [[sets | e3 |] s3] eqn:Hsets;
        try discriminate.
      intros [= <- <-].
      destruct (getAllPermissionSets_spec _ _ _ _ _ Hsets) as (d3 & Hd3 & _ & Hthrow).
      destruct (Hthrow _ eq_refl) as (c & Hl & Hc). exists c. split; [|now left].
      rewrite Hd3, last_app, Hl. reflexivity.
    + intros [= <- <-].
      destruct (getIdentityStoreId_spec _ _ _ Hids) as (reply & Hd2 & Hres).
      exists (CallListInstances reply). split; [rewrite Hd2; apply last_snoc|].
      destruct Hres as [-> | (response & -> & Hmsg)]; [now left | right; eauto].
  - intros [= <- <-].
    destruct (getOrgAccounts_spec _ _ _ _ Hacc) as (d1 & Hd1 & _ & Hthrow).
    destruct (Hthrow _ eq_refl) as (token & Hl).
    exists (CallListAccounts token (Rejected e1)). split; [|left; reflexivity].
    rewrite Hd1, last_app, Hl. reflexivity.
Qed.

Lemma startup_failure_witness :
  let run := startup (senv := senvThrottled) 3 (startupState senvThrottled 0%nat) in
  run = (Throws throttlingError, snd run) /\
  length (startupCalls (snd run)) = 2%nat /\
  exists c,
    last (startupCalls (snd run)) = Some c /\
    (rejection c = Some throttlingError \/
     exists response,
       c = CallListInstances (Resolved response) /\
       (throttlingError = newError "No SSO instances found" \/
        throttlingError = newError "Instance ARN or Identity Store ID not found")).
Proof.
  intros run. split; [reflexivity|]. split; [reflexivity|].
  apply (startup_failure (senv := senvThrottled) 3 (startupState senvThrottled 0%nat)
           throttlingError (snd run)).
  reflexivity.
Defined.

(** ** The progress display *)

Lemma MAX_LOG_LINES_ge rows : 6 <= MAX_LOG_LINES rows.
Proof. unfold MAX_LOG_LINES, FIXED_LINES. lia. Qed.

Section DisplayLemmas.
Variable chalk : LogType -> string -> string.

Lemma addLog_length maxLogLines timestamp message type logMessages :
  length logMessages <= maxLogLines ->
  length (addLog chalk maxLogLines timestamp message type logMessages) <= maxLogLines.
Proof.
  intros H. unfold addLog. cbv zeta. rewrite length_app. cbn [length].
  destruct (Nat.ltb_spec maxLogLines (length logMessages + 1)).
  - destruct logMessages as [|l ls]; cbn in *; [lia|]. rewrite length_app. cbn. lia.
  - rewrite length_app. cbn. lia.
Qed.

Lemma addLog_drop maxLogLines timestamp message type (older : list string) :
  addLog chalk maxLogLines timestamp message type
    (drop (length older - maxLogLines) older)
  = drop (length (older ++ [logLine chalk timestamp message type]) - maxLogLines)
         (older ++ [logLine chalk timestamp message type]).
Proof.
  unfold addLog. cbv zeta. rewrite !length_app, length_drop. cbn [length].
  destruct (Nat.eq_dec maxLogLines 0) as [-> | Hpos].
  - rewrite !Nat.sub_0_r, Nat.sub_diag, drop_all. cbn.
    rewrite drop_ge by (rewrite length_app; cbn; lia). reflexivity.
  - destruct (Nat.ltb_spec maxLogLines (length older - (length older - maxLogLines) + 1)).
    + replace (length older + 1 - maxLogLines) with (S (length older - maxLogLines)) by lia.
      rewrite drop_app_le by lia.
      destruct (drop (length older - maxLogLines) older) as [|x rest] eqn:Hd.
      * apply (f_equal length) in Hd. rewrite length_drop in Hd. cbn in Hd. lia.
      * cbn [app tl]. f_equal.
        change (S (length older - maxLogLines)) with (1 + (length older - maxLogLines)).
        rewrite Nat.add_comm, <- drop_drop, Hd. reflexivity.
    + replace (length older + 1 - maxLogLines) with (length older - maxLogLines) by lia.
      rewrite drop_app_le by lia. reflexivity.
Qed.

Lemma addLogs_cons maxLogLines timestamp message type entries logMessages :
  addLogs chalk maxLogLines ((timestamp, message, type) :: entries) logMessages
  = addLogs chalk maxLogLines entries
      (addLog chalk maxLogLines timestamp message type logMessages).
Proof. reflexivity. Qed.

Lemma addLogs_drop maxLogLines entries : forall older,
  addLogs chalk maxLogLines entries (drop (length older - maxLogLines) older)
  = let lines := older ++ map (fun entry => logLine chalk (fst (fst entry)) (snd (fst entry))
                                             (snd entry)) entries in
    drop (length lines - maxLogLines) lines.
Proof.
  induction entries as [|[[timestamp message] type] entries IH]; intros older; cbv zeta.
  - cbn. now rewrite app_nil_r.
  - rewrite addLogs_cons, addLog_drop, IH. cbv zeta. cbn [map fst snd].
    now rewrite <- app_assoc.
Qed.

End DisplayLemmas.

(** Property X15.  The activity log has room for at least six lines; after
    any sequence of [addLog] calls it holds the most recent lines, as many as
    there is room for, oldest first; and the log area [renderUI] prints has
    the same height at every call. *)
Theorem addLog_keeps_most_recent (chalk : LogType -> string -> string)
    (rows : option nat) (entries : list (string * string * LogType)) :
  let maxLogLines := MAX_LOG_LINES rows in
  let lines := map (fun entry => logLine chalk (fst (fst entry)) (snd (fst entry))
                                    (snd entry)) entries in
  let logMessages := addLogs chalk maxLogLines entries [] in
  6 <= maxLogLines /\
  logMessages = drop (length lines - maxLogLines) lines /\
  length (logArea maxLogLines logMessages) = maxLogLines.
Proof.
  cbv zeta. split; [apply MAX_LOG_LINES_ge|].
  pose proof (addLogs_drop chalk (MAX_LOG_LINES rows) entries []) as H.
  cbn [length drop app] in H. cbv zeta in H.
  replace (drop (0 - MAX_LOG_LINES rows) []) with (@nil string) in H
    by (now rewrite drop_nil).
  split; [exact H|]. rewrite H.
  unfold logArea. cbv zeta. rewrite length_app, repeat_length, length_map, length_drop. lia.
Qed.

Lemma substring_length n : forall s,
  String.length (String.substring 0 n s) = Nat.min n (String.length s).
Proof.
  induction n as [|n IH]; intros [|c s]; cbn; try reflexivity. now rewrite IH.
Qed.

Lemma append_length (s t : string) :
  String.length (s +:+ t) = String.length s + String.length t.
Proof.
  induction s as [|c s IH]; [reflexivity|]. rewrite append_cons. cbn. now rewrite IH.
Qed.

Lemma substring_append n : forall s t,
  n <= String.length s ->
  String.substring 0 n (s +:+ t) = String.substring 0 n s.
Proof.
  induction n as [|n IH]; intros [|c s] t Hn; cbn in Hn; try lia.
  - rewrite append_empty_l. now destruct t.
  - rewrite append_cons. reflexivity.
  - rewrite append_cons. cbn. rewrite IH by lia. reflexivity.
Qed.

Lemma substring_idem n : forall s,
  String.substring 0 n (String.substring 0 n s) = String.substring 0 n s.
Proof.
  induction n as [|n IH]; intros [|c s]; cbn; try reflexivity. now rewrite IH.
Qed.

Lemma shorten_spec limit value :
  3 <= limit ->
  String.length (shorten limit value) <= limit /\
  String.substring 0 (limit - 3) (shorten limit value)
  = String.substring 0 (limit - 3) value.
Proof.
  intros Hlimit. unfold shorten.
  destruct (Nat.ltb_spec limit (String.length value)) as [Hlong | Hshort].
  - split.
    + rewrite append_length, substring_length. cbn. lia.
    + rewrite substring_append by (rewrite substring_length; lia).
      apply substring_idem.
  - split; [assumption | reflexivity].
Qed.

(** Property X16.  The account name of a progress line has at most 50
    characters and the permission-set name at most 30; each keeps the first
    47 (27) characters of the name and is the name itself when that is short
    enough. *)
Theorem short_names_fit (task : Task) :
  String.length (shortAccountName task) <= 50 /\
  String.length (shortPermSetName task) <= 30 /\
  String.substring 0 47 (shortAccountName task)
  = String.substring 0 47 (task_accountName task) /\
  String.substring 0 27 (shortPermSetName task)
  = String.substring 0 27 (task_permissionSetName task) /\
  (String.length (task_accountName task) <= 50 ->
   shortAccountName task = task_accountName task) /\
  (String.length (task_permissionSetName task) <= 30 ->
   shortPermSetName task = task_permissionSetName task).
Proof.
  unfold shortAccountName, shortPermSetName.
  destruct (shorten_spec 50 (task_accountName task) ltac:(lia)) as [H1 H2].
  destruct (shorten_spec 30 (task_permissionSetName task) ltac:(lia)) as [H3 H4].
  repeat split; auto.
  - intros H. unfold shorten. now apply Nat.ltb_ge in H as ->.
  - intros H. unfold shorten. now apply Nat.ltb_ge in H as ->.
Qed.

Section ProgressLemmas.
Variable chalk : LogType -> string -> string.
Variables maxLogLines size : nat.
Hypothesis size_pos : 0 < size.

Lemma existsb_eqb_false id ids :
  existsb (String.eqb id) ids = false -> ~ In id ids.
Proof.
  intros H Hin. assert (existsb (String.eqb id) ids = true); [|congruence].
  apply existsb_exists. exists id. split; [assumption | apply String.eqb_refl].
Qed.

Lemma finishTask_progressAt completed seen f p :
  progressAt maxLogLines size completed seen p ->
  progressAt maxLogLines size (S completed) (seen ++ [f])
    (finishTask chalk maxLogLines size (fin_time1 f) (fin_time2 f)
       (fin_task f) (fin_found f) p).
Proof.
  intros (Hc & Hp & Hnd & Hlen & Hseen & Hlog).
  assert (Hmono : completed / size <= S completed / size)
    by (apply Nat.Div0.div_le_mono; lia).
  assert (Hstep : S completed / size <= S (completed / size)).
  { pose proof (Nat.div_mod_eq completed size) as E1.
    pose proof (Nat.div_mod_eq (S completed) size) as E2.
    pose proof (Nat.mod_upper_bound completed size ltac:(lia)) as B1.
    pose proof (Nat.mod_upper_bound (S completed) size ltac:(lia)) as B2.
    nia. }
  assert (Hseen' : forall id, In id (loggedAccounts p) ->
            exists f0, In f0 (seen ++ [f]) /\ task_accountId (fin_task f0) = id).
  { intros id Hin. destruct (Hseen id Hin) as (f0 & H0 & H1). exists f0.
    rewrite in_app_iff. auto. }
  set (log1 := if (0 <? fin_found f)%nat
               then addLog chalk maxLogLines (fin_time1 f)
                      (assignmentsMessage (fin_task f) (fin_found f)) info (logMessages p)
               else logMessages p).
  assert (Hlog1 : length log1 <= maxLogLines).
  { subst log1. destruct (0 <? fin_found f)%nat; [now apply addLog_length | assumption]. }
  unfold finishTask. cbv zeta. fold log1. rewrite Hc, Hp.
  destruct (Nat.ltb_spec (completed / size) (S completed / size)) as [Hlt | Hge].
  - destruct (existsb (String.eqb (task_accountId (fin_task f))) (loggedAccounts p)) eqn:Hex;
      cbn [negb]; unfold progressAt; cbn.
    + repeat split; auto; lia.
    + repeat split; auto.
      * apply NoDup_app. split; [assumption|]. split; [|apply NoDup_singleton].
        intros x Hx ->%list_elem_of_singleton.
        apply (existsb_eqb_false _ _ Hex). now apply list_elem_of_In.
      * rewrite length_app. cbn. lia.
      * intros id [Hin | [<- | []]]%in_app_iff; [auto|].
        exists f. rewrite in_app_iff. cbn. auto.
      * now apply addLog_length.
  - unfold progressAt; cbn. repeat split; auto; lia.
Qed.

Lemma displayStep_progressAt completed seen ev p :
  progressAt maxLogLines size completed seen p ->
  progressAt maxLogLines size (completed + length (finishedJobs [ev]))
    (seen ++ finishedJobs [ev])
    (displayStep chalk maxLogLines size p ev).
Proof.
  intros Hp. destruct ev as [f | timestamp message]; cbn [finishedJobs flat_map app length].
  - rewrite Nat.add_1_r. now apply finishTask_progressAt.
  - rewrite Nat.add_0_r, app_nil_r. destruct Hp as (Hc & Hpa & Hnd & Hlen & Hseen & Hlog).
    unfold progressAt; cbn. repeat split; auto. now apply addLog_length.
Qed.

Lemma fold_displayStep_progressAt events : forall completed seen p,
  progressAt maxLogLines size completed seen p ->
  progressAt maxLogLines size (completed + length (finishedJobs events))
    (seen ++ finishedJobs events)
    (fold_left (displayStep chalk maxLogLines size) events p).
Proof.
  induction events as [|ev events IH]; intros completed seen p Hp.
  - cbn. now rewrite Nat.add_0_r, app_nil_r.
  - cbn [fold_left].
    pose proof (IH _ _ _ (displayStep_progressAt _ _ ev _ Hp)) as H.
    change (ev :: events) with ([ev] ++ events).
    unfold finishedJobs in *. rewrite flat_map_app, length_app, Nat.add_assoc, app_assoc.
    exact H.
Qed.

End ProgressLemmas.

(** Property X17.  While jobs finish and retry warnings arrive in any
    order, [completedOperations] counts the finished jobs,
    [processedAccounts] is that count divided by the number of permission
    sets, no account is reported as completed twice, at most
    [processedAccounts] accounts are, each one the account of a finished
    job, and the log stays within its limit. *)
Theorem progress_counters (chalk : LogType -> string -> string)
    (maxLogLines size : nat) (timestamp : string) (events : list DisplayEvent) :
  0 < size ->
  let p := fold_left (displayStep chalk maxLogLines size) events
             (initialProgress chalk maxLogLines timestamp) in
  completedOperations p = length (finishedJobs events) /\
  processedAccounts p = length (finishedJobs events) / size /\
  NoDup (loggedAccounts p) /\
  length (loggedAccounts p) <= length (finishedJobs events) / size /\
  (forall id, In id (loggedAccounts p) ->
     exists f, In f (finishedJobs events) /\ task_accountId (fin_task f) = id) /\
  length (logMessages p) <= maxLogLines.
Proof.
  intros Hsize p.
  assert (H0 : progressAt maxLogLines size 0 [] (initialProgress chalk maxLogLines timestamp)).
  { unfold progressAt, initialProgress; cbn. rewrite Nat.Div0.div_0_l.
    repeat split; auto; try constructor.
    - intros id [].
    - apply addLog_length. cbn. lia. }
  destruct (fold_displayStep_progressAt chalk maxLogLines size Hsize events 0 [] _ H0)
    as (Hc & Hp & Hnd & Hlen & Hseen & Hlog).
  cbn [Nat.add app] in *. subst p. rewrite Hp in Hlen. auto 10.
Qed.

Lemma progress_counters_witness :
  let p := fold_left (displayStep (fun _ line => line) 6 2) twoJobsFinished
             (initialProgress (fun _ line => line) 6 "10:00:00") in
  loggedAccounts p = ["222222222222"] /\
  length (logMessages p) = 4 /\
  completedOperations p = length (finishedJobs twoJobsFinished) /\
  processedAccounts p = length (finishedJobs twoJobsFinished) / 2 /\
  NoDup (loggedAccounts p) /\
  length (loggedAccounts p) <= length (finishedJobs twoJobsFinished) / 2 /\
  (forall id, In id (loggedAccounts p) ->
     exists f, In f (finishedJobs twoJobsFinished) /\ task_accountId (fin_task f) = id) /\
  length (logMessages p) <= 6.
Proof.
  intros p. split; [reflexivity|]. split; [reflexivity|].
  apply (progress_counters (fun _ line => line) 6 2 "10:00:00" twoJobsFinished). lia.
Defined.

(** * The listing of a work unit *)

Lemma listingCalls_app t1 t2 : listingCalls (t1 ++ t2) = listingCalls t1 ++ listingCalls t2.
Proof. unfold listingCalls. apply flat_map_app. Qed.

Lemma groupCalls_app groupId t1 t2 :
  groupCalls groupId (t1 ++ t2) = groupCalls groupId t1 ++ groupCalls groupId t2.
Proof. unfold groupCalls. apply List.filter_app. Qed.

Lemma describeCalls_listing delta :
  Forall (fun c => isDescribeCall c = true) delta -> listingCalls delta = [].
Proof.
  induction 1 as [|c delta Hc _ IH]; [reflexivity|].
  change (c :: delta) with ([c] ++ delta). rewrite listingCalls_app, IH.
  destruct c; try discriminate; reflexivity.
Qed.

Lemma describeCalls_groups groupId delta :
  Forall (fun c => isDescribeCall c = true) delta -> groupCalls groupId delta = [].
Proof.
  induction 1 as [|c delta Hc _ IH]; [reflexivity|].
  change (c :: delta) with ([c] ++ delta). rewrite groupCalls_app, IH.
  destruct c; try discriminate; reflexivity.
Qed.

Lemma membershipCalls_listing groupId delta :
  Forall (fun c => isMembershipCallOf groupId c = true) delta -> listingCalls delta = [].
Proof.
  induction 1 as [|c delta Hc _ IH]; [reflexivity|].
  change (c :: delta) with ([c] ++ delta). rewrite listingCalls_app, IH.
  destruct c; try discriminate; reflexivity.
Qed.

Lemma membershipCalls_same groupId delta :
  Forall (fun c => isMembershipCallOf groupId c = true) delta ->
  groupCalls groupId delta = delta.
Proof.
  induction 1 as [|c delta Hc _ IH]; [reflexivity|].
  unfold groupCalls in *. cbn. now rewrite Hc, IH.
Qed.

Lemma membershipCalls_other groupId other delta :
  other <> groupId ->
  Forall (fun c => isMembershipCallOf groupId c = true) delta ->
  groupCalls other delta = [].
Proof.
  intros Hne. induction 1 as [|c delta Hc _ IH]; [reflexivity|].
  unfold groupCalls in *. cbn. rewrite IH.
  destruct c as [? ?|? ?|? ?|i r]; try discriminate. cbn in *.
  apply String.eqb_eq in Hc. rewrite Hc.
  destruct (String.eqb_spec groupId other); [congruence | reflexivity].
Qed.

Section Traces.
Context {env : Environment}.
Implicit Types s : State env.

Lemma describesOnly_refl s : describesOnly s s.
Proof. exists []. split; [now rewrite app_nil_r | constructor]. Qed.

Lemma describesOnly_trans s1 s2 s3 :
  describesOnly s1 s2 -> describesOnly s2 s3 -> describesOnly s1 s3.
Proof.
  intros (d1 & H1 & F1) (d2 & H2 & F2). exists (d1 ++ d2).
  split; [rewrite H2, H1; now rewrite app_assoc | now apply Forall_app].
Qed.

Lemma describesOnly_same s s' : calls s' = calls s -> describesOnly s s'.
Proof. intros H. exists []. split; [now rewrite app_nil_r | constructor]. Qed.

Lemma backoff_describesOnly nm a r s : describesOnly s (snd (backoff nm a r s)).
Proof.
  destruct (backoff_spec nm a r s) as (s2 & -> & _ & H & _). now apply describesOnly_same.
Qed.

Lemma getUserName_trace identityStoreId userId s :
  groupMembersCache (snd (getUserName identityStoreId userId s)) = groupMembersCache s /\
  describesOnly s (snd (getUserName identityStoreId userId s)).
Proof.
  destruct (userCache s !! userId) as [v|] eqn:Hc.
  - rewrite (getUserName_hit _ _ _ _ Hc). split; [reflexivity | apply describesOnly_refl].
  - rewrite (getUserName_miss _ _ _ Hc).
    destruct (describeUserWithRetry_spec identityStoreId userId s)
      as (Hfuel & (_ & _ & Hm) & _).
    assert (Hd : describesOnly s (snd (describeUserWithRetry identityStoreId userId s))).
    { unfold describeUserWithRetry, retryWithBackoff. apply retryLoop_rel.
      - apply describesOnly_refl.
      - apply describesOnly_trans.
      - intros s0. unfold sendDescribeUser.
        destruct (describeUser env (world s0) _) as [r w]. cbn.
        eexists [_]. split; [reflexivity|]. repeat constructor.
      - intros. apply backoff_describesOnly. }
    destruct (describeUserWithRetry identityStoreId userId s) as [[o | e |] s1];
      cbn [fst snd] in *; [| |congruence].
    all: match goal with |- context [getUserName_settled _ ?x _] =>
           destruct (getUserName_settled_spec userId x s1)
             as (s2 & -> & _ & _ & Hm2 & Hc2 & _) end.
    all: cbn [snd]; split; [congruence|].
    all: eapply describesOnly_trans; [exact Hd | now apply describesOnly_same].
Qed.

Lemma getGroupName_trace identityStoreId groupId s :
  groupMembersCache (snd (getGroupName identityStoreId groupId s)) = groupMembersCache s /\
  describesOnly s (snd (getGroupName identityStoreId groupId s)).
Proof.
  destruct (groupCache s !! groupId) as [v|] eqn:Hc.
  - rewrite (getGroupName_hit _ _ _ _ Hc). split; [reflexivity | apply describesOnly_refl].
  - rewrite (getGroupName_miss _ _ _ Hc).
    destruct (describeGroupWithRetry_spec identityStoreId groupId s)
      as (Hfuel & (_ & _ & Hm) & _).
    assert (Hd : describesOnly s (snd (describeGroupWithRetry identityStoreId groupId s))).
    { unfold describeGroupWithRetry, retryWithBackoff. apply retryLoop_rel.
      - apply describesOnly_refl.
      - apply describesOnly_trans.
      - intros s0. unfold sendDescribeGroup.
        destruct (describeGroup env (world s0) _) as [r w]. cbn.
        eexists [_]. split; [reflexivity|]. repeat constructor.
      - intros. apply backoff_describesOnly. }
    destruct (describeGroupWithRetry identityStoreId groupId s) as [[o | e |] s1];
      cbn [fst snd] in *; [| |congruence].
    all: match goal with |- context [getGroupName_settled _ ?x _] =>
           destruct (getGroupName_settled_spec groupId x s1)
             as (s2 & -> & _ & _ & Hm2 & Hc2 & _) end.
    all: cbn [snd]; split; [congruence|].
    all: eapply describesOnly_trans; [exact Hd | now apply describesOnly_same].
Qed.

Lemma listsGroups_refl s : listsGroups s s [].
Proof. intros g. destruct (groupMembersCache s !! g); [split|left; split]; reflexivity. Qed.

Lemma listsGroups_trans s1 s2 s3 d1 d2 :
  listsGroups s1 s2 d1 -> listsGroups s2 s3 d2 -> listsGroups s1 s3 (d1 ++ d2).
Proof.
  intros H1 H2 g. specialize (H1 g). specialize (H2 g). rewrite groupCalls_app.
  destruct (groupMembersCache s1 !! g) as [m|].
  - destruct H1 as [Hd1 Hc]. rewrite Hc in H2. destruct H2 as [Hd2 Hc3].
    now rewrite Hd1, Hd2.
  - destruct H1 as [[Hd1 Hc] | Hc]; rewrite Hc in H2.
    + rewrite Hd1. cbn [app]. exact H2.
    + destruct H2 as [Hd2 Hc3]. right. now rewrite Hd2, app_nil_r.
Qed.

Lemma describesOnly_listsGroups s s' delta :
  groupMembersCache s' = groupMembersCache s ->
  Forall (fun c => isDescribeCall c = true) delta ->
  listsGroups s s' delta.
Proof.
  intros Hm Hd g. rewrite Hm, (describeCalls_groups g delta Hd).
  destruct (groupMembersCache s !! g); [split|left; split]; reflexivity.
Qed.

Lemma listGroupMembershipsLoop_calls fuel identityStoreId groupId :
  forall members nextToken s,
  exists delta,
    calls (snd (listGroupMembershipsLoop fuel identityStoreId groupId members nextToken s))
    = calls s ++ delta /\
    Forall (fun c => isMembershipCallOf groupId c = true) delta.
Proof.
  induction fuel as [|fuel IH]; intros members nextToken s.
  - cbn. exists []. split; [now rewrite app_nil_r | constructor].
  - rewrite listGroupMembershipsLoop_step. unfold sendListGroupMemberships.
    destruct (listGroupMemberships env (world s) _) as [[o | e] w]; cbn [settle].
    + destruct (truthy (lgm_out_NextToken o)).
      * match goal with |- context [listGroupMembershipsLoop _ _ _ ?m ?t ?st] =>
          destruct (IH m t st) as (delta & Hd & Hall) end.
        eexists (_ :: delta). cbn [calls remoteCall] in Hd. rewrite Hd, <- app_assoc.
        split; [reflexivity|]. constructor; [|exact Hall]. cbn. apply String.eqb_refl.
      * eexists [_]. split; [reflexivity|]. repeat constructor. cbn. apply String.eqb_refl.
    + eexists [_]. split; [reflexivity|]. repeat constructor. cbn. apply String.eqb_refl.
Qed.

Lemma getGroupMembers_trace fuel identityStoreId groupId s members s' :
  getGroupMembers fuel identityStoreId groupId s = (Normal members, s') ->
  exists delta,
    calls s' = calls s ++ delta /\ listingCalls delta = [] /\ listsGroups s s' delta.
Proof.
  destruct (groupMembersCache s !! groupId) as [v|] eqn:Hc.
  - rewrite (getGroupMembers_hit _ _ _ _ _ Hc). intros [= <- <-].
    exists []. split; [now rewrite app_nil_r|]. split; [reflexivity | apply listsGroups_refl].
  - rewrite (getGroupMembers_miss _ _ _ _ Hc).
    destruct (listGroupMembershipsLoop_calls fuel identityStoreId groupId [] None s)
      as (delta & Hd & Hall).
    destruct (listGroupMembershipsLoop_frame fuel identityStoreId groupId [] None s)
      as [((_ & _ & Hm) & _) _].
    destruct (listGroupMembershipsLoop fuel identityStoreId groupId [] None s)
      as [[[ms thrown] | e |] s1] eqn:Hloop; cbn [fst snd] in *; try discriminate.
    destruct (listGroupMembershipsLoop_trace _ _ _ _ _ _ _ _ Hloop) as (delta' & Hd' & Hres).
    assert (delta' = delta) as -> by (apply (app_inv_head (calls s)); congruence).
    destruct (Hres _ _ eq_refl) as [Hms _]. cbn [app] in Hms.
    destruct (getGroupMembers_settled_spec groupId ms thrown s1)
      as (s2 & -> & Hm2 & _ & _ & Hc2 & _).
    intros [= <- <-]. exists delta. split; [congruence|].
    split; [exact (membershipCalls_listing _ _ Hall)|].
    intros g. rewrite Hm2, Hm. destruct (String.eqb_spec g groupId) as [-> | Hne].
    + rewrite Hc, lookup_insert_eq, (membershipCalls_same _ _ Hall). right. congruence.
    + rewrite lookup_insert_ne by congruence.
      rewrite (membershipCalls_other groupId g delta Hne Hall).
      destruct (groupMembersCache s !! g); [split|left; split]; reflexivity.
Qed.

Lemma forOf_pushMemberRow_trace identityStoreId accountId setName gname members :
  forall assignments s r s',
  forOf (pushMemberRow identityStoreId accountId setName gname) members assignments s
  = (r, s') ->
  groupMembersCache s' = groupMembersCache s /\ describesOnly s s'.
Proof.
  induction members as [|m members IH]; intros assignments s r s'.
  - cbn. intros [= <- <-]. split; [reflexivity | apply describesOnly_refl].
  - cbn [forOf]. unfold bind at 1. unfold pushMemberRow at 1. unfold bind at 1.
    destruct (getUserName_trace identityStoreId m s) as [Hm Hd].
    destruct (getUserName identityStoreId m s) as [[v | e |] s1]; cbn [snd ret] in *;
      try (intros [= <- <-]; split; assumption).
    intros Hrun. destruct (IH _ _ _ _ Hrun) as [Hm' Hd'].
    split; [congruence | eapply describesOnly_trans; eauto].
Qed.

Lemma processAssignment_trace fuel identityStoreId accountId setName assignments a s
    rows s' :
  processAssignment fuel identityStoreId accountId setName assignments a s
  = (Normal rows, s') ->
  exists delta,
    calls s' = calls s ++ delta /\ listingCalls delta = [] /\ listsGroups s s' delta.
Proof.
  assert (Hnone : exists delta,
            calls s = calls s ++ delta /\ listingCalls delta = [] /\ listsGroups s s delta).
  { exists []. split; [now rewrite app_nil_r|]. split; [reflexivity|apply listsGroups_refl]. }
  unfold processAssignment.
  destruct (PrincipalId a) as [pid|], (PrincipalType a) as [pt|];
    try (intros [= <- <-]; exact Hnone).
  destruct (String.eqb pid EmptyString || String.eqb pt EmptyString);
    [intros [= <- <-]; exact Hnone|].
  destruct (String.eqb pt "USER").
  - unfold bind, ret. destruct (getUserName_trace identityStoreId pid s) as [Hm (d & Hd & Hall)].
    destruct (getUserName identityStoreId pid s) as [[v | e |] s1]; cbn [snd] in *;
      try discriminate.
    intros [= <- <-]. exists d. split; [exact Hd|].
    split; [exact (describeCalls_listing _ Hall) | now apply describesOnly_listsGroups].
  - destruct (String.eqb pt "GROUP"); [|intros [= <- <-]; exact Hnone].
    unfold bind at 1.
    destruct (getGroupName_trace identityStoreId pid s) as [Hm1 (d1 & Hd1 & Hall1)].
    destruct (getGroupName identityStoreId pid s) as [[gname | e |] s1]; cbn [snd] in *;
      try discriminate.
    unfold bind at 1.
    destruct (getGroupMembers fuel identityStoreId pid s1) as [[members | e |] s2] eqn:Hmem;
      try discriminate.
    destruct (getGroupMembers_trace _ _ _ _ _ _ Hmem) as (d2 & Hd2 & Hl2 & Hg2).
    intros Hrows.
    destruct (forOf_pushMemberRow_trace _ _ _ _ _ _ _ _ _ Hrows) as [Hm3 (d3 & Hd3 & Hall3)].
    exists (d1 ++ d2 ++ d3). split; [rewrite Hd3, Hd2, Hd1, <- !app_assoc; reflexivity|].
    split.
    + rewrite !listingCalls_app, (describeCalls_listing _ Hall1), Hl2,
        (describeCalls_listing _ Hall3). reflexivity.
    + apply (listsGroups_trans s s1 s');
        [exact (describesOnly_listsGroups s s1 d1 Hm1 Hall1)|].
      apply (listsGroups_trans s1 s2 s');
        [exact Hg2 | exact (describesOnly_listsGroups s2 s' d3 Hm3 Hall3)].
Qed.

Lemma forOf_processAssignment_trace fuel identityStoreId accountId setName page :
  forall assignments s rows s',
  forOf (processAssignment fuel identityStoreId accountId setName) page assignments s
  = (Normal rows, s') ->
  exists delta,
    calls s' = calls s ++ delta /\ listingCalls delta = [] /\ listsGroups s s' delta.
Proof.
  induction page as [|a page IH]; intros assignments s rows s'.
  - cbn. intros [= <- <-]. exists []. split; [now rewrite app_nil_r|].
    split; [reflexivity | apply listsGroups_refl].
  - cbn [forOf]. unfold bind.
    destruct (processAssignment fuel identityStoreId accountId setName assignments a s)
      as [[rows1 | e |] s1] eqn:Hone; try discriminate.
    destruct (processAssignment_trace _ _ _ _ _ _ _ _ _ Hone) as (d1 & Hd1 & Hl1 & Hg1).
    intros Hrest. destruct (IH _ _ _ _ Hrest) as (d2 & Hd2 & Hl2 & Hg2).
    exists (d1 ++ d2). split; [rewrite Hd2, Hd1, <- app_assoc; reflexivity|].
    split; [now rewrite listingCalls_app, Hl1, Hl2|].
    eapply listsGroups_trans; eauto.
Qed.

(** The retry loop around one page request: the request is repeated until a
    page arrives. *)
Lemma retryLoop_listing_trace instanceArn accountId permissionSetArn token
    operationName retries remaining :
  forall attempt_ s response s',
  retryLoop remaining attempt_
    (sendListAccountAssignments
       {| laa_InstanceArn := instanceArn; laa_AccountId := accountId;
          laa_PermissionSetArn := permissionSetArn; laa_NextToken := token |})
    operationName retries s = (Normal response, s') ->
  exists delta,
    calls s' = calls s ++ delta /\
    groupMembersCache s' = groupMembersCache s /\
    (forall g, groupCalls g delta = []) /\
    forall rest,
      (if truthy (laa_out_NextToken response)
       then followsListing instanceArn accountId permissionSetArn
              (laa_out_NextToken response) rest
       else rest = []) ->
      followsListing instanceArn accountId permissionSetArn token
        (listingCalls delta ++ rest).
Proof.
  induction remaining as [|remaining IH]; intros attempt_ s response s'.
  - cbn. discriminate.
  - rewrite retryLoop_step. unfold sendListAccountAssignments at 1.
    destruct (listAccountAssignments env (world s) _) as [[o | e] w]; cbn [settle].
    + intros [= <- <-]. eexists [_]. split; [reflexivity|]. split; [reflexivity|].
      split; [reflexivity|]. intros rest Hrest. cbn. split; [reflexivity | exact Hrest].
    + destruct (negb (isRateLimitError e) || Nat.eqb attempt_ retries); [discriminate|].
      match goal with |- context [backoff ?nm ?a ?r ?st] =>
        destruct (backoff_spec nm a r st)
          as (s2 & Hb & _ & Hc2 & _ & _ & _ & Hm2 & _) end.
      rewrite Hb. cbn [snd]. intros Hrun.
      destruct (IH _ _ _ _ Hrun) as (delta & Hd & Hm & Hg & Hfollow).
      eexists (_ :: delta). rewrite Hd, Hc2. cbn [calls remoteCall].
      rewrite <- app_assoc. split; [reflexivity|].
      split; [rewrite Hm, Hm2; reflexivity|].
      split; [intros g; unfold groupCalls in *; cbn; apply Hg|].
      intros rest Hrest. cbn. split; [reflexivity | now apply Hfollow].
Qed.

Lemma getAssignmentsLoop_trace fuel instanceArn identityStoreId accountId
    permissionSetArn setName :
  forall assignments nextToken s rows s',
  getAssignmentsLoop fuel instanceArn identityStoreId accountId permissionSetArn
    setName assignments nextToken s = (Normal rows, s') ->
  exists delta,
    calls s' = calls s ++ delta /\
    followsListing instanceArn accountId permissionSetArn nextToken (listingCalls delta) /\
    listsGroups s s' delta.
Proof.
  induction fuel as [|fuel IH]; intros assignments nextToken s rows s'.
  - cbn. discriminate.
  - cbn [getAssignmentsLoop]. unfold bind at 1. unfold retryWithBackoff.
    match goal with |- context [retryLoop ?n ?a ?op ?nm ?rt s] =>
      destruct (retryLoop n a op nm rt s) as [[response | e |] s1] eqn:Hpage end;
      try discriminate.
    destruct (retryLoop_listing_trace _ _ _ _ _ _ _ _ _ _ _ Hpage)
      as (d1 & Hd1 & Hm1 & Hg1 & Hfollow).
    assert (Hl1 : listsGroups s s1 d1).
    { intros g. rewrite Hm1, Hg1.
      destruct (groupMembersCache s !! g); [split|left; split]; reflexivity. }
    unfold bind at 1.
    match goal with |- context [match ?m s1 with _ => _ end] =>
      destruct (m s1) as [[assignments' | e |] s2] eqn:Hrows end; try discriminate.
    assert (Hpagespec : exists d2,
              calls s2 = calls s1 ++ d2 /\ listingCalls d2 = [] /\ listsGroups s1 s2 d2).
    { destruct (AccountAssignments response) as [page|].
      - exact (forOf_processAssignment_trace _ _ _ _ _ _ _ _ _ Hrows).
      - injection Hrows as <- <-. exists []. split; [now rewrite app_nil_r|].
        split; [reflexivity | apply listsGroups_refl]. }
    destruct Hpagespec as (d2 & Hd2 & Hl2 & Hg2).
    destruct (truthy (laa_out_NextToken response)) eqn:Htoken.
    + intros Hrun. destruct (IH _ _ _ _ _ Hrun) as (d3 & Hd3 & Hf3 & Hg3).
      exists (d1 ++ d2 ++ d3). split; [rewrite Hd3, Hd2, Hd1, <- !app_assoc; reflexivity|].
      split.
      * rewrite !listingCalls_app, Hl2. cbn [app]. apply Hfollow. exact Hf3.
      * eapply listsGroups_trans; [exact Hl1|]. eapply listsGroups_trans; eauto.
    + intros [= <- <-]. exists (d1 ++ d2).
      split; [rewrite Hd2, Hd1, <- app_assoc; reflexivity|]. split.
      * rewrite listingCalls_app, Hl2. apply Hfollow. reflexivity.
      * eapply listsGroups_trans; eauto.
Qed.

(** *** A listing that ends is listed to its end *)

Section Ends.
Variables rank rankM : option string -> nat.
Variables instanceArn identityStoreId accountId permissionSetArn setName : string.
Hypothesis ends : listingEnds (env := env) rank instanceArn accountId permissionSetArn.
Hypothesis endsM : membershipsEnd (env := env) rankM.

Lemma listGroupMembershipsLoop_ends fuel groupId : forall members nextToken s,
  rankM nextToken < fuel ->
  fst (listGroupMembershipsLoop fuel identityStoreId groupId members nextToken s)
  <> OutOfFuel.
Proof.
  induction fuel as [|fuel IH]; intros members nextToken s Hrank; [lia|].
  rewrite listGroupMembershipsLoop_step. unfold sendListGroupMemberships.
  destruct (listGroupMemberships env (world s) _) as [[o | e] w] eqn:Hreply; cbn [settle];
    [|discriminate].
  destruct (truthy (lgm_out_NextToken o)) eqn:Htoken; [|discriminate].
  apply IH. specialize (endsM _ _ _ _ Hreply Htoken). cbn in endsM. lia.
Qed.

Lemma getGroupMembers_ends fuel groupId s :
  rankM None < fuel ->
  exists members s', getGroupMembers fuel identityStoreId groupId s = (Normal members, s').
Proof.
  intros Hrank.
  pose proof (listGroupMembershipsLoop_ends fuel groupId [] None s Hrank) as Hloop.
  destruct (getGroupMembers fuel identityStoreId groupId s) as [r s'] eqn:Hrun.
  destruct (getGroupMembers_spec _ _ _ _ _ _ Hrun) as (_ & _ & _ & _ & Hres).
  destruct Hres as [-> | (members & -> & _)]; [|eauto].
  exfalso. destruct (groupMembersCache s !! groupId) as [v|] eqn:Hc.
  - rewrite (getGroupMembers_hit _ _ _ _ _ Hc) in Hrun. discriminate.
  - rewrite (getGroupMembers_miss _ _ _ _ Hc) in Hrun.
    destruct (listGroupMembershipsLoop fuel identityStoreId groupId [] None s)
      as [[[ms thrown] | e |] s1]; cbn [fst] in *; try congruence.
    destruct (getGroupMembers_settled_spec groupId ms thrown s1) as (s2 & Hset & _).
    rewrite Hset in Hrun. discriminate.
Qed.

Lemma processAssignment_ends fuel assignments a s :
  rankM None < fuel ->
  exists rows s',
    processAssignment fuel identityStoreId accountId setName assignments a s
    = (Normal rows, s').
Proof.
  intros Hrank. unfold processAssignment.
  destruct (PrincipalId a) as [pid|], (PrincipalType a) as [pt|]; try (cbn; eauto).
  destruct (String.eqb pid EmptyString || String.eqb pt EmptyString); [cbn; eauto|].
  destruct (String.eqb pt "USER").
  - unfold bind, ret.
    destruct (getUserName_spec identityStoreId pid s) as (v & s1 & -> & _). eauto.
  - destruct (String.eqb pt "GROUP"); [|cbn; eauto].
    unfold bind at 1.
    destruct (getGroupName_spec identityStoreId pid s) as (gname & s1 & -> & _).
    unfold bind at 1.
    destruct (getGroupMembers_ends fuel pid s1 Hrank) as (members & s2 & ->).
    destruct (forOf_pushMemberRow identityStoreId accountId setName gname members
                assignments s2) as (s3 & -> & _). eauto.
Qed.

Lemma forOf_processAssignment_ends fuel page : forall assignments s,
  rankM None < fuel ->
  exists rows s',
    forOf (processAssignment fuel identityStoreId accountId setName) page assignments s
    = (Normal rows, s').
Proof.
  induction page as [|a page IH]; intros assignments s Hrank; [cbn; eauto|].
  cbn [forOf]. unfold bind.
  destruct (processAssignment_ends fuel assignments a s Hrank) as (rows1 & s1 & ->).
  now apply IH.
Qed.

Lemma getAssignmentsLoop_ends fuel : forall assignments nextToken s,
  rank nextToken + rankM None < fuel ->
  fst (getAssignmentsLoop fuel instanceArn identityStoreId accountId permissionSetArn
         setName assignments nextToken s) <> OutOfFuel /\
  (listingServed (env := env) instanceArn accountId permissionSetArn ->
   exists rows,
     fst (getAssignmentsLoop fuel instanceArn identityStoreId accountId permissionSetArn
            setName assignments nextToken s) = Normal rows).
Proof.
  induction fuel as [|fuel IH]; intros assignments nextToken s Hrank; [lia|].
  cbn [getAssignmentsLoop]. unfold bind. unfold retryWithBackoff.
  match goal with |- context [retryLoop ?n ?a ?op ?nm ?rt s] =>
    destruct (retryLoop_last_invocation op nm rt n a s ltac:(lia) ltac:(lia))
      as (s_last & Hlast);
    destruct (retryLoop n a op nm rt s) as [r1 s1] eqn:Hpage end.
  unfold sendListAccountAssignments in Hlast.
  destruct (listAccountAssignments env (world s_last) _) as [[response | e] w] eqn:Hreply;
    cbn [settle] in Hlast; injection Hlast as <- <-.
  - assert (Hrows : exists rows s2,
      match AccountAssignments response with
      | Some page =>
          forOf (processAssignment (S fuel) identityStoreId accountId setName)
                page assignments
      | None => ret assignments
      end (remoteCall w (CallListAccountAssignments
             {| laa_InstanceArn := instanceArn; laa_AccountId := accountId;
                laa_PermissionSetArn := permissionSetArn; laa_NextToken := nextToken |}
             (Resolved response)) s_last) = (Normal rows, s2)).
    { destruct (AccountAssignments response) as [page|]; [|cbn; eauto].
      apply forOf_processAssignment_ends. lia. }
    destruct Hrows as (rows & s2 & ->).
    destruct (truthy (laa_out_NextToken response)) eqn:Htoken.
    + apply IH. specialize (ends _ _ _ _ Hreply Htoken). lia.
    + cbn. split; [discriminate | eauto].
  - cbn. split; [discriminate|]. intros Hserved.
    destruct (Hserved (world s_last) nextToken) as (response & w' & Hok). congruence.
Qed.

End Ends.

End Traces.

Lemma assignmentRefs_listing delta : assignmentRefs delta = listedRefs (listingCalls delta).
Proof.
  induction delta as [|c delta IH]; [reflexivity|].
  change (c :: delta) with ([c] ++ delta).
  rewrite listingCalls_app. unfold listedRefs, assignmentRefs in *.
  rewrite !flat_map_app, IH. f_equal.
  destruct c as [i [o|e]| | |]; cbn; rewrite ?app_nil_r; reflexivity.
Qed.

Lemma resolvedMembers_seen {env : Environment} (s s' : State env) delta a :
  listsGroups s s' delta ->
  is_Some (groupMembersCache s' !! principalIdOf a) ->
  groupMembersCache s' !! principalIdOf a = Some (membersSeen s delta (principalIdOf a)) /\
  resolvedMembers s' a = membersSeen s delta (principalIdOf a).
Proof.
  intros Hl Hsome. specialize (Hl (principalIdOf a)). unfold resolvedMembers, membersSeen.
  destruct (groupMembersCache s !! principalIdOf a) as [m|].
  - destruct Hl as [_ ->]. split; reflexivity.
  - destruct Hl as [[_ Hnone] | ->]; [|split; reflexivity].
    rewrite Hnone in Hsome. destruct Hsome; discriminate.
Qed.

Lemma map_groupRefs_ext {A : Type} (f g : AccountAssignment -> A) refs :
  Forall (fun a => isGroupRef a = true -> f a = g a) refs ->
  map f (List.filter isGroupRef refs) = map g (List.filter isGroupRef refs).
Proof.
  induction 1 as [|a refs Ha _ IH]; [reflexivity|].
  cbn [List.filter]. destruct (isGroupRef a) eqn:Hg; [|exact IH].
  cbn [map]. now rewrite IH, (Ha eq_refl).
Qed.


